(** * omniTask: the workflow orchestrator of [omniTask/core/workflow.py]

    A shallow embedding of the [Workflow] class: its registration and lookup
    operations, config templating, the dependency graph, the readiness
    selector, the round-based [run] loop with task-group expansion, the two
    path-extraction helpers and the batch execution of a group.
    [register_function] and [execute] only hand over to the registry, the
    tasks and the groups, whose classes are declared elsewhere; they are not
    embedded.

    Python dictionaries that are only looked up and updated ([results], the
    dependency maps, [dependency_outputs]) are [gmap]s; dictionaries whose
    iteration order is observable ([tasks], [task_groups], configuration
    mappings) are association lists in insertion order. A Python [set] is a
    duplicate-free list together with an iteration order that the code cannot
    rely on, see [set_iter] below. *)

From Stdlib Require Import Ascii.
From stdpp Require Import gmap strings list fin_maps.

Open Scope string_scope.
Open Scope list_scope.
Open Scope stdpp_scope.

Set Warnings "-register-all,-clear-no-such-hyp".

(** ** Python strings *)

(** [s.split(sep)] for a one-character separator: always at least one
    segment, empty segments are kept. *)
Fixpoint split (sep : Ascii.ascii) (s : string) : list string :=
  match s with
  | EmptyString => [EmptyString]
  | String c s' =>
      if Ascii.eqb c sep then EmptyString :: split sep s'
      else match split sep s' with
           | [] => [String c EmptyString]
           | p :: ps => String c p :: ps
           end
  end.

(** [sub in s] *)
Fixpoint contains (sub s : string) : bool :=
  String.prefix sub s ||
  match s with
  | EmptyString => false
  | String _ s' => contains sub s'
  end.

(** [s.replace(old, new)] for a non-empty [old]: scan from the left; at an
    occurrence of [old] emit [new] and skip the occurrence, otherwise copy one
    character. [skip] counts the characters of a matched occurrence that are
    still to be dropped. *)
Fixpoint replace_from (old new : string) (skip : nat) (s : string) : string :=
  match s with
  | EmptyString => EmptyString
  | String c s' =>
      match skip with
      | S k => replace_from old new k s'
      | O =>
          if String.prefix old s
          then new +:+ replace_from old new (String.length old - 1) s'
          else String c (replace_from old new 0 s')
      end
  end.

Definition replace (old new s : string) : string := replace_from old new 0 s.

(** ** Python values: task outputs, configuration values, list items *)

Inductive value :=
| VNone
| VBool (b : bool)
| VInt (z : Z)
| VStr (s : string)
| VList (l : list value)
| VDict (d : list (string * value)).

(** [type(v)] as it prints inside an f-string *)
Definition type_name (v : value) : string :=
  match v with
  | VNone => "<class 'NoneType'>"
  | VBool _ => "<class 'bool'>"
  | VInt _ => "<class 'int'>"
  | VStr _ => "<class 'str'>"
  | VList _ => "<class 'list'>"
  | VDict _ => "<class 'dict'>"
  end.

(** ** Insertion-ordered dictionaries with string keys *)

Section Dict.
Context {V : Type}.

(** [k in d] *)
Fixpoint dict_mem (k : string) (d : list (string * V)) : bool :=
  match d with
  | [] => false
  | (k', _) :: d' => String.eqb k' k || dict_mem k d'
  end.

(** [d[k]], [None] standing for the [KeyError] *)
Fixpoint dict_get (k : string) (d : list (string * V)) : option V :=
  match d with
  | [] => None
  | (k', v) :: d' => if String.eqb k' k then Some v else dict_get k d'
  end.

(** [d[k] = v]: an existing key keeps its position, a new key goes last *)
Fixpoint dict_set (k : string) (v : V) (d : list (string * V)) : list (string * V) :=
  match d with
  | [] => [(k, v)]
  | (k', v') :: d' =>
      if String.eqb k' k then (k', v) :: d' else (k', v') :: dict_set k v d'
  end.

(** in-place mutation of the object stored under [k] *)
Fixpoint dict_alter (f : V → V) (k : string) (d : list (string * V)) : list (string * V) :=
  match d with
  | [] => []
  | (k', v') :: d' =>
      if String.eqb k' k then (k', f v') :: d' else (k', v') :: dict_alter f k d'
  end.
End Dict.

(** ** Errors and results *)

(** The exceptions a workflow meets. [CancelledError] derives from
    [BaseException] but not from [Exception]: [asyncio.gather] hands it back
    like any other exception of a coroutine, but neither
    [isinstance(result, Exception)] nor [except Exception] recognises it. *)
Inductive exn :=
| ValueError (msg : string)
| KeyError (key : string)
| TimeoutError
| Exception (msg : string)
| CancelledError.

(** [isinstance(e, Exception)] *)
Definition is_Exception (e : exn) : bool :=
  match e with
  | CancelledError => false
  | _ => true
  end.

(** Outcome of a call that may raise *)
Inductive res (A : Type) :=
| Ok (a : A)
| Raise (e : exn).
Arguments Ok {A} a.
Arguments Raise {A} e.

(** Modelled from the spec: the class [TaskResult] ([models/task_result.py])
    is declared outside [workflow.py]; section 3 gives it a success flag, an
    output and an optional error, the three fields [run] reads and writes. *)
Record TaskResult := mkTaskResult {
  success : bool;
  output : value;
  error : option exn;
}.

(** Modelled from the spec: the class [Task] ([core/task.py]) is declared
    outside [workflow.py]; section 3 gives it a name, the declared list of
    dependency names, a configuration and the two mutable fields
    [dependency_outputs] and [dependency_order], the fields the workflow
    reads and writes. *)
Record Task := mkTask {
  name : string;
  task_dependencies : list string;
  task_config : list (string * value);
  dependency_outputs : gmap string value;
  dependency_order : list string;
}.

(** Modelled from the spec: the class [TaskGroupConfig]
    ([models/task_group.py]) is declared outside [workflow.py]; section 3 gives
    it the task type, the [for_each] path, the configuration template and the
    concurrency cap. *)
Record TaskGroupConfig := mkTaskGroupConfig {
  type : string;
  for_each : string;
  config_template : list (string * value);
  max_concurrent : nat;
}.

(** Modelled from the spec: the class [TaskGroup] ([models/task_group.py]) is
    declared outside [workflow.py]; the workflow reads its name and its
    [config], and calls its [execute] and [get_output], which are parameters
    of the section below. *)
Record TaskGroup := mkTaskGroup {
  group_name : string;
  config : TaskGroupConfig;
}.

(** [Workflow]: [tasks] and [task_groups] in insertion order; the two
    dependency maps hold Python sets, kept as duplicate-free lists. *)
Record Workflow := mkWorkflow {
  tasks : list (string * Task);
  task_groups : list (string * TaskGroup);
  wf_task_dependencies : gmap string (list string);
  wf_task_dependents : gmap string (list string);
}.

Definition set_tasks (self : Workflow) (ts : list (string * Task)) : Workflow :=
  mkWorkflow ts (task_groups self) (wf_task_dependencies self) (wf_task_dependents self).

Definition set_task_groups (self : Workflow) (gs : list (string * TaskGroup)) : Workflow :=
  mkWorkflow (tasks self) gs (wf_task_dependencies self) (wf_task_dependents self).

(** ** Config templating *)

Definition placeholder : string := "${item}".

Section Orchestrator.

Set Default Proof Using "Type".
Set Proof Using Clear Unused.

(** [str(item)], Python's built-in conversion *)
Variable str : value → string.

(** The body of the loop over [template.items()] *)
Definition render_entry (item : value) (config : list (string * value))
    (kv : string * value) : list (string * value) :=
  match kv.2 with
  | VStr s =>
      if contains placeholder s
      then dict_set kv.1 (VStr (replace placeholder (str item) s)) config
      else dict_set kv.1 kv.2 config
  | _ => dict_set kv.1 kv.2 config
  end.

(** [_prepare_task_config] *)
Definition _prepare_task_config (template : list (string * value)) (item : value)
  : list (string * value) :=
  fold_left (render_entry item) template [].

(** ** Registration and lookup *)

(** [TaskRegistry.create_task], which may reject an unknown type *)
Variable registry_create_task : string → string → list (string * value) → res Task.
(** [Task.get_output] and [TaskGroup.get_output] *)
Variable get_output : Task → res value.
Variable group_get_output : TaskGroup → res value.

(** Each operation takes [self] and gives back [self] as the call leaves
    it, next to what the call returns or raises. *)

Definition add_task (task : Task) (self : Workflow) : Workflow * res unit :=
  if dict_mem (name task) (tasks self)
  then (self, Raise (ValueError
          ("Task with name " +:+ name task +:+ " already exists in workflow")))
  else (set_tasks self (dict_set (name task) task (tasks self)), Ok ()).

Definition add_task_group (gname : string) (cfg : TaskGroupConfig) (self : Workflow)
  : Workflow * res unit :=
  if dict_mem gname (task_groups self)
  then (self, Raise (ValueError ("Task group " +:+ gname +:+ " already exists")))
  else
    let group := mkTaskGroup gname cfg in
    (set_task_groups self (dict_set gname group (task_groups self)), Ok ()).

Definition create_task (task_type tname : string) (cfg : list (string * value))
    (self : Workflow) : Workflow * res Task :=
  if dict_mem tname (tasks self)
  then (self, Raise (ValueError ("Task " +:+ tname +:+ " already exists")))
  else
    match registry_create_task task_type tname cfg with
    | Raise e => (self, Raise e)
    | Ok task => (set_tasks self (dict_set tname task (tasks self)), Ok task)
    end.

(** [self.tasks[k]] once [k in self.tasks] has been tested *)
Definition subscript {V : Type} (k : string) (d : list (string * V)) : res V :=
  match dict_get k d with
  | Some v => Ok v
  | None => Raise (KeyError k)
  end.

Definition get_task (tname : string) (self : Workflow) : Workflow * res Task :=
  if negb (dict_mem tname (tasks self))
  then (self, Raise (ValueError ("Task " +:+ tname +:+ " not found")))
  else (self, subscript tname (tasks self)).

Definition get_task_group (gname : string) (self : Workflow) : Workflow * res TaskGroup :=
  if negb (dict_mem gname (task_groups self))
  then (self, Raise (ValueError ("Task group " +:+ gname +:+ " not found")))
  else (self, subscript gname (task_groups self)).

Definition get_task_output (tname : string) (self : Workflow) : Workflow * res value :=
  if dict_mem tname (tasks self) then
    match subscript tname (tasks self) with
    | Ok task => (self, get_output task)
    | Raise e => (self, Raise e)
    end
  else if dict_mem tname (task_groups self) then
    match subscript tname (task_groups self) with
    | Ok group => (self, group_get_output group)
    | Raise e => (self, Raise e)
    end
  else (self, Raise (ValueError ("Task or group " +:+ tname +:+ " not found"))).

(** ** The run: state, events, collaborators *)

(** What a run does that can be observed from outside, in the order it
    happens: the logger's lines, the calls to the execution collaborator,
    and the writes to [results] and [completed_tasks]. *)
Inductive event :=
| EvExecuting (names : list string)                (* logger.info, round start *)
| EvDispatch (task_name : string) (task : Task)    (* task.execute_with_timeout() *)
| EvResult (task_name : string) (r : TaskResult)   (* results[task_name] = ... *)
| EvTaskFailed (task_name error_type : string)     (* logger.error in _execute_task *)
| EvTaskError (task_name : string) (e : exn)       (* logger.error in run *)
| EvCompleted (task_name : string)                 (* completed_tasks.add *)
| EvStopped (task_name : string)                   (* logger.error, workflow stopped *)
| EvGroup (gname task_name : string)               (* logger.info, group triggered *)
| EvGroupResult (gname : string) (r : TaskResult). (* results[group_name] = ... *)

Record run_state := mkState {
  workflow : Workflow;
  results : gmap string TaskResult;
  completed_tasks : gset string;
  trace : list event;
}.

Definition emit (e : event) (st : run_state) : run_state :=
  mkState (workflow st) (results st) (completed_tasks st) (trace st ++ [e]).

Definition set_result (k : string) (r : TaskResult) (st : run_state) : run_state :=
  mkState (workflow st) (<[k := r]> (results st)) (completed_tasks st) (trace st).

Definition mark_completed (k : string) (st : run_state) : run_state :=
  mkState (workflow st) (results st) ({[k]} ∪ completed_tasks st) (trace st).

Definition alter_task (f : Task → Task) (k : string) (st : run_state) : run_state :=
  mkState (set_tasks (workflow st) (dict_alter f k (tasks (workflow st))))
          (results st) (completed_tasks st) (trace st).

(** Iteration order of a Python set, given its elements in insertion
    order. The code has no control over it. *)
Variable set_iter : list string → list string.
(** [Task.execute_with_timeout], called on the task as the workflow has
    prepared it *)
Variable execute_with_timeout : Task → res TaskResult.
(** [TaskGroup.create_tasks] followed by [TaskGroup.execute], on the items
    the workflow has extracted *)
Variable group_execute : TaskGroup → list value → res TaskResult.

(** [set(l)] and [s.add(x)] *)
Definition set_of (l : list string) : list string := remove_dups l.

Definition set_add (x : string) (s : list string) : list string :=
  if bool_decide (x ∈ s) then s else s ++ [x].

(** ** Dependency graph *)

Definition add_dependent (task_name : string)
    (dependents : gmap string (list string)) (dep : string)
  : gmap string (list string) :=
  <[dep := set_add task_name (default [] (dependents !! dep))]> dependents.

Definition graph_step
    (g : gmap string (list string) * gmap string (list string))
    (kt : string * Task)
  : gmap string (list string) * gmap string (list string) :=
  (<[kt.1 := set_of (task_dependencies kt.2)]> g.1,
   fold_left (add_dependent kt.1) (task_dependencies kt.2) g.2).

Definition _build_dependency_graph (self : Workflow) : Workflow :=
  let g := fold_left graph_step (tasks self) (∅, ∅) in
  mkWorkflow (tasks self) (task_groups self) g.1 g.2.

(** ** Readiness selector *)

Definition ready_step (self : Workflow) (completed : gset string)
    (ready : list string) (task_name : string) : list string :=
  if bool_decide (task_name ∉ completed) && bool_decide (task_name ∉ ready) then
    let deps := default [] (wf_task_dependencies self !! task_name) in
    if forallb (λ dep, bool_decide (dep ∈ completed)) deps
    then set_add task_name ready
    else ready
  else ready.

Definition _get_ready_tasks (self : Workflow) (completed : gset string) : list string :=
  fold_left (ready_step self completed) (tasks self).*1 [].

(** ** Executing one task *)

Definition error_type (r : TaskResult) : string :=
  match error r with
  | Some TimeoutError => "timeout"
  | _ => "error"
  end.

(** [{prev: results[prev].output for prev in deps}] *)
Fixpoint collect_outputs (res_map : gmap string TaskResult) (deps : list string)
  : res (gmap string value) :=
  match deps with
  | [] => Ok ∅
  | prev :: deps' =>
      match res_map !! prev with
      | None => Raise (KeyError prev)
      | Some r =>
          match collect_outputs res_map deps' with
          | Raise e => Raise e
          | Ok m => Ok (<[prev := output r]> m)
          end
      end
  end.

Definition inject (outputs : gmap string value) (order : list string) (task : Task) : Task :=
  mkTask (name task) (task_dependencies task) (task_config task) outputs order.

Definition _execute_task (task_name : string) (st : run_state)
  : run_state * res TaskResult :=
  match subscript task_name (tasks (workflow st)) with
  | Raise e => (st, Raise e)
  | Ok task =>
      match wf_task_dependencies (workflow st) !! task_name with
      | None => (st, Raise (KeyError task_name))
      | Some deps =>
          match collect_outputs (results st) (set_iter deps) with
          | Raise e => (st, Raise e)
          | Ok outputs =>
              let task' := inject outputs (set_iter deps) task in
              let st1 := alter_task (inject outputs (set_iter deps)) task_name st in
              let st2 := emit (EvDispatch task_name task') st1 in
              match execute_with_timeout task' with
              | Raise e => (st2, Raise e)
              | Ok result =>
                  let st3 := emit (EvResult task_name result)
                               (set_result task_name result st2) in
                  if success result then (st3, Ok result)
                  else (emit (EvTaskFailed task_name (error_type result)) st3, Ok result)
              end
          end
      end
  end.

(** [asyncio.gather(..., return_exceptions=True)]: every coroutine of the
    round runs to its end, an exception becomes that coroutine's value. The
    coroutines of one round read only results of earlier rounds and write
    only their own key, so running them one after the other gives the
    state that any interleaving gives. *)
Fixpoint gather (names : list string) (st : run_state)
  : run_state * list (res TaskResult) :=
  match names with
  | [] => (st, [])
  | task_name :: names' =>
      let r := _execute_task task_name st in
      let rs := gather names' r.1 in
      (rs.1, r.2 :: rs.2)
  end.

(** ** Group expansion *)

(** walking [path_parts[1:]] into the output *)
Fixpoint walk (parts : list string) (current : value) : option value :=
  match parts with
  | [] => Some current
  | part :: parts' =>
      match current with
      | VDict d =>
          match dict_get part d with
          | Some v => walk parts' v
          | None => None
          end
      | _ => None
      end
  end.

(** [any(dep == task_name for dep in for_each.split('.'))] *)
Definition triggers (path task_name : string) : bool :=
  existsb (λ dep, String.eqb dep task_name) (split "."%char path).

Definition push_output (gname : string) (out : value) (next_task : Task) : Task :=
  mkTask (name next_task) (task_dependencies next_task) (task_config next_task)
         (<[gname := out]> (dependency_outputs next_task))
         (if bool_decide (gname ∈ dependency_order next_task)
          then dependency_order next_task
          else dependency_order next_task ++ [gname]).

Definition publish (gname : string) (group_result : TaskResult) (st : run_state)
  : run_state :=
  fold_left
    (λ st' next_task_name,
       if dict_mem next_task_name (tasks (workflow st'))
       then alter_task (push_output gname (output group_result)) next_task_name st'
       else st')
    (set_iter (default [] (wf_task_dependents (workflow st) !! gname)))
    st.

(** The body of the loop over [self.task_groups.items()] for one group;
    [Some e] when it raises. *)
Definition expand_group (task_name : string) (g : string * TaskGroup) (st : run_state)
  : run_state * option exn :=
  let path := for_each (config g.2) in
  if triggers path task_name then
    let st1 := emit (EvGroup g.1 task_name) st in
    let path_parts := split "."%char path in
    match results st1 !! task_name with
    | None => (st1, Some (KeyError task_name))
    | Some r =>
        match walk (tail path_parts) (output r) with
        | None =>
            (st1, Some (ValueError ("Path " +:+ path +:+ " not found in task output")))
        | Some (VList items) =>
            match group_execute g.2 items with
            | Raise e => (st1, Some e)
            | Ok group_result =>
                let st2 := emit (EvGroupResult g.1 group_result)
                             (set_result g.1 group_result st1) in
                (publish g.1 group_result st2, None)
            end
        | Some current =>
            (st1, Some (ValueError ("Expected list at path " +:+ path +:+ ", got "
                                    +:+ type_name current)))
        end
    end
  else (st, None).

Fixpoint expand_groups (task_name : string) (gs : list (string * TaskGroup))
    (st : run_state) : run_state * option exn :=
  match gs with
  | [] => (st, None)
  | g :: gs' =>
      match expand_group task_name g st with
      | (st1, Some e) => (st1, Some e)
      | (st1, None) => expand_groups task_name gs' st1
      end
  end.

(** ** The round-based executor *)

(** How a piece of [run] ends: fall through, [return results], or raise *)
Inductive signal :=
| Continue
| Return
| Raised (e : exn).

(** [TaskResult(success=False, output={}, error=result)] *)
Definition failed_result (e : exn) : TaskResult := mkTaskResult false (VDict []) (Some e).

(** The loop over [zip(tasks_to_execute, task_results)]. Only an
    [Exception] among the outcomes is turned into a failed result; after any
    other exception [results[task_name]] is looked up without having been
    written, and the [KeyError] of that lookup leaves [run]. *)
Fixpoint process_results (pairs : list (string * res TaskResult)) (st : run_state)
  : run_state * signal :=
  match pairs with
  | [] => (st, Continue)
  | (task_name, result) :: pairs' =>
      let st1 :=
        match result with
        | Raise e =>
            if is_Exception e then
              emit (EvResult task_name (failed_result e))
                (set_result task_name (failed_result e)
                   (emit (EvTaskError task_name e) st))
            else st
        | Ok _ => st
        end in
      let st2 := emit (EvCompleted task_name) (mark_completed task_name st1) in
      match results st2 !! task_name with
      | None => (st2, Raised (KeyError task_name))
      | Some r =>
          if negb (success r) then (emit (EvStopped task_name) st2, Return)
          else
            match expand_groups task_name (task_groups (workflow st2)) st2 with
            | (st3, Some e) => (st3, Raised e)
            | (st3, None) => process_results pairs' st3
            end
      end
  end.

(** One iteration of [while True] *)
Definition round (st : run_state) : run_state * signal :=
  let ready_tasks := _get_ready_tasks (workflow st) (completed_tasks st) in
  match ready_tasks with
  | [] => (st, Return)
  | _ =>
      let tasks_to_execute :=
        filter (λ task_name, dict_mem task_name (tasks (workflow st)) = true)
               (set_iter ready_tasks) in
      match tasks_to_execute with
      | [] => (st, Return)
      | _ =>
          let st1 := emit (EvExecuting tasks_to_execute) st in
          let g := gather tasks_to_execute st1 in
          process_results (zip tasks_to_execute g.2) g.1
      end
  end.

(** [while True]: [None] when [fuel] iterations were not enough *)
Fixpoint run_loop (fuel : nat) (st : run_state) : option (run_state * signal) :=
  match fuel with
  | O => None
  | S fuel' =>
      match round st with
      | (st', Continue) => run_loop fuel' st'
      | (st', sig) => Some (st', sig)
      end
  end.

Definition initial_state (self : Workflow) : run_state :=
  mkState (_build_dependency_graph self) ∅ ∅ [].

(** [run]: every iteration that does not leave the loop completes a task
    that was not completed before, so one iteration more than there are
    tasks is enough ([run_terminates]). The final state carries the
    returned [results]. *)
Definition run (self : Workflow) : option (run_state * signal) :=
  run_loop (S (length (tasks self))) (initial_state self).

(** ** Construction, enumeration and function tasks *)

(** [Workflow(name, registry)]: no task, no group, empty dependency maps.
    The workflow's name and logger are not part of the state kept here, and
    the registry is known through its operations, which are parameters. *)
Definition __init__ : Workflow := mkWorkflow [] [] ∅ ∅.

(** [TaskRegistry.create_function_task]; [config] is [None] by default *)
Variable registry_create_function_task :
  string → string → option (list (string * value)) → res Task.

(** The registry builds the task first; [add_task] then files it under the
    name the task carries. *)
Definition create_function_task (func_name tname : string)
    (cfg : option (list (string * value))) (self : Workflow) : Workflow * res Task :=
  match registry_create_function_task func_name tname cfg with
  | Raise e => (self, Raise e)
  | Ok task =>
      match add_task task self with
      | (self', Raise e) => (self', Raise e)
      | (self', Ok _) => (self', Ok task)
      end
  end.

(** [list(self.tasks.values())] and [list(self.task_groups.values())] *)
Definition get_all_tasks (self : Workflow) : list Task := (tasks self).*2.

Definition get_all_task_groups (self : Workflow) : list TaskGroup :=
  (task_groups self).*2.

(** ** Path extraction *)

(** [result.error] as an f-string prints it *)
Variable str_error : option exn → string.

(** [_extract_items_from_output]: the loop is the one [run] has inline, but
    over every segment of the path. *)
Definition _extract_items_from_output (result : TaskResult) (path : string)
  : res (list value) :=
  if negb (success result) then
    Raise (ValueError ("Cannot extract items from failed task result: "
                       +:+ str_error (error result)))
  else
    match walk (split "."%char path) (output result) with
    | None => Raise (ValueError ("Path " +:+ path +:+ " not found in task output"))
    | Some (VList items) => Ok items
    | Some current =>
        Raise (ValueError ("Expected list at path " +:+ path +:+ ", got "
                           +:+ type_name current))
    end.

(** How [_extract_from_path] ends: with the value found, with the
    [KeyError] of its last line, or with the [TypeError] that Python raises
    when a string is looked for in a value that is no container, or is used
    to index a list or a string. *)
Inductive extracted :=
| Found (v : value)
| PathKeyError (msg : string)
| PathTypeError.

(** [part in current]; [None] when the test itself raises *)
Definition value_contains (part : string) (current : value) : option bool :=
  match current with
  | VDict d => Some (dict_mem part d)
  | VList l =>
      Some (existsb (λ v, match v with VStr s => String.eqb s part | _ => false end) l)
  | VStr s => Some (contains part s)
  | VNone | VBool _ | VInt _ => None
  end.

(** [current[part]] *)
Definition value_subscript (part : string) (current : value) : extracted :=
  match current with
  | VDict d =>
      match dict_get part d with
      | Some v => Found v
      | None => PathKeyError part
      end
  | _ => PathTypeError
  end.

(** The body of the loop of [_extract_from_path] *)
Definition extract_part (part : string) (current : value) : extracted :=
  if String.eqb part "output"
     && match current with VDict d => dict_mem "output" d | _ => false end
  then value_subscript "output" current
  else
    match value_contains part current with
    | None => PathTypeError
    | Some true => value_subscript part current
    | Some false =>
        match value_contains part current with
        | None => PathTypeError
        | Some true => value_subscript part current
        | Some false =>
            PathKeyError ("Path part '" +:+ part +:+ "' not found in " +:+ str current)
        end
    end.

Fixpoint extract_parts (parts : list string) (current : value) : extracted :=
  match parts with
  | [] => Found current
  | part :: parts' =>
      match extract_part part current with
      | Found v => extract_parts parts' v
      | err => err
      end
  end.

Definition _extract_from_path (data : value) (path : string) : extracted :=
  extract_parts (split "."%char path) data.

(** ** Executing a group's batch *)

(** The attributes that [_execute_task_group] reads on the object stored
    under the group's name. The class of that object is declared outside
    [workflow.py], so whether a read succeeds is not known here. *)
Variable attr_for_each : TaskGroup → res string.
Variable attr_config_template : TaskGroup → res (list (string * value)).
Variable attr_type : TaskGroup → res string.
Variable attr_max_concurrent : TaskGroup → res Z.

(** The order in which the coroutines of a batch finish. The code has no
    control over it. *)
Variable finish_order : list Task → list Task.

(** The loop that creates one task per item *)
Fixpoint create_group_tasks (group_config : TaskGroup) (gname : string)
    (items : list value) (self : Workflow) : Workflow * res (list Task) :=
  match items with
  | [] => (self, Ok [])
  | item :: items' =>
      match attr_config_template group_config with
      | Raise e => (self, Raise e)
      | Ok template =>
          let cfg := _prepare_task_config template item in
          match attr_type group_config with
          | Raise e => (self, Raise e)
          | Ok task_type =>
              match create_task task_type (gname +:+ "_" +:+ str item) cfg self with
              | (self1, Raise e) => (self1, Raise e)
              | (self1, Ok task) =>
                  match create_group_tasks group_config gname items' self1 with
                  | (self2, Raise e) => (self2, Raise e)
                  | (self2, Ok created) => (self2, Ok (task :: created))
                  end
              end
          end
      end
  end.

(** The inner coroutine [execute_task]: the outcome goes to [results] under
    the name the task carries, an [Exception] as a failed result. Any other
    exception ends the coroutine without an entry, and the [gather] around
    the batch drops it. *)
Definition record_outcome (batch : gmap string TaskResult) (task : Task)
  : gmap string TaskResult :=
  match execute_with_timeout task with
  | Ok result => <[name task := result]> batch
  | Raise e =>
      if is_Exception e then <[name task := failed_result e]> batch else batch
  end.

(** How [_execute_task_group] ends. With a semaphore of value zero no
    coroutine of a non-empty batch ever gets a slot, and the call never
    returns. *)
Inductive batch_outcome :=
| BatchReturns (batch : gmap string TaskResult)
| BatchRaises (e : exn)
| BatchBlocks.

Definition _execute_task_group (gname : string) (parent_result : TaskResult)
    (self : Workflow) : Workflow * batch_outcome :=
  match subscript gname (task_groups self) with
  | Raise e => (self, BatchRaises e)
  | Ok group_config =>
      match attr_for_each group_config with
      | Raise e => (self, BatchRaises e)
      | Ok path =>
          match _extract_items_from_output parent_result path with
          | Raise e => (self, BatchRaises e)
          | Ok items =>
              match create_group_tasks group_config gname items self with
              | (self1, Raise e) => (self1, BatchRaises e)
              | (self1, Ok created) =>
                  match attr_max_concurrent group_config with
                  | Raise e => (self1, BatchRaises e)
                  | Ok n =>
                      if (n <? 0)%Z then
                        (self1, BatchRaises
                                  (ValueError "Semaphore initial value must be >= 0"))
                      else
                        match created, (n =? 0)%Z with
                        | _ :: _, true => (self1, BatchBlocks)
                        | _, _ =>
                            (self1, BatchReturns
                                      (fold_left record_outcome (finish_order created) ∅))
                        end
                  end
              end
          end
      end
  end.

(** ** Specification-level notions *)

(** Section 4.5 of the specification: every occurrence of the token,
    found from the left, gives way to the new text; everything else is
    copied. *)
Inductive all_replaced (tok new : string) : string → string → Prop :=
| all_replaced_end : all_replaced tok new EmptyString EmptyString
| all_replaced_token b b' :
    all_replaced tok new b b' →
    all_replaced tok new (tok +:+ b) (new +:+ b')
| all_replaced_char c s s' :
    (¬ ∃ b, String c s = tok +:+ b) →
    all_replaced tok new s s' →
    all_replaced tok new (String c s) (String c s').

(** [occurs tok s]: the string contains the token *)
Definition occurs (tok s : string) : Prop := ∃ a b, s = a +:+ tok +:+ b.

(** A template value and the value rendered from it for [item] *)
Inductive rendered (item : value) : value → value → Prop :=
| rendered_subst s s' :
    occurs placeholder s →
    all_replaced placeholder (str item) s s' →
    rendered item (VStr s) (VStr s')
| rendered_copy v :
    (∀ s, v = VStr s → ¬ occurs placeholder s) →
    rendered item v v.

(** Names are keys of Python dictionaries: no two tasks and no two groups
    of a workflow share one. *)
Definition unique_names (self : Workflow) : Prop :=
  NoDup (tasks self).*1 ∧ NoDup (task_groups self).*1.

(** ** Reading a run from its trace *)

(** The [results] map and the [completed_tasks] set that a trace accounts for *)
Definition results_step (m : gmap string TaskResult) (e : event) : gmap string TaskResult :=
  match e with
  | EvResult k r | EvGroupResult k r => <[k := r]> m
  | _ => m
  end.

Definition results_of (tr : list event) : gmap string TaskResult :=
  fold_left results_step tr ∅.

Definition completed_step (c : gset string) (e : event) : gset string :=
  match e with
  | EvCompleted k => {[k]} ∪ c
  | _ => c
  end.

Definition completed_of (tr : list event) : gset string :=
  fold_left completed_step tr ∅.

(** [k] was among the tasks of some round *)
Definition scheduled (k : string) (tr : list event) : Prop :=
  ∃ names, EvExecuting names ∈ tr ∧ k ∈ names.

(** The dependency set the graph holds for a task of [self] *)
Definition graph_deps (self : Workflow) (k : string) : list string :=
  default [] (wf_task_dependencies (_build_dependency_graph self) !! k).

(** What holds of an event of a run of [self], given the events before it *)
Definition event_ok (self : Workflow) (pre : list event) (e : event) : Prop :=
  (∀ t, EvStopped t ∉ pre) ∧
  match e with
  | EvExecuting names =>
      ∀ k, k ∈ names →
        k ∈ (tasks self).*1 ∧ (k ∉ completed_of pre) ∧
        ∀ d, d ∈ graph_deps self k →
             d ∈ completed_of pre ∧ is_Some (results_of pre !! d)
  | EvDispatch k task =>
      scheduled k pre ∧
      dependency_order task ≡ₚ graph_deps self k ∧
      ∀ d, dependency_outputs task !! d =
           if decide (d ∈ graph_deps self k) then output <$> (results_of pre !! d) else None
  | EvResult k r =>
      scheduled k pre ∧
      ((∃ task, EvDispatch k task ∈ pre ∧ execute_with_timeout task = Ok r)
       ∨ (∃ e, EvTaskError k e ∈ pre ∧ r = failed_result e))
  | EvTaskError k e =>
      ∃ task, EvDispatch k task ∈ pre ∧ execute_with_timeout task = Raise e
  | EvCompleted k => scheduled k pre
  | EvGroup g t =>
      t ∈ completed_of pre ∧
      ∃ grp, (g, grp) ∈ task_groups self ∧ triggers (for_each (config grp)) t = true
  | EvGroupResult g _ => ∃ t, EvGroup g t ∈ pre
  | EvStopped t => t ∈ completed_of pre ∧ ∀ g, EvGroup g t ∉ pre
  | EvTaskFailed _ _ => True
  end.

(** Every event of the trace is justified by the events before it *)
Definition history_ok (self : Workflow) (tr : list event) : Prop :=
  ∀ pre e post, tr = pre ++ e :: post → event_ok self pre e.

(** The steps a run is made of: a logged event, a mutation of a task object
    that keeps its declaration, a recorded result, a completed task. *)
Definition log_only (e : event) : Prop :=
  match e with
  | EvResult _ _ | EvGroupResult _ _ | EvCompleted _ => False
  | _ => True
  end.

Inductive astep (self : Workflow) : run_state → run_state → Prop :=
| astep_log e st :
    log_only e → event_ok self (trace st) e → astep self st (emit e st)
| astep_alter f k st :
    (∀ t, task_dependencies (f t) = task_dependencies t) →
    astep self st (alter_task f k st)
| astep_result k r st :
    event_ok self (trace st) (EvResult k r) →
    astep self st (emit (EvResult k r) (set_result k r st))
| astep_group_result g r st :
    event_ok self (trace st) (EvGroupResult g r) →
    astep self st (emit (EvGroupResult g r) (set_result g r st))
| astep_completed k st :
    event_ok self (trace st) (EvCompleted k) →
    astep self st (emit (EvCompleted k) (mark_completed k st)).

(** What every state of a run of [self] satisfies *)
Record inv (self : Workflow) (st : run_state) : Prop := mkInv {
  inv_keys : (tasks (workflow st)).*1 = (tasks self).*1;
  inv_decl : ∀ k, task_dependencies <$> dict_get k (tasks (workflow st))
                  = task_dependencies <$> dict_get k (tasks self);
  inv_groups : task_groups (workflow st) = task_groups self;
  inv_graph : wf_task_dependencies (workflow st)
              = wf_task_dependencies (_build_dependency_graph self);
  inv_dependents : wf_task_dependents (workflow st)
                   = wf_task_dependents (_build_dependency_graph self);
  inv_results : results st = results_of (trace st);
  inv_completed : completed_tasks st = completed_of (trace st);
  inv_history : history_ok self (trace st);
}.

(** Every group that the completion of a task triggers was expanded,
    except for the task that stopped the workflow *)
Definition expanded (self : Workflow) (st : run_state) : Prop :=
  ∀ t g grp,
    t ∈ completed_tasks st → EvStopped t ∉ trace st →
    (g, grp) ∈ task_groups self →
    triggers (for_each (config grp)) t = true → EvGroup g t ∈ trace st.

(** Between iterations of the loop: nothing stopped the workflow, every
    triggered group was expanded, and every completed task has an entry in
    [results]. *)
Record head_inv (self : Workflow) (st : run_state) : Prop := mkHeadInv {
  head_running : ∀ t, EvStopped t ∉ trace st;
  head_expanded : expanded self st;
  head_recorded : ∀ t, t ∈ completed_tasks st → is_Some (results st !! t);
}.

(** The events of the loop over a round's results *)
Definition process_event (e : event) : Prop :=
  match e with
  | EvExecuting _ | EvDispatch _ _ => False
  | _ => True
  end.

(** A dependency graph without cycles: tasks can be ranked so that every
    declared dependency ranks below the task declaring it. *)
Definition acyclic (self : Workflow) : Prop :=
  ∃ rank : string → nat,
    ∀ k task d, (k, task) ∈ tasks self → d ∈ task_dependencies task → rank d < rank k.

(** Every declared dependency is the name of a task *)
Definition satisfiable (self : Workflow) : Prop :=
  ∀ k task d, (k, task) ∈ tasks self → d ∈ task_dependencies task → d ∈ (tasks self).*1.

(** The events of [_execute_task k] ending with [o], and of a round's
    [gather] ending with the outcomes paired in [pairs] *)
Definition exec_event (k : string) (o : res TaskResult) (e : event) : Prop :=
  match e with
  | EvDispatch k' task => k' = k ∧ o = execute_with_timeout task
  | EvResult k' r => k' = k ∧ o = Ok r
  | EvTaskFailed k' _ => k' = k
  | _ => False
  end.

Definition gather_event (pairs : list (string * res TaskResult)) (e : event) : Prop :=
  match e with
  | EvDispatch k task => (k, execute_with_timeout task) ∈ pairs
  | EvResult k r => (k, Ok r) ∈ pairs
  | EvTaskFailed _ _ => True
  | _ => False
  end.

(** The events of the expansions that the completion of [t] triggers *)
Definition expand_event (t : string) (e : event) : Prop :=
  match e with
  | EvGroup _ t' => t' = t
  | EvGroupResult _ _ => True
  | _ => False
  end.

(** The two ways [run] returns: no task is ready any more, or a task failed *)
Definition drained (st : run_state) : Prop :=
  (∀ t, EvStopped t ∉ trace st)
  ∧ _get_ready_tasks (workflow st) (completed_tasks st) = [].

Definition halted (st : run_state) : Prop :=
  ∃ t r, last (trace st) = Some (EvStopped t)
         ∧ results st !! t = Some r ∧ success r = false.

(** The two ways [run] raises: out of a group expansion, or at the lookup
    of the result of a task that has none *)
Definition raised_by_expansion (st : run_state) : Prop :=
  ∃ g t, last (trace st) = Some (EvGroup g t).

Definition raised_by_lookup (st : run_state) (e : exn) : Prop :=
  ∃ t, last (trace st) = Some (EvCompleted t)
       ∧ results st !! t = None ∧ e = KeyError t.

(** How a run of [self] ends *)
Definition ended (self : Workflow) (st : run_state) (sig : signal) : Prop :=
  inv self st
  ∧ match sig with
    | Continue => False
    | Return => expanded self st ∧ (drained st ∨ halted st)
    | Raised e => raised_by_expansion st ∨ raised_by_lookup st e
    end.

(** What an iteration that stays in the loop has achieved *)
Definition progressed (self : Workflow) (st st' : run_state) : Prop :=
  inv self st' ∧ head_inv self st'
  ∧ ∃ names, names ≠ []
      ∧ (∀ k, k ∈ names → k ∈ (tasks self).*1 ∧ k ∉ completed_tasks st)
      ∧ completed_tasks st' = list_to_set names ∪ completed_tasks st.

(** ** Reading concrete runs *)

(** The group expansions triggered, as (group, task) pairs, in trace order *)
Definition triggered_groups (tr : list event) : list (string * string) :=
  omap (λ e, match e with EvGroup g t => Some (g, t) | _ => None end) tr.

(** The execution attempts with the [dependency_order] the task was given *)
Definition attempts (tr : list event) : list (string * list string) :=
  omap (λ e, match e with
             | EvDispatch k task => Some (k, dependency_order task)
             | _ => None
             end) tr.

(** The tasks at which the workflow stopped *)
Definition stopped_at (tr : list event) : list string :=
  omap (λ e, match e with EvStopped t => Some t | _ => None end) tr.

(** ** The ledger of a run *)

(** What the workflow never changes in a registered task: the name it is
    filed under, and the task's name, declared dependencies and
    configuration *)
Definition same_task (kt kt' : string * Task) : Prop :=
  kt'.1 = kt.1 ∧ name kt'.2 = name kt.2
  ∧ task_dependencies kt'.2 = task_dependencies kt.2
  ∧ task_config kt'.2 = task_config kt.2.

(** [st'] comes after [st] in a run: the trace has grown by [evs], which
    account for every write to [results] and [completed_tasks], and the
    workflow differs at most in what was injected into its tasks. *)
Record extends (st st' : run_state) (evs : list event) : Prop := mkExtends {
  ext_trace : trace st' = trace st ++ evs;
  ext_results : results st' = fold_left results_step evs (results st);
  ext_completed : completed_tasks st' = fold_left completed_step evs (completed_tasks st);
  ext_tasks : Forall2 same_task (tasks (workflow st)) (tasks (workflow st'));
  ext_groups : task_groups (workflow st') = task_groups (workflow st);
  ext_dependencies :
    wf_task_dependencies (workflow st') = wf_task_dependencies (workflow st);
  ext_dependents : wf_task_dependents (workflow st') = wf_task_dependents (workflow st);
}.

(** The names of the execution attempts, and the names marked completed,
    in trace order *)
Definition dispatched (tr : list event) : list string := (attempts tr).*1.

Definition completions (tr : list event) : list string :=
  omap (λ e, match e with EvCompleted k => Some k | _ => None end) tr.

(** What the expansion of a triggered group comes to, given the result of
    the completed task (lines 225 to 238 of [run]): the walk along the path
    without its first segment, the test for a list, the group's execution *)
Definition expansion_outcome (grp : TaskGroup) (r : TaskResult) : res TaskResult :=
  let path := for_each (config grp) in
  match walk (tail (split "."%char path)) (output r) with
  | None => Raise (ValueError ("Path " +:+ path +:+ " not found in task output"))
  | Some (VList items) => group_execute grp items
  | Some current =>
      Raise (ValueError ("Expected list at path " +:+ path +:+ ", got "
                         +:+ type_name current))
  end.

(** How an expansion ends, as a signal of the run *)
Definition expansion_signal (o : option exn) : signal :=
  match o with
  | Some e => Raised e
  | None => Continue
  end.

(** What holds of an event of a run of [self], given the events before it,
    the events after it and the way the run ends; [Continue] is for a run
    that has not ended yet.
    - An execution attempt is made for a task that is not completed.
    - An exception is logged only if it is an [Exception]; the failed result
      made of it is recorded next, and the task is marked completed next.
    - When a task is marked completed, an [Exception] that its execution
      raised has just been recorded. If its result at that moment is a
      failure, the workflow stops on the spot and [run] returns. If there is
      no result, which takes an execution that raised something that is no
      [Exception], nothing follows and [run] raises the [KeyError] of the
      lookup.
    - The workflow stops right after a task with a failed result was marked
      completed.
    - A group is expanded for a task that was marked completed, after
      nothing but expansions for that task; its recorded result comes next,
      unless the expansion raises, which ends the run. *)
Definition event_shape (self : Workflow) (sig : signal) (pre : list event)
    (e : event) (post : list event) : Prop :=
  match e with
  | EvDispatch k _ => k ∉ completed_of pre
  | EvTaskError k err =>
      is_Exception err = true
      ∧ ∃ post', post = EvResult k (failed_result err) :: EvCompleted k :: post'
  | EvCompleted k =>
      (∀ task err,
         EvDispatch k task ∈ pre → execute_with_timeout task = Raise err →
         is_Exception err = true →
         ∃ pre', pre = pre' ++ [EvTaskError k err; EvResult k (failed_result err)])
      ∧ match results_of pre !! k with
        | Some r =>
            if success r then True else post = [EvStopped k] ∧ sig = Return
        | None =>
            post = [] ∧ sig = Raised (KeyError k)
            ∧ ∃ task err, EvDispatch k task ∈ pre
                ∧ execute_with_timeout task = Raise err ∧ is_Exception err = false
        end
  | EvStopped k =>
      sig = Return ∧ post = []
      ∧ ∃ pre' r, pre = pre' ++ [EvCompleted k]
                  ∧ results_of pre' !! k = Some r ∧ success r = false
  | EvGroup g t =>
      (∃ before after, pre = before ++ EvCompleted t :: after
                       ∧ Forall (expand_event t) after)
      ∧ ∃ grp r, (g, grp) ∈ task_groups self
          ∧ triggers (for_each (config grp)) t = true
          ∧ results_of pre !! t = Some r
          ∧ match expansion_outcome grp r with
            | Ok group_result => ∃ post', post = EvGroupResult g group_result :: post'
            | Raise err => post = [] ∧ sig = Raised err
            end
  | EvGroupResult g _ => ∃ pre' t, pre = pre' ++ [EvGroup g t]
  | EvExecuting _ | EvResult _ _ | EvTaskFailed _ _ => True
  end.

(** Every event of the trace has that shape; and the same for the events
    [evs] that come after [tr] *)
Definition shaped (self : Workflow) (sig : signal) (tr : list event) : Prop :=
  ∀ pre e post, tr = pre ++ e :: post → event_shape self sig pre e post.

Definition block (self : Workflow) (sig : signal) (tr evs : list event) : Prop :=
  ∀ pre e post, evs = pre ++ e :: post → event_shape self sig (tr ++ pre) e post.

(** Every execution attempt that returned a result had it recorded *)
Definition answered (tr : list event) : Prop :=
  ∀ k task r, EvDispatch k task ∈ tr → execute_with_timeout task = Ok r →
    EvResult k r ∈ tr.

(** What holds between the iterations of the loop, and when [run] ends *)
Record head_ledger (self : Workflow) (st : run_state) : Prop := mkHeadLedger {
  head_results : results st = results_of (trace st);
  head_completed : completed_tasks st = completed_of (trace st);
  head_groups : task_groups (workflow st) = task_groups self;
  head_shaped : shaped self Continue (trace st);
  head_once : NoDup (dispatched (trace st));
  head_completions : NoDup (completions (trace st));
  head_done : ∀ k, k ∈ dispatched (trace st) → k ∈ completed_tasks st;
  head_answered : answered (trace st);
}.

Record final_ledger (self : Workflow) (st : run_state) (sig : signal) : Prop :=
  mkFinalLedger {
  final_results : results st = results_of (trace st);
  final_shaped : shaped self sig (trace st);
  final_once : NoDup (dispatched (trace st));
  final_completions : NoDup (completions (trace st));
  final_answered : answered (trace st);
}.

(** How [run] raises: out of the expansion of a registered group, with what
    the expansion raised; or with the [KeyError] of the lookup of the result
    of a task whose execution raised something that is no [Exception] *)
Definition raise_origin (self : Workflow) (st : run_state) (e : exn) : Prop :=
  (∃ pre g t grp r,
     trace st = pre ++ [EvGroup g t]
     ∧ (g, grp) ∈ task_groups self ∧ triggers (for_each (config grp)) t = true
     ∧ EvCompleted t ∈ pre
     ∧ results_of pre !! t = Some r ∧ expansion_outcome grp r = Raise e)
  ∨ (∃ pre t task err,
       trace st = pre ++ [EvCompleted t] ∧ e = KeyError t
       ∧ results st !! t = None
       ∧ EvDispatch t task ∈ pre ∧ execute_with_timeout task = Raise err
       ∧ is_Exception err = false).

(** ** Example workflows *)

Definition plain_task (n : string) (deps : list string) : string * Task :=
  (n, mkTask n deps [] ∅ []).

Definition group_over (g path : string) : string * TaskGroup :=
  (g, mkTaskGroup g (mkTaskGroupConfig "echo" path [("msg", VStr "hello ${item}")] 2)).

(** Two iteration orders a set of names may have *)
Definition insertion_order (l : list string) : list string := l.
Definition reverse_order (l : list string) : list string := reverse l.

(** Execution collaborators: every task returns [out]; every task returns
    a failed result; every task raises; the task named [bad] returns a
    failed result and the others return [out]. *)
Definition returns (out : value) (task : Task) : res TaskResult :=
  Ok (mkTaskResult true out None).

Definition fails (task : Task) : res TaskResult :=
  Ok (mkTaskResult false (VDict []) (Some (Exception "failed"))).



Definition fails_at (bad : string) (out : value) (task : Task) : res TaskResult :=
  if String.eqb (name task) bad then fails task else returns out task.

(** A group collaborator that aggregates the items it was given *)
Definition echo_group (grp : TaskGroup) (items : list value) : res TaskResult :=
  Ok (mkTaskResult true (VDict [("count", VInt (Z.of_nat (length items)))]) None).

(** [str] on the values the examples use *)
Definition str_example (v : value) : string :=
  match v with
  | VStr s => s
  | VNone => "None"
  | VBool true => "True"
  | VBool false => "False"
  | _ => "?"
  end.

Definition items_output : value := VDict [("items", VList [VInt 1; VInt 2; VInt 3])].

(** [A], then [B] after [A], then the group [G] over [B.items], and [C] that
    depends on [G] alone *)
Definition pipeline : Workflow :=
  mkWorkflow [plain_task "A" []; plain_task "B" ["A"]; plain_task "C" ["G"]]
             [group_over "G" "B.items"] ∅ ∅.

(** One task [t] and a group [g] over [t.items] *)
Definition single : Workflow :=
  mkWorkflow [plain_task "t" []] [group_over "g" "t.items"] ∅ ∅.

(** A task named [items] and a group whose path is [parent.items] *)
Definition second_segment : Workflow :=
  mkWorkflow [plain_task "items" []] [group_over "g" "parent.items"] ∅ ∅.

(** [B] declares [A] twice *)
Definition repeated_dependency : Workflow :=
  mkWorkflow [plain_task "A" []; plain_task "B" ["A"; "A"]] [] ∅ ∅.

(** [A], then [B] after [A]; no groups *)
Definition chain : Workflow :=
  mkWorkflow [plain_task "A" []; plain_task "B" ["A"]] [] ∅ ∅.

(** [A] triggers the group [G]; [B] waits for a name that is no task *)
Definition misspelled : Workflow :=
  mkWorkflow [plain_task "A" []; plain_task "B" ["missing"]]
             [group_over "G" "A.items"] ∅ ∅.

(** Two independent tasks, no groups *)
Definition pair : Workflow :=
  mkWorkflow [plain_task "A" []; plain_task "B" []] [] ∅ ∅.



Definition chain_rank (k : string) : nat := if String.eqb k "B" then 1 else 0.

(** A configuration template with a placeholder at the top level and one
    inside a nested mapping *)
Definition greeting : list (string * value) :=
  [("msg", VStr "hello ${item}"); ("retries", VInt 3);
   ("nested", VDict [("inner", VStr "${item}")])].

(** A registry that knows every type, and objects without output *)
Definition any_type (task_type n : string) (cfg : list (string * value)) : res Task :=
  Ok (mkTask n [] cfg ∅ []).

Definition no_output {A : Type} (x : A) : res value := Ok VNone.

(** A registry that builds a function task of the requested name *)
Definition any_function (func_name n : string) (cfg : option (list (string * value)))
  : res Task :=
  Ok (mkTask n [] (default [] cfg) ∅ []).

(** The text an error prints as *)
Definition error_text (e : option exn) : string :=
  match e with
  | Some (ValueError msg) | Some (Exception msg) => msg
  | Some (KeyError key) => key
  | Some TimeoutError => "timeout"
  | Some CancelledError => "cancelled"
  | None => "None"
  end.

(** A group object that exposes the attributes of its configuration *)
Definition for_each_of (grp : TaskGroup) : res string := Ok (for_each (config grp)).

Definition config_template_of (grp : TaskGroup) : res (list (string * value)) :=
  Ok (config_template (config grp)).

Definition type_of (grp : TaskGroup) : res string := Ok (type (config grp)).

Definition max_concurrent_of (grp : TaskGroup) : res Z :=
  Ok (Z.of_nat (max_concurrent (config grp))).

(** A batch whose coroutines finish in the order in which they started *)
Definition finish_in_order (l : list Task) : list Task := l.

(** The output of a task [t] that holds two items, and a result that holds
    it under the task's name *)
Definition two_items : value := VDict [("items", VList [VStr "a"; VStr "b"])].

Definition nested_result : TaskResult :=
  mkTaskResult true (VDict [("t", two_items)]) None.

(** A state in which [t] has completed with [two_items] *)
Definition after_t : run_state :=
  mkState single {["t" := mkTaskResult true two_items None]} {["t"]} [].

(** * Theorems *)

(** ** Strings *)

Lemma append_cons (c : ascii) (a b : string) : String c a +:+ b = String c (a +:+ b).
Proof. reflexivity. Qed.

Lemma prefix_iff (a s : string) :
  String.prefix a s = true ↔ ∃ b, s = a +:+ b.
Proof.
  revert s. induction a as [|c a IH]; intros s.
  - split; [intros _; by exists s | by destruct s].
  - destruct s as [|c' s]; cbn [String.prefix].
    + split; [done | intros [b Hb]; discriminate].
    + destruct (Ascii.ascii_dec c c') as [->|Hne].
      * rewrite IH. split; intros [b Hb]; exists b; rewrite append_cons in *; congruence.
      * split; [done | intros [b Hb]; rewrite append_cons in Hb; congruence].
Qed.

Lemma contains_iff (tok s : string) : contains tok s = true ↔ occurs tok s.
Proof.
  unfold occurs. induction s as [|c s IH]; cbn [contains].
  - rewrite orb_false_r, prefix_iff. split.
    + intros [b Hb]. by exists EmptyString, b.
    + intros (a & b & Hab). destruct a as [|c a]; [by exists b | done].
  - rewrite orb_true_iff, IH, prefix_iff. split.
    + intros [[b Hb] | (a & b & Hab)].
      * by exists EmptyString, b.
      * exists (String c a), b. rewrite append_cons. by f_equal.
    + intros (a & b & Hab). destruct a as [|c' a].
      * left. by exists b.
      * right. exists a, b. rewrite append_cons in Hab. congruence.
Qed.

Lemma replace_from_skip (old new a b : string) :
  replace_from old new (String.length a) (a +:+ b) = replace_from old new 0 b.
Proof.
  induction a as [|c a IH]; [by destruct b|].
  rewrite append_cons. cbn [String.length replace_from]. done.
Qed.

Lemma replace_token (old new b : string) :
  old ≠ EmptyString →
  replace old new (old +:+ b) = new +:+ replace old new b.
Proof.
  intros Hne. destruct old as [|c old]; [done|].
  unfold replace. rewrite append_cons. cbn [replace_from].
  assert (String.prefix (String c old) (String c (old +:+ b)) = true) as ->.
  { apply prefix_iff. by exists b. }
  f_equal. cbn [String.length]. rewrite Nat.sub_1_r. cbn [Nat.pred].
  apply replace_from_skip.
Qed.

Lemma replace_char (old new : string) c s :
  String.prefix old (String c s) = false →
  replace old new (String c s) = String c (replace old new s).
Proof. unfold replace. cbn [replace_from]. by intros ->. Qed.

Lemma replace_absent (old new s : string) :
  contains old s = false → replace old new s = s.
Proof.
  induction s as [|c s IH]; [done|].
  cbn [contains]. rewrite orb_false_iff. intros [Hp Hc].
  rewrite replace_char by done. by rewrite IH.
Qed.

Lemma append_length (a b : string) :
  String.length (a +:+ b) = String.length a + String.length b.
Proof. induction a as [|c a IH]; [done|]. rewrite append_cons. simpl. congruence. Qed.

Lemma replace_all_replaced (tok new s : string) :
  tok ≠ EmptyString → all_replaced tok new s (replace tok new s).
Proof.
  intros Hne.
  remember (String.length s) as n eqn:Hn.
  revert s Hn. induction (lt_wf n) as [n _ IH]; intros s ->.
  destruct s as [|c s]; [constructor|].
  destruct (String.prefix tok (String c s)) eqn:Hp.
  - apply prefix_iff in Hp as [b Hb]. rewrite Hb, replace_token by done.
    constructor. eapply IH; [|done].
    rewrite Hb, append_length. destruct tok; [done|]. simpl. lia.
  - rewrite replace_char by done. constructor.
    + rewrite <-prefix_iff. by rewrite Hp.
    + eapply IH; [|done]. simpl. lia.
Qed.

(** ** Dictionaries *)

Lemma dict_mem_iff {V} (k : string) (d : list (string * V)) :
  dict_mem k d = true ↔ k ∈ d.*1.
Proof.
  induction d as [|[k' v] d IH]; cbn [dict_mem fmap list_fmap fst].
  - split; [done | by intros ?%elem_of_nil].
  - rewrite orb_true_iff, IH, String.eqb_eq, elem_of_cons. intuition congruence.
Qed.

Lemma dict_mem_false {V} (k : string) (d : list (string * V)) :
  dict_mem k d = false ↔ k ∉ d.*1.
Proof. rewrite <-dict_mem_iff. by destruct (dict_mem k d). Qed.

Lemma dict_get_is_Some {V} (k : string) (d : list (string * V)) :
  is_Some (dict_get k d) ↔ k ∈ d.*1.
Proof.
  induction d as [|[k' v] d IH]; cbn [dict_get fmap list_fmap fst].
  - split; [by intros [? ?] | by intros ?%elem_of_nil].
  - rewrite elem_of_cons. destruct (String.eqb_spec k' k) as [->|Hne].
    + split; [by left | by eexists].
    + rewrite IH. intuition congruence.
Qed.

Lemma dict_set_fresh {V} (k : string) (v : V) (d : list (string * V)) :
  k ∉ d.*1 → dict_set k v d = d ++ [(k, v)].
Proof.
  induction d as [|[k' v'] d IH]; cbn [dict_set fmap list_fmap fst]; [done|].
  rewrite not_elem_of_cons. intros [Hne Hk].
  destruct (String.eqb_spec k' k) as [->|_]; [done|].
  by rewrite IH.
Qed.

Lemma dict_alter_keys {V} (f : V → V) (k : string) (d : list (string * V)) :
  (dict_alter f k d).*1 = d.*1.
Proof.
  induction d as [|[k' v'] d IH]; [done|]. cbn [dict_alter].
  destruct (String.eqb k' k); cbn [fmap list_fmap fst]; [done|].
  f_equal. apply IH.
Qed.

Lemma dict_get_alter {V} (f : V → V) (k k' : string) (d : list (string * V)) :
  dict_get k' (dict_alter f k d) =
  if decide (k = k') then f <$> dict_get k' d else dict_get k' d.
Proof.
  induction d as [|[k0 v0] d IH]; cbn [dict_alter dict_get].
  - by case_decide.
  - destruct (String.eqb_spec k0 k) as [->|Hne]; cbn [dict_get].
    + case_decide as Hk; subst.
      * by rewrite String.eqb_refl.
      * destruct (String.eqb_spec k k'); done.
    + destruct (String.eqb_spec k0 k') as [->|Hne']; [|done].
      by rewrite decide_False by done.
Qed.

(** ** Config templating *)

Lemma placeholder_nonempty : placeholder ≠ EmptyString.
Proof. done. Qed.

(** What one pass of the loop stores under a key that is not in [config] yet *)
Lemma render_entry_fresh (item : value) (config : list (string * value)) k v :
  k ∉ config.*1 →
  ∃ v', render_entry item config (k, v) = config ++ [(k, v')] ∧ rendered item v v'.
Proof.
  intros Hk. unfold render_entry. cbn [fst snd].
  destruct v as [| | |s| |];
    try (eexists; split; [by apply dict_set_fresh|]; apply rendered_copy; by intros ? [=]).
  destruct (contains placeholder s) eqn:Hc; (eexists; split; [by apply dict_set_fresh|]).
  - apply rendered_subst; [by apply contains_iff|].
    apply replace_all_replaced, placeholder_nonempty.
  - apply rendered_copy. intros s' [= <-]. rewrite <-contains_iff. by rewrite Hc.
Qed.

Lemma prepare_task_config_fold (item : value) (template acc : list (string * value)) :
  NoDup (acc.*1 ++ template.*1) →
  ∃ out, fold_left (render_entry item) template acc = acc ++ out
         ∧ Forall2 (λ kv kv', kv'.1 = kv.1 ∧ rendered item kv.2 kv'.2) template out.
Proof.
  revert acc. induction template as [|[k v] template IH]; intros acc Hnd.
  - exists []. by rewrite app_nil_r.
  - cbn [fold_left]. cbn [fmap list_fmap fst] in Hnd.
    destruct (render_entry_fresh item acc k v) as (v' & -> & Hv').
    { intros Hin. apply NoDup_app in Hnd as (_ & Hd & _). apply (Hd k Hin). by left. }
    destruct (IH (acc ++ [(k, v')])) as (out & -> & Hout).
    { rewrite fmap_app. cbn [fmap list_fmap fst]. by rewrite <-app_assoc. }
    exists ((k, v') :: out). split; [by rewrite <-app_assoc|].
    by constructor.
Qed.

(** C9: for every template mapping and item, config templating yields a
    mapping with the same keys, in the same order, in which a string value
    that contains the token has every occurrence of the token replaced by
    the string form of the item, and any other value, nested mappings and
    lists included, is the template's value unchanged. *)
Theorem prepare_task_config_rendered (template : list (string * value)) (item : value) :
  NoDup template.*1 →
  Forall2 (λ kv kv', kv'.1 = kv.1 ∧ rendered item kv.2 kv'.2)
    template (_prepare_task_config template item).
Proof.
  intros Hnd. unfold _prepare_task_config.
  by destruct (prepare_task_config_fold item template []) as (out & -> & H).
Qed.

(** ** Registration and lookup *)

(** C10: [add_task] and [create_task] raise a [ValueError] when a task of
    that name exists, [add_task_group] raises one when a group of that name
    exists, [get_task] raises one for a name that is no task and
    [get_task_output] for a name that is neither a task nor a group; in each
    of these cases the workflow, its task map and its group map, is left as
    it was. *)
Theorem name_errors_leave_workflow_unchanged (self : Workflow) :
  (∀ task, name task ∈ (tasks self).*1 →
     add_task task self =
       (self, Raise (ValueError
          ("Task with name " +:+ name task +:+ " already exists in workflow"))))
  ∧ (∀ task_type tname cfg, tname ∈ (tasks self).*1 →
     create_task task_type tname cfg self =
       (self, Raise (ValueError ("Task " +:+ tname +:+ " already exists"))))
  ∧ (∀ gname cfg, gname ∈ (task_groups self).*1 →
     add_task_group gname cfg self =
       (self, Raise (ValueError ("Task group " +:+ gname +:+ " already exists"))))
  ∧ (∀ tname, tname ∉ (tasks self).*1 →
     get_task tname self =
       (self, Raise (ValueError ("Task " +:+ tname +:+ " not found"))))
  ∧ (∀ tname, tname ∉ (tasks self).*1 → tname ∉ (task_groups self).*1 →
     get_task_output tname self =
       (self, Raise (ValueError ("Task or group " +:+ tname +:+ " not found")))).
Proof.
  repeat split.
  - intros task Hin. unfold add_task. by rewrite (proj2 (dict_mem_iff _ _) Hin).
  - intros task_type tname cfg Hin. unfold create_task.
    by rewrite (proj2 (dict_mem_iff _ _) Hin).
  - intros gname cfg Hin. unfold add_task_group.
    by rewrite (proj2 (dict_mem_iff _ _) Hin).
  - intros tname Hnin. unfold get_task.
    by rewrite (proj2 (dict_mem_false _ _) Hnin).
  - intros tname Hnt Hng. unfold get_task_output.
    by rewrite (proj2 (dict_mem_false _ _) Hnt), (proj2 (dict_mem_false _ _) Hng).
Qed.

(** ** Traces *)

Lemma results_of_snoc (tr : list event) (e : event) :
  results_of (tr ++ [e]) = results_step (results_of tr) e.
Proof. unfold results_of. by rewrite fold_left_app. Qed.

Lemma completed_of_snoc (tr : list event) (e : event) :
  completed_of (tr ++ [e]) = completed_step (completed_of tr) e.
Proof. unfold completed_of. by rewrite fold_left_app. Qed.

Lemma elem_of_completed_of (t : string) (tr : list event) :
  t ∈ completed_of tr ↔ EvCompleted t ∈ tr.
Proof.
  induction tr as [|e tr IH] using rev_ind.
  - unfold completed_of. cbn. rewrite elem_of_nil. set_solver.
  - rewrite completed_of_snoc, elem_of_app, list_elem_of_singleton.
    destruct e; cbn [completed_step]; rewrite ?elem_of_union, ?elem_of_singleton, IH;
      split; intros; destruct_or?; simplify_eq; auto.
Qed.

Lemma results_of_recorded (k : string) (r : TaskResult) (tr : list event) :
  results_of tr !! k = Some r → EvResult k r ∈ tr ∨ EvGroupResult k r ∈ tr.
Proof.
  induction tr as [|e tr IH] using rev_ind; [done|].
  rewrite results_of_snoc. setoid_rewrite elem_of_app.
  setoid_rewrite list_elem_of_singleton.
  destruct e; cbn [results_step]; try (intros ?%IH; tauto);
    (rewrite lookup_insert; case_decide; [intros [= ->]; subst; auto | intros ?%IH; tauto]).
Qed.

Lemma scheduled_app (k : string) (tr evs : list event) :
  scheduled k tr → scheduled k (tr ++ evs).
Proof. intros (names & ? & ?). exists names. rewrite elem_of_app. auto. Qed.

Lemma history_ok_nil (self : Workflow) : history_ok self [].
Proof. intros pre e post H. by destruct pre. Qed.

Lemma history_ok_snoc (self : Workflow) (tr : list event) (e : event) :
  history_ok self tr → event_ok self tr e → history_ok self (tr ++ [e]).
Proof.
  intros Htr He pre e' post Heq.
  destruct post as [|e'' post _] using rev_ind.
  - apply app_inj_tail in Heq as [-> ->]. done.
  - rewrite app_comm_cons, app_assoc in Heq.
    apply app_inj_tail in Heq as [-> _]. by eapply Htr.
Qed.

Lemma history_ok_elem (self : Workflow) (tr : list event) (e : event) :
  history_ok self tr → e ∈ tr →
  ∃ pre post, tr = pre ++ e :: post ∧ event_ok self pre e.
Proof.
  intros Htr (pre & post & ->)%list_elem_of_split. exists pre, post. split; [done|].
  by eapply Htr.
Qed.

(** ** Steps of a run keep the invariant *)

Lemma results_of_is_Some (k : string) (r : TaskResult) (tr : list event) :
  EvResult k r ∈ tr → is_Some (results_of tr !! k).
Proof.
  induction tr as [|e tr IH] using rev_ind; [by intros ?%elem_of_nil|].
  rewrite results_of_snoc, elem_of_app, list_elem_of_singleton.
  intros [Hin| <-].
  - destruct e; cbn [results_step]; auto;
      rewrite lookup_insert; case_decide; eauto.
  - cbn [results_step]. rewrite lookup_insert_eq. eauto.
Qed.

Lemma astep_inv (self : Workflow) (st st' : run_state) :
  inv self st → astep self st st' → inv self st'.
Proof.
  intros [Hk Hd Hg Hgr Hdt Hr Hc Hh] Hstep.
  destruct Hstep as [e st Hlog He|f k st Hf|k r st He|g r st He|k st He];
    constructor;
    cbn [workflow results completed_tasks trace emit alter_task set_result
         mark_completed set_tasks tasks task_groups wf_task_dependencies
         wf_task_dependents];
    try done;
    try (by apply history_ok_snoc).
  - rewrite results_of_snoc, <-Hr. by destruct e.
  - rewrite completed_of_snoc, <-Hc. by destruct e.
  - by rewrite dict_alter_keys.
  - intros k'. rewrite dict_get_alter, <-Hd. case_decide; [|done].
    destruct (dict_get k' (tasks (workflow st))) as [t|]; [|done].
    cbn. by rewrite Hf.
  - by rewrite results_of_snoc, <-Hr.
  - by rewrite completed_of_snoc, <-Hc.
  - by rewrite results_of_snoc, <-Hr.
  - by rewrite completed_of_snoc, <-Hc.
  - by rewrite results_of_snoc, <-Hr.
  - by rewrite completed_of_snoc, <-Hc.
Qed.

Lemma asteps_inv (self : Workflow) (st st' : run_state) :
  inv self st → rtc (astep self) st st' → inv self st'.
Proof. intros Hinv Hsteps. induction Hsteps; eauto using astep_inv. Qed.

(** ** Dependency graph *)

Lemma elem_of_set_of (x : string) (l : list string) : x ∈ set_of l ↔ x ∈ l.
Proof. apply elem_of_remove_dups. Qed.

Lemma NoDup_set_of (l : list string) : NoDup (set_of l).
Proof. apply NoDup_remove_dups. Qed.

Lemma graph_fold_other (l : list (string * Task)) g (k : string) :
  k ∉ l.*1 → (fold_left graph_step l g).1 !! k = g.1 !! k.
Proof.
  revert g. induction l as [|[k' t'] l IH]; intros g Hk; [done|].
  cbn [fmap list_fmap fst] in Hk. apply not_elem_of_cons in Hk as [Hne Hk].
  cbn [fold_left]. rewrite IH by done. cbn. by rewrite lookup_insert_ne.
Qed.

Lemma graph_fold_declared (l : list (string * Task)) g (k : string) ds :
  (fold_left graph_step l g).1 !! k = Some ds →
  g.1 !! k = Some ds ∨ ∃ t, (k, t) ∈ l ∧ ds = set_of (task_dependencies t).
Proof.
  revert g. induction l as [|[k' t'] l IH]; intros g; [auto|].
  cbn [fold_left]. intros [Hg|(t & Hin & ->)]%IH.
  - cbn in Hg. rewrite lookup_insert in Hg. case_decide; [|auto].
    simplify_eq. right. exists t'. split; [by left|done].
  - right. exists t. split; [by right|done].
Qed.

Lemma graph_fold_lookup (l : list (string * Task)) g (k : string) t :
  NoDup l.*1 → (k, t) ∈ l →
  (fold_left graph_step l g).1 !! k = Some (set_of (task_dependencies t)).
Proof.
  revert g. induction l as [|[k' t'] l IH]; intros g Hnd Hin; [by apply elem_of_nil in Hin|].
  cbn [fmap list_fmap fst] in Hnd. apply NoDup_cons in Hnd as [Hk' Hnd].
  cbn [fold_left]. apply elem_of_cons in Hin as [[= -> ->]|Hin]; [|by apply IH].
  rewrite graph_fold_other by done. cbn. by rewrite lookup_insert_eq.
Qed.

Lemma graph_deps_declared (self : Workflow) (k d : string) :
  d ∈ graph_deps self k → ∃ t, (k, t) ∈ tasks self ∧ d ∈ task_dependencies t.
Proof.
  unfold graph_deps, _build_dependency_graph. cbn [wf_task_dependencies].
  destruct (_ !! k) as [ds|] eqn:Hds; [|by intros ?%elem_of_nil].
  apply graph_fold_declared in Hds as [Hds|(t & Hin & ->)]; [done|].
  cbn. rewrite elem_of_set_of. eauto.
Qed.

Lemma graph_deps_lookup (self : Workflow) (k : string) (t : Task) :
  NoDup (tasks self).*1 → (k, t) ∈ tasks self →
  graph_deps self k = set_of (task_dependencies t).
Proof.
  intros Hnd Hin. unfold graph_deps, _build_dependency_graph. cbn [wf_task_dependencies].
  by rewrite (graph_fold_lookup _ _ _ t).
Qed.

(** ** Readiness selector *)

Lemma forallb_bool_decide (P : string → Prop) `{!∀ x, Decision (P x)} (l : list string) :
  forallb (λ x, bool_decide (P x)) l = true ↔ ∀ x, x ∈ l → P x.
Proof.
  induction l as [|x l IH]; cbn [forallb].
  - split; [by intros _ ? ?%elem_of_nil|done].
  - rewrite andb_true_iff, IH, bool_decide_eq_true. setoid_rewrite elem_of_cons.
    split; [intros [? ?] y [->|?]; auto | auto].
Qed.

Lemma elem_of_set_add (x y : string) (s : list string) :
  y ∈ set_add x s ↔ y = x ∨ y ∈ s.
Proof.
  unfold set_add. case_bool_decide.
  - split; [auto | intros [->|?]; done].
  - rewrite elem_of_app, list_elem_of_singleton. tauto.
Qed.

Lemma NoDup_set_add (x : string) (s : list string) : NoDup s → NoDup (set_add x s).
Proof.
  intros Hs. unfold set_add. case_bool_decide; [done|].
  apply NoDup_app. split_and!; [done| |apply NoDup_singleton].
  intros y Hy ->%list_elem_of_singleton. done.
Qed.

Lemma ready_fold (self : Workflow) (completed : gset string) (l acc : list string) :
  NoDup acc →
  NoDup (fold_left (ready_step self completed) l acc)
  ∧ ∀ k, k ∈ fold_left (ready_step self completed) l acc ↔
         k ∈ acc ∨ (k ∈ l ∧ (k ∉ completed)
                    ∧ ∀ d, d ∈ default [] (wf_task_dependencies self !! k) → d ∈ completed).
Proof.
  revert acc. induction l as [|x l IH]; intros acc Hacc.
  - split; [done|]. intros k. cbn [fold_left]. split; [auto|].
    intros [?|[?%elem_of_nil _]]; done.
  - cbn [fold_left].
    assert (NoDup (ready_step self completed acc x)) as Hnd.
    { unfold ready_step. repeat case_match; auto using NoDup_set_add. }
    destruct (IH _ Hnd) as [IH1 IH2]. split; [done|].
    intros k. rewrite IH2. setoid_rewrite elem_of_cons.
    unfold ready_step.
    destruct (bool_decide (x ∉ completed) && bool_decide (x ∉ acc)) eqn:Hb.
    + apply andb_true_iff in Hb as [Hc%bool_decide_eq_true Ha%bool_decide_eq_true].
      destruct (forallb _ _) eqn:Hf.
      * rewrite forallb_bool_decide in Hf. rewrite elem_of_set_add.
        split; [intros [[->|?]|?]; tauto | intros [?|[[->|?] ?]]; tauto].
      * assert (¬ ∀ d, d ∈ default [] (wf_task_dependencies self !! x) → d ∈ completed) as Hn.
        { rewrite <-forallb_bool_decide. intros H.
          assert (false = true) by (etrans; [symmetry; apply Hf | apply H]). done. }
        split; [tauto|]. intros [?|[[->|?] [? ?]]]; tauto.
    + split; [tauto|]. intros [?|[[->|?] [Hc ?]]]; [tauto| |tauto].
      apply andb_false_iff in Hb as [Hb|Hb]; apply bool_decide_eq_false in Hb.
      * by destruct Hb.
      * left. by apply dec_stable.
Qed.

Lemma NoDup_get_ready_tasks (self : Workflow) (completed : gset string) :
  NoDup (_get_ready_tasks self completed).
Proof. apply ready_fold, NoDup_nil_2. Qed.

Lemma elem_of_get_ready_tasks (self : Workflow) (completed : gset string) (k : string) :
  k ∈ _get_ready_tasks self completed ↔
  k ∈ (tasks self).*1 ∧ (k ∉ completed)
  ∧ ∀ d, d ∈ default [] (wf_task_dependencies self !! k) → d ∈ completed.
Proof.
  unfold _get_ready_tasks.
  destruct (ready_fold self completed (tasks self).*1 [] NoDup_nil_2) as [_ ->].
  split; [intros [?%elem_of_nil|?]; done | auto].
Qed.

(** ** One execution attempt *)

Hypothesis set_iter_perm : ∀ l, set_iter l ≡ₚ l.

Lemma elem_of_set_iter (x : string) (l : list string) : x ∈ set_iter l ↔ x ∈ l.
Proof using set_iter_perm. by rewrite set_iter_perm. Qed.

Lemma running_snoc (tr : list event) (e : event) :
  (∀ t, EvStopped t ∉ tr) → (∀ t, e ≠ EvStopped t) → ∀ t, EvStopped t ∉ tr ++ [e].
Proof.
  intros Htr He t [?|Heq%list_elem_of_singleton]%elem_of_app; [by eapply Htr|by eapply He].
Qed.

Lemma collect_outputs_lookup (m : gmap string TaskResult) (l : list string) outs :
  collect_outputs m l = Ok outs →
  ∀ d, outs !! d = if decide (d ∈ l) then output <$> (m !! d) else None.
Proof.
  revert outs. induction l as [|prev l IH]; intros outs; cbn [collect_outputs].
  - intros [= <-] d. rewrite decide_False by apply not_elem_of_nil. done.
  - destruct (m !! prev) as [r|] eqn:Hr; [|done].
    destruct (collect_outputs m l) as [outs'|]; [|done].
    intros [= <-] d. rewrite lookup_insert. case_decide as Hd.
    + subst. rewrite decide_True by left. by rewrite Hr.
    + rewrite (IH _ eq_refl). apply decide_ext. rewrite elem_of_cons. naive_solver.
Qed.

Lemma astep_results (self : Workflow) (st st' : run_state) (d : string) :
  astep self st st' → is_Some (results st !! d) → is_Some (results st' !! d).
Proof.
  destruct 1; cbn [results emit alter_task set_result mark_completed]; try done;
    rewrite lookup_insert; case_decide; eauto.
Qed.

Lemma asteps_results (self : Workflow) (st st' : run_state) (d : string) :
  rtc (astep self) st st' → is_Some (results st !! d) → is_Some (results st' !! d).
Proof. induction 1; eauto using astep_results. Qed.

Lemma collect_outputs_Ok (m : gmap string TaskResult) (l : list string) :
  (∀ d, d ∈ l → is_Some (m !! d)) → ∃ outs, collect_outputs m l = Ok outs.
Proof.
  induction l as [|prev l IH]; intros Hl; cbn [collect_outputs]; [by eexists|].
  destruct (Hl prev) as [r ->]; [by left|].
  destruct IH as [outs ->]; [|by eexists]. intros d Hd. apply Hl. by right.
Qed.

Lemma graph_fold_is_Some (l : list (string * Task)) g (k : string) :
  k ∈ l.*1 ∨ is_Some (g.1 !! k) → is_Some ((fold_left graph_step l g).1 !! k).
Proof.
  revert g. induction l as [|[k' t'] l IH]; intros g.
  - by intros [?%elem_of_nil|?].
  - cbn [fold_left fmap list_fmap fst]. rewrite elem_of_cons. intros Hk. apply IH.
    cbn. rewrite lookup_insert. case_decide; [eauto|]. naive_solver.
Qed.

Lemma graph_is_Some (self : Workflow) (k : string) :
  k ∈ (tasks self).*1 →
  is_Some (wf_task_dependencies (_build_dependency_graph self) !! k).
Proof. intros Hk. apply graph_fold_is_Some. by left. Qed.

Lemma execute_task_steps (self : Workflow) (k : string) (st : run_state) :
  inv self st → (∀ t, EvStopped t ∉ trace st) → scheduled k (trace st) →
  k ∈ (tasks self).*1 →
  (∀ d, d ∈ graph_deps self k → is_Some (results st !! d)) →
  rtc (astep self) st (_execute_task k st).1
  ∧ ∃ evs, trace (_execute_task k st).1 = trace st ++ evs
           ∧ Forall (exec_event k (_execute_task k st).2) evs
           ∧ (∃ task, EvDispatch k task ∈ evs
                      ∧ (_execute_task k st).2 = execute_with_timeout task)
           ∧ ∀ r, (_execute_task k st).2 = Ok r → EvResult k r ∈ evs.
Proof using set_iter_perm.
  intros Hinv Hrun Hsch Hk Hrec. unfold _execute_task.
  destruct (proj2 (dict_get_is_Some k (tasks (workflow st)))) as [task Htask].
  { by rewrite (inv_keys _ _ Hinv). }
  unfold subscript. rewrite Htask.
  destruct (graph_is_Some self k Hk) as [deps Hdeps].
  rewrite (inv_graph _ _ Hinv), Hdeps.
  assert (graph_deps self k = deps) as Hgd by (unfold graph_deps; by rewrite Hdeps).
  destruct (collect_outputs_Ok (results st) (set_iter deps)) as [outs Houts].
  { intros d Hd. apply Hrec. rewrite Hgd. by apply elem_of_set_iter. }
  rewrite Houts.
  set (task' := inject outs (set_iter deps) task).
  set (st1 := alter_task (inject outs (set_iter deps)) k st).
  set (st2 := emit (EvDispatch k task') st1).
  assert (astep self st st1) as H1 by (by apply astep_alter).
  assert (astep self st1 st2) as H2.
  { apply astep_log; [done|]. split; [done|]. split_and!; [done| |].
    - cbn. by rewrite set_iter_perm, Hgd.
    - intros d. change (dependency_outputs task') with outs.
      change (trace st1) with (trace st).
      rewrite (collect_outputs_lookup _ _ _ Houts), <-(inv_results _ _ Hinv), Hgd.
      apply decide_ext, elem_of_set_iter. }
  assert (∀ t, EvStopped t ∉ trace st2) as Hrun2 by (by apply running_snoc).
  destruct (execute_with_timeout task') as [result|e] eqn:Hexec.
  2:{ split; [by do 2 (eapply rtc_l; [done|])|].
      exists [EvDispatch k task']. split_and!; [done|by repeat constructor| |done].
      exists task'. split; [by left|done]. }
  set (st3 := emit (EvResult k result) (set_result k result st2)).
  assert (astep self st2 st3) as H3.
  { apply astep_result. split; [done|]. split; [by apply scheduled_app|].
    left. exists task'. split; [|done]. apply elem_of_app. right. by left. }
  destruct (success result).
  - split; [by do 3 (eapply rtc_l; [done|])|].
    exists [EvDispatch k task'; EvResult k result]. cbn. rewrite <-app_assoc.
    split_and!; [done|by repeat constructor| |].
    + exists task'. split; [by left|done].
    + intros r [= <-]. set_solver.
  - split.
    + do 3 (eapply rtc_l; [done|]). apply rtc_once, astep_log; [done|].
      split; [|done]. by apply running_snoc.
    + exists [EvDispatch k task'; EvResult k result; EvTaskFailed k (error_type result)].
      cbn. rewrite <-!app_assoc.
      split_and!; [done|by repeat constructor| |].
      * exists task'. split; [by left|done].
      * intros r [= <-]. set_solver.
Qed.

Lemma exec_event_running (k : string) (o : res TaskResult) (tr evs : list event) :
  (∀ t, EvStopped t ∉ tr) → Forall (exec_event k o) evs → ∀ t, EvStopped t ∉ tr ++ evs.
Proof.
  intros Htr Hevs t [?|Hin]%elem_of_app; [by eapply Htr|].
  rewrite Forall_forall in Hevs. by apply Hevs in Hin.
Qed.

(** ** A round's executions *)

Lemma gather_event_mono (pairs pairs' : list (string * res TaskResult)) (e : event) :
  pairs ⊆ pairs' → gather_event pairs e → gather_event pairs' e.
Proof. intros Hsub. destruct e; cbn; auto. Qed.

Lemma gather_steps (self : Workflow) (names : list string) (st : run_state) :
  inv self st → (∀ t, EvStopped t ∉ trace st) →
  (∀ k, k ∈ names →
     scheduled k (trace st) ∧ k ∈ (tasks self).*1
     ∧ ∀ d, d ∈ graph_deps self k → is_Some (results st !! d)) →
  rtc (astep self) st (gather names st).1
  ∧ length (gather names st).2 = length names
  ∧ ∃ evs, trace (gather names st).1 = trace st ++ evs
      ∧ Forall (gather_event (zip names (gather names st).2)) evs
      ∧ (∀ k o, (k, o) ∈ zip names (gather names st).2 →
           ∃ task, EvDispatch k task ∈ evs ∧ o = execute_with_timeout task)
      ∧ ∀ k r, (k, Ok r) ∈ zip names (gather names st).2 → EvResult k r ∈ evs.
Proof using set_iter_perm.
  revert st. induction names as [|k names IH]; intros st Hinv Hrun Hsch.
  - cbn. split_and!; [done..|]. exists []. rewrite app_nil_r.
    split_and!; [done|done| |]; by intros k r ?%elem_of_nil.
  - cbn [gather fst snd].
    destruct (Hsch k) as (Hsk & Hkk & Hdk); [by left|].
    destruct (execute_task_steps self k st)
      as (Hs1 & evs1 & Htr1 & Hev1 & Hd1 & Hok1); [done..|].
    destruct (IH (_execute_task k st).1)
      as (Hs2 & Hlen & evs2 & Htr2 & Hev2 & Hd2 & Hok2).
    { by eapply asteps_inv. }
    { rewrite Htr1. by eapply exec_event_running. }
    { intros k' Hk'. destruct (Hsch k') as (? & ? & Hd'); [by right|].
      split_and!; [rewrite Htr1; by apply scheduled_app|done|].
      intros d Hd. eapply asteps_results; [done|]. by apply Hd'. }
    split_and!.
    + by etrans.
    + cbn. by rewrite Hlen.
    + exists (evs1 ++ evs2). rewrite Htr2, Htr1, <-app_assoc. split; [done|].
      cbn [zip zip_with]. split_and!.
      * apply Forall_app. split.
        -- eapply Forall_impl; [done|]. intros e He.
           destruct e; cbn in *; try done; destruct He as [-> ->]; by left.
        -- eapply Forall_impl; [done|]. intros e. apply gather_event_mono.
           intros x Hx. by right.
      * intros k' o [[= -> ->]|Hin]%elem_of_cons.
        -- destruct Hd1 as (task & ? & ?). exists task. split; [|done].
           apply elem_of_app. by left.
        -- destruct (Hd2 k' o Hin) as (task & ? & ?). exists task. split; [|done].
           apply elem_of_app. by right.
      * intros k' r [[= -> Heq]|Hin]%elem_of_cons.
        -- apply elem_of_app. left. by apply Hok1.
        -- apply elem_of_app. right. by apply Hok2.
Qed.

(** ** Group expansion *)

Lemma publish_steps (self : Workflow) (g : string) (r : TaskResult) (st : run_state) :
  rtc (astep self) st (publish g r st) ∧ trace (publish g r st) = trace st.
Proof.
  unfold publish.
  generalize (set_iter (default [] (wf_task_dependents (workflow st) !! g))).
  intros l. revert st. induction l as [|k l IH]; intros st; [done|].
  cbn [fold_left]. destruct (dict_mem k (tasks (workflow st))).
  - destruct (IH (alter_task (push_output g (output r)) k st)) as [Hs Htr].
    split; [|done]. eapply rtc_l; [|done]. by apply astep_alter.
  - apply IH.
Qed.

Lemma expand_event_running (t' : string) (tr evs : list event) :
  (∀ t, EvStopped t ∉ tr) → Forall (expand_event t') evs → ∀ t, EvStopped t ∉ tr ++ evs.
Proof.
  intros Htr Hevs t [?|Hin]%elem_of_app; [by eapply Htr|].
  rewrite Forall_forall in Hevs. by apply Hevs in Hin.
Qed.

Lemma expand_group_steps (self : Workflow) (t g : string) (grp : TaskGroup)
    (st : run_state) :
  inv self st → (∀ t', EvStopped t' ∉ trace st) →
  t ∈ completed_tasks st → (g, grp) ∈ task_groups self →
  rtc (astep self) st (expand_group t (g, grp) st).1
  ∧ ∃ evs, trace (expand_group t (g, grp) st).1 = trace st ++ evs
      ∧ Forall (expand_event t) evs
      ∧ (triggers (for_each (config grp)) t = true → EvGroup g t ∈ evs)
      ∧ (triggers (for_each (config grp)) t = false →
         evs = [] ∧ (expand_group t (g, grp) st).2 = None)
      ∧ (∀ e, (expand_group t (g, grp) st).2 = Some e →
              last (trace (expand_group t (g, grp) st).1) = Some (EvGroup g t)).
Proof.
  intros Hinv Hrun Ht Hg.
  destruct (expand_group t (g, grp) st) as [st' oe] eqn:Heq.
  unfold expand_group in Heq. cbn [fst snd] in *.
  destruct (triggers (for_each (config grp)) t) eqn:Htrig.
  2:{ simplify_eq. split; [done|]. exists []. rewrite app_nil_r. by split_and!. }
  set (st1 := emit (EvGroup g t) st) in *.
  assert (astep self st st1) as H1.
  { apply astep_log; [done|]. split; [done|]. split; [|by eauto].
    by rewrite <-(inv_completed _ _ Hinv). }
  assert (∀ e, (st1, Some e) = (st', oe) →
    rtc (astep self) st st'
    ∧ ∃ evs, trace st' = trace st ++ evs
        ∧ Forall (expand_event t) evs
        ∧ (true = true → EvGroup g t ∈ evs)
        ∧ (true = false → evs = [] ∧ oe = None)
        ∧ (∀ e, oe = Some e → last (trace st') = Some (EvGroup g t))) as Hfail.
  { intros e [= <- <-]. split; [by apply rtc_once|]. exists [EvGroup g t].
    split_and!; [done|by repeat constructor|by intros; left|done|].
    intros _ _. apply last_snoc. }
  destruct (results st1 !! t) as [r|]; [|by eapply Hfail].
  destruct (walk (tail (split "." (for_each (config grp)))) (output r)) as [current|];
    [|by eapply Hfail].
  destruct current as [| | | |items|]; try by eapply Hfail.
  destruct (group_execute grp items) as [group_result|e]; [|by eapply Hfail].
  set (st2 := emit (EvGroupResult g group_result) (set_result g group_result st1)) in *.
  assert (astep self st1 st2) as H2.
  { apply astep_group_result. split; [by apply running_snoc|].
    exists t. apply elem_of_app. right. by left. }
  destruct (publish_steps self g group_result st2) as [H3 Htr3].
  injection Heq as <- <-.
  split; [by do 2 (eapply rtc_l; [done|])|].
  exists [EvGroup g t; EvGroupResult g group_result]. rewrite Htr3. cbn.
  rewrite <-app_assoc.
  split_and!; [done|by repeat constructor|by intros; left|done|done].
Qed.

Lemma expand_groups_steps (self : Workflow) (t : string) (gs : list (string * TaskGroup))
    (st : run_state) :
  inv self st → (∀ t', EvStopped t' ∉ trace st) →
  t ∈ completed_tasks st → gs ⊆ task_groups self →
  rtc (astep self) st (expand_groups t gs st).1
  ∧ ∃ evs, trace (expand_groups t gs st).1 = trace st ++ evs
      ∧ Forall (expand_event t) evs
      ∧ ((expand_groups t gs st).2 = None →
         ∀ g grp, (g, grp) ∈ gs → triggers (for_each (config grp)) t = true →
                  EvGroup g t ∈ evs)
      ∧ ((∀ g grp, (g, grp) ∈ gs → triggers (for_each (config grp)) t = false) →
         evs = [] ∧ (expand_groups t gs st).2 = None)
      ∧ (∀ e, (expand_groups t gs st).2 = Some e →
              ∃ g, last (trace (expand_groups t gs st).1) = Some (EvGroup g t)).
Proof.
  revert st. induction gs as [|[g grp] gs IH]; intros st Hinv Hrun Ht Hsub.
  - cbn. split; [done|]. exists []. rewrite app_nil_r.
    split_and!; [done|done| |done|done]. by intros _ g grp ?%elem_of_nil.
  - cbn [expand_groups].
    destruct (expand_group_steps self t g grp st)
      as (Hs1 & evs1 & Htr1 & Hev1 & Hyes1 & Hno1 & Herr1);
      [done|done|done|apply Hsub; by left|].
    destruct (expand_group t (g, grp) st) as [st1 [e|]] eqn:Heq; cbn [fst snd] in *.
    + split; [done|]. exists evs1. split_and!; [done|done|done| |by eauto].
      intros Hnone. destruct (Hno1 (Hnone g grp ltac:(by left))) as [_ ?]. done.
    + destruct (IH st1) as (Hs2 & evs2 & Htr2 & Hev2 & Hyes2 & Hno2 & Herr2).
      { by eapply asteps_inv. }
      { rewrite Htr1. by eapply expand_event_running. }
      { rewrite (inv_completed self st1), Htr1 by (by eapply asteps_inv).
        apply elem_of_completed_of, elem_of_app. left.
        apply elem_of_completed_of. by rewrite <-(inv_completed _ _ Hinv). }
      { intros x Hx. apply Hsub. by right. }
      split; [by etrans|]. exists (evs1 ++ evs2).
      split_and!; [by rewrite Htr2, Htr1, <-app_assoc|by apply Forall_app| | |done].
      * intros Hnone g' grp' [[= -> ->]|Hin]%elem_of_cons Htrig.
        -- apply elem_of_app. left. by apply Hyes1.
        -- apply elem_of_app. right. by eapply (Hyes2 Hnone g' grp').
      * intros Hnone. destruct (Hno1 (Hnone g grp ltac:(by left))) as [-> _].
        rewrite app_nil_l. apply Hno2. intros g' grp' Hin. apply (Hnone g' grp'). by right.
Qed.

(** ** Processing a round's results *)

Lemma completed_of_app (tr evs : list event) :
  Forall (λ e, ∀ k, e ≠ EvCompleted k) evs → completed_of (tr ++ evs) = completed_of tr.
Proof.
  induction evs as [|e evs IH] using rev_ind; [by rewrite app_nil_r|].
  intros [Hevs He]%Forall_app. rewrite app_assoc, completed_of_snoc, IH by done.
  rewrite Forall_singleton in He. destruct e; try done. by destruct (He task_name).
Qed.

Lemma expand_event_completed (t : string) (tr evs : list event) :
  Forall (expand_event t) evs → completed_of (tr ++ evs) = completed_of tr.
Proof.
  intros Hevs. apply completed_of_app. eapply Forall_impl; [done|].
  intros e He k ->. done.
Qed.

Lemma group_event_completed (self : Workflow) (st : run_state) (g t : string) :
  inv self st → EvGroup g t ∈ trace st → t ∈ completed_tasks st.
Proof.
  intros Hinv Hin.
  destruct (history_ok_elem self _ _ (inv_history _ _ Hinv) Hin)
    as (pre & post & Heq & _ & Hc & _).
  rewrite (inv_completed _ _ Hinv), Heq.
  apply elem_of_completed_of, elem_of_app. left. by apply elem_of_completed_of.
Qed.

Lemma process_event_expand (t : string) (e : event) : expand_event t e → process_event e.
Proof. by destruct e. Qed.

Lemma record_exception_steps (self : Workflow) (k : string) (result : res TaskResult)
    (st : run_state) :
  inv self st → (∀ t, EvStopped t ∉ trace st) → scheduled k (trace st) →
  (∃ task, EvDispatch k task ∈ trace st ∧ result = execute_with_timeout task) →
  let st1 := match result with
             | Raise e =>
                 if is_Exception e then
                   emit (EvResult k (failed_result e))
                     (set_result k (failed_result e) (emit (EvTaskError k e) st))
                 else st
             | Ok _ => st
             end in
  let evs := match result with
             | Raise e =>
                 if is_Exception e
                 then [EvTaskError k e; EvResult k (failed_result e)]
                 else []
             | Ok _ => []
             end in
  rtc (astep self) st st1
  ∧ trace st1 = trace st ++ evs
  ∧ completed_tasks st1 = completed_tasks st
  ∧ Forall process_event evs
  ∧ (∀ t, EvStopped t ∉ evs) ∧ (∀ g t, EvGroup g t ∉ evs).
Proof.
  intros Hinv Hrun Hsch (task & Hdisp & Hexec).
  assert (rtc (astep self) st st ∧ trace st = trace st ++ []
          ∧ completed_tasks st = completed_tasks st
          ∧ Forall process_event []
          ∧ (∀ t, EvStopped t ∉ @nil event) ∧ (∀ g t, EvGroup g t ∉ @nil event)) as Hnone.
  { split_and!; [done|by rewrite app_nil_r|done|done| |]; intros; apply not_elem_of_nil. }
  destruct result as [r|e]; cbn zeta; [done|].
  destruct (is_Exception e); [|done].
  split_and!.
  - apply (rtc_l _ _ (emit (EvTaskError k e) st)).
    { apply astep_log; [done|]. split; [done|]. by exists task. }
    apply rtc_once, astep_result.
    split; [by apply running_snoc|]. split; [by apply scheduled_app|].
    right. exists e. split; [|done]. apply elem_of_app. right. by left.
  - cbn. by rewrite <-app_assoc.
  - done.
  - by repeat constructor.
  - set_solver.
  - set_solver.
Qed.

Lemma process_results_steps (self : Workflow) (pairs : list (string * res TaskResult))
    (st : run_state) :
  inv self st → (∀ t, EvStopped t ∉ trace st) → expanded self st →
  (∀ t, t ∈ completed_tasks st → is_Some (results st !! t)) →
  NoDup pairs.*1 →
  (∀ k, k ∈ pairs.*1 → scheduled k (trace st) ∧ k ∉ completed_tasks st) →
  (∀ k o, (k, o) ∈ pairs →
     ∃ task, EvDispatch k task ∈ trace st ∧ o = execute_with_timeout task) →
  rtc (astep self) st (process_results pairs st).1
  ∧ (∃ evs, trace (process_results pairs st).1 = trace st ++ evs
            ∧ Forall process_event evs)
  ∧ match (process_results pairs st).2 with
    | Continue =>
        (∀ t, EvStopped t ∉ trace (process_results pairs st).1)
        ∧ expanded self (process_results pairs st).1
        ∧ (∀ t, t ∈ completed_tasks (process_results pairs st).1 →
             is_Some (results (process_results pairs st).1 !! t))
        ∧ completed_tasks (process_results pairs st).1
          = list_to_set pairs.*1 ∪ completed_tasks st
    | Return =>
        expanded self (process_results pairs st).1
        ∧ ∃ t r, last (trace (process_results pairs st).1) = Some (EvStopped t)
                 ∧ results (process_results pairs st).1 !! t = Some r
                 ∧ success r = false
    | Raised e =>
        raised_by_expansion (process_results pairs st).1
        ∨ raised_by_lookup (process_results pairs st).1 e
    end.
Proof.
  revert st. induction pairs as [|[k result] pairs IH];
    intros st Hinv Hrun Hexp Hrec Hnd Hsch Hdisp.
  { cbn. split; [done|]. split; [exists []; by rewrite app_nil_r|].
    split_and!; [done|done|done|set_solver]. }
  cbn [fmap list_fmap fst] in Hnd. apply NoDup_cons in Hnd as [Hk Hnd].
  destruct (Hsch k) as [Hsk Hck]; [by left|].
  destruct (record_exception_steps self k result st)
    as (Hs1 & Htr1 & Hc1 & Hpe1 & Hns1 & Hng1); [done|done|done| |].
  { apply Hdisp. by left. }
  cbn zeta in Hs1, Htr1, Hc1, Hpe1, Hns1, Hng1.
  destruct (process_results ((k, result) :: pairs) st) as [st' sig] eqn:Heq.
  cbn [process_results] in Heq. cbn [fst snd].
  set (st1 := match result with
              | Raise e =>
                  if is_Exception e then
                    emit (EvResult k (failed_result e))
                      (set_result k (failed_result e) (emit (EvTaskError k e) st))
                  else st
              | Ok _ => st
              end) in *.
  set (evs1 := match result with
               | Raise e =>
                   if is_Exception e
                   then [EvTaskError k e; EvResult k (failed_result e)]
                   else []
               | Ok _ => []
               end) in *.
  assert (inv self st1) as Hinv1 by (by eapply asteps_inv).
  assert (∀ t, EvStopped t ∉ trace st1) as Hrun1.
  { intros t. rewrite Htr1, elem_of_app. intros [?|?]; [by eapply Hrun|by eapply Hns1]. }
  set (st2 := emit (EvCompleted k) (mark_completed k st1)) in *.
  assert (astep self st1 st2) as Hs2.
  { apply astep_completed. split; [done|]. rewrite Htr1. by apply scheduled_app. }
  assert (inv self st2) as Hinv2 by (by eapply astep_inv).
  assert (∀ t, EvStopped t ∉ trace st2) as Hrun2 by (by apply running_snoc).
  assert (completed_tasks st2 = {[k]} ∪ completed_tasks st) as Hc2 by (cbn; by rewrite Hc1).
  assert (trace st2 = trace st ++ evs1 ++ [EvCompleted k]) as Htr2
    by (cbn; by rewrite Htr1, <-app_assoc).
  assert (Forall process_event (evs1 ++ [EvCompleted k])) as Hpe2
    by (apply Forall_app; split; [done|by repeat constructor]).
  change (results st2 !! k) with (results st1 !! k) in Heq.
  destruct (results st1 !! k) as [r|] eqn:Hr.
  2:{ (* no result under the task's name: the lookup raises *)
      injection Heq as <- <-.
      split; [by etrans; [|apply rtc_once]|].
      split; [exists (evs1 ++ [EvCompleted k]); by split|].
      right. exists k. split_and!; [apply last_snoc|done|done]. }
  destruct (success r) eqn:Hsucc; cbn [negb] in Heq.
  - (* the task succeeded: its groups are expanded, the loop goes on *)
    destruct (expand_groups_steps self k (task_groups (workflow st2)) st2)
      as (Hs3 & evs3 & Htr3 & Hev3 & Hyes3 & _ & Herr3); [done|done|set_solver| |].
    { by rewrite (inv_groups _ _ Hinv2). }
    destruct (expand_groups k (task_groups (workflow st2)) st2) as [st3 [e|]] eqn:Heq3;
      cbn [fst snd] in *.
    + injection Heq as <- <-.
      split; [by etrans; [|etrans; [apply rtc_once|]]|].
      split; [|by left; destruct (Herr3 e eq_refl) as [g ?]; exists g, k].
      exists (evs1 ++ [EvCompleted k] ++ evs3). split.
      * by rewrite Htr3, Htr2, <-!app_assoc.
      * rewrite app_assoc. apply Forall_app. split; [done|].
        eapply Forall_impl; [done|]. apply process_event_expand.
    + assert (inv self st3) as Hinv3 by (by eapply asteps_inv).
      assert (completed_tasks st3 = {[k]} ∪ completed_tasks st) as Hc3.
      { rewrite (inv_completed _ _ Hinv3), Htr3, (expand_event_completed k) by done.
        by rewrite <-(inv_completed _ _ Hinv2). }
      destruct (IH st3) as (Hs4 & (evs4 & Htr4 & Hev4) & Hpost).
      { done. }
      { rewrite Htr3. by eapply expand_event_running. }
      { intros t g grp Ht Hst Hg Htrig. rewrite Hc3 in Ht.
        apply elem_of_union in Ht as [->%elem_of_singleton|Ht].
        - rewrite Htr3. apply elem_of_app. right.
          eapply (Hyes3 eq_refl g grp); [|done]. by rewrite (inv_groups _ _ Hinv2).
        - rewrite Htr3, Htr2, !elem_of_app. do 2 left.
          apply (Hexp t g grp); [done|by apply Hrun|done|done]. }
      { intros t. rewrite Hc3. intros [->%elem_of_singleton|Ht]%elem_of_union.
        - eapply asteps_results; [exact Hs3|]. by exists r.
        - eapply asteps_results; [exact Hs3|]. eapply astep_results; [exact Hs2|].
          eapply asteps_results; [exact Hs1|]. by apply Hrec. }
      { done. }
      { intros k' Hk'. destruct (Hsch k') as [? ?]; [by right|]. split.
        - rewrite Htr3, Htr2. by do 2 apply scheduled_app.
        - rewrite Hc3. intros [->%elem_of_singleton|?]%elem_of_union; done. }
      { intros k' o' Hin. destruct (Hdisp k' o') as (task & ? & ?); [by right|].
        exists task. split; [|done]. rewrite Htr3, Htr2, !elem_of_app. by do 2 left. }
      rewrite Heq in Hpost, Hs4, Htr4. cbn [fst snd] in *.
      split; [by etrans; [|etrans; [apply rtc_once|etrans]]|].
      split.
      { exists (evs1 ++ [EvCompleted k] ++ evs3 ++ evs4). split.
        - by rewrite Htr4, Htr3, Htr2, <-!app_assoc.
        - rewrite app_assoc. apply Forall_app. split; [done|].
          apply Forall_app. split; [|done].
          eapply Forall_impl; [done|]. apply process_event_expand. }
      destruct sig; [|done|done].
      destruct Hpost as (Hp1 & Hp2 & Hp3 & Hp4). split_and!; [done|done|done|].
      rewrite Hp4, Hc3. cbn [fmap list_fmap fst]. set_solver.
  - (* the task failed: the workflow stops *)
    injection Heq as <- <-.
    assert (astep self st2 (emit (EvStopped k) st2)) as Hs3.
    { apply astep_log; [done|]. split; [done|]. split.
      - rewrite <-(inv_completed _ _ Hinv2), Hc2. set_solver.
      - intros g. rewrite Htr2, !elem_of_app.
        intros [Hin|[Hin|Hin%list_elem_of_singleton]]; [|by eapply Hng1|done].
        by apply Hck, (group_event_completed self st g). }
    split; [by etrans; [|etrans; apply rtc_once]|].
    split.
    { exists (evs1 ++ [EvCompleted k; EvStopped k]). split.
      - cbn. by rewrite Htr1, <-!app_assoc.
      - apply Forall_app. split; [done|by repeat constructor]. }
    split.
    + intros t g grp Ht Hst Hg Htrig. cbn [completed_tasks emit] in Ht. rewrite Hc2 in Ht.
      cbn [trace emit] in *.
      apply elem_of_union in Ht as [->%elem_of_singleton|Ht].
      * destruct Hst. apply elem_of_app. right. by left.
      * rewrite Htr2, !elem_of_app. do 2 left.
        apply (Hexp t g grp); [done|by apply Hrun|done|done].
    + exists k, r. split_and!; [apply last_snoc|done|done].
Qed.

(** ** One iteration of the loop *)

Lemma gather_event_quiet (pairs : list (string * res TaskResult)) (tr evs : list event) :
  Forall (gather_event pairs) evs →
  (∀ t, EvStopped t ∉ evs) ∧ completed_of (tr ++ evs) = completed_of tr.
Proof.
  intros Hevs. split.
  - intros t Hin. rewrite Forall_forall in Hevs. by apply Hevs in Hin.
  - apply completed_of_app. eapply Forall_impl; [done|]. by intros e He k ->.
Qed.

Lemma match_nil {A B} (l : list A) (a b : B) :
  match l with [] => a | _ :: _ => b end = if decide (l = []) then a else b.
Proof. by destruct l. Qed.

Lemma round_steps (self : Workflow) (st : run_state) :
  inv self st → head_inv self st →
  rtc (astep self) st (round st).1
  ∧ match (round st).2 with
    | Continue => progressed self st (round st).1
    | Return => ended self (round st).1 Return
    | Raised e => ended self (round st).1 (Raised e)
    end.
Proof using set_iter_perm.
  intros Hinv [Hrun Hexp Hrec].
  unfold round.
  set (ready := _get_ready_tasks (workflow st) (completed_tasks st)).
  assert (∀ k, k ∈ ready ↔
    k ∈ (tasks self).*1 ∧ (k ∉ completed_tasks st)
    ∧ ∀ d, d ∈ graph_deps self k → d ∈ completed_tasks st) as Hready.
  { intros k. subst ready. rewrite elem_of_get_ready_tasks.
    unfold graph_deps. by rewrite (inv_keys _ _ Hinv), (inv_graph _ _ Hinv). }
  set (names := filter (λ task_name, dict_mem task_name (tasks (workflow st)) = true)
                       (set_iter ready)).
  assert (∀ k, k ∈ names ↔ k ∈ ready) as Hnames.
  { intros k. subst names. rewrite list_elem_of_filter, elem_of_set_iter.
    split; [by intros [_ ?]|]. intros Hk. split; [|done].
    apply dict_mem_iff. rewrite (inv_keys _ _ Hinv). by apply Hready. }
  assert (NoDup names) as Hnd.
  { subst names. apply NoDup_filter. rewrite set_iter_perm.
    apply NoDup_get_ready_tasks. }
  assert (ready = [] → ended self st Return) as Hdrained.
  { intros Hempty. split_and!; [done|done|]. left. by split. }
  rewrite (match_nil ready). case_decide as Hr; [by split; [|apply Hdrained]|].
  clear Hdrained. cbn zeta. fold names.
  assert (names ≠ []) as Hne.
  { intros Hnil. destruct ready as [|k0 ready']; [done|].
    apply (not_elem_of_nil k0). rewrite <-Hnil. apply Hnames. by left. }
  rewrite (match_nil names). rewrite decide_False by done.
  set (st1 := emit (EvExecuting names) st).
  assert (astep self st st1) as Hs1.
  { apply astep_log; [done|]. split; [done|].
    intros k (Hk1 & Hk2 & Hk3)%Hnames%Hready.
    rewrite <-(inv_completed _ _ Hinv), <-(inv_results _ _ Hinv).
    split_and!; [done|done|]. intros d Hd. split; [by apply Hk3|by apply Hrec, Hk3]. }
  assert (inv self st1) as Hinv1 by (by eapply astep_inv).
  destruct (gather_steps self names st1)
    as (Hs2 & Hlen & evs2 & Htr2 & Hev2 & Hd2 & Hok2).
  { done. }
  { by apply running_snoc. }
  { intros k Hk. split_and!.
    - exists names. split; [|done]. apply elem_of_app. right. by left.
    - by apply Hready, Hnames.
    - intros d Hd. apply Hrec. by apply (Hready k); [apply Hnames|]. }
  set (stg := (gather names st1).1) in *.
  set (outs := (gather names st1).2) in *.
  assert (inv self stg) as Hinvg by (by eapply asteps_inv).
  destruct (gather_event_quiet _ (trace st1) _ Hev2) as [Hns2 Hc2].
  assert (completed_tasks stg = completed_tasks st) as Hcg.
  { rewrite (inv_completed _ _ Hinvg), Htr2, Hc2, <-(inv_completed _ _ Hinv1). done. }
  assert ((zip names outs).*1 = names) as Hfst by (apply fst_zip; lia).
  destruct (process_results_steps self (zip names outs) stg)
    as (Hs3 & (evs3 & Htr3 & Hev3) & Hpost).
  { done. }
  { intros t. rewrite Htr2, elem_of_app. intros [Hin|Hin]; [|by eapply Hns2].
    revert Hin. by apply running_snoc. }
  { intros t g grp Ht Hst Hg Htrig. rewrite Hcg in Ht.
    rewrite Htr2. cbn. rewrite !elem_of_app. do 2 left.
    apply (Hexp t g grp); [done|by apply Hrun|done|done]. }
  { intros t. rewrite Hcg. intros Ht. eapply asteps_results; [exact Hs2|].
    by apply Hrec. }
  { by rewrite Hfst. }
  { rewrite Hfst, Hcg. intros k Hk. split.
    - rewrite Htr2. apply scheduled_app. exists names. split; [|done].
      apply elem_of_app. right. by left.
    - by apply Hready, Hnames. }
  { intros k o Hin. destruct (Hd2 k o Hin) as (task & ? & ?). exists task.
    split; [|done]. rewrite Htr2. apply elem_of_app. by right. }
  split; [by etrans; [apply rtc_once|etrans]|].
  assert (inv self (process_results (zip names outs) stg).1) as Hinv3
    by (by eapply asteps_inv).
  destruct (process_results (zip names outs) stg) as [st3 sig]. cbn [fst snd] in *.
  destruct sig as [| |e].
  - destruct Hpost as (Hp1 & Hp2 & Hp3 & Hp4). split_and!; [done|by split|].
    exists names. split_and!; [done| |by rewrite Hp4, Hfst, Hcg].
    intros k Hk%Hnames%Hready. tauto.
  - destruct Hpost as (Hp1 & Hp2). split_and!; [done|done|by right].
  - by split.
Qed.

(** ** The loop and its end *)

Lemma size_list_to_set_le (l : list string) :
  (size (list_to_set l : gset string) ≤ length l)%nat.
Proof.
  induction l as [|x l IH]; cbn [list_to_set length]; [by rewrite size_empty|].
  rewrite size_union_alt, size_singleton.
  assert (size (list_to_set l ∖ {[x]} : gset string)
          ≤ size (list_to_set l : gset string))%nat
    by (apply subseteq_size; set_solver).
  lia.
Qed.

Lemma run_loop_ended (self : Workflow) (fuel : nat) (st : run_state) :
  inv self st → head_inv self st →
  (size ((list_to_set (tasks self).*1 : gset string) ∖ completed_tasks st) < fuel)%nat →
  ∃ st' sig, run_loop fuel st = Some (st', sig)
             ∧ rtc (astep self) st st' ∧ ended self st' sig.
Proof using set_iter_perm.
  revert st. induction fuel as [|fuel IH]; intros st Hinv Hhead Hsize; [lia|].
  cbn [run_loop]. destruct (round_steps self st Hinv Hhead) as [Hs Hpost].
  destruct (round st) as [st1 [| |e]]; cbn [fst snd] in *.
  - destruct Hpost as (Hinv1 & Hhead1 & names & Hne & Hnames & Hc).
    destruct (IH st1) as (st' & sig & Hrun & Hs' & Hend); [done|done| |].
    + destruct names as [|k names]; [done|].
      destruct (Hnames k) as [Hk1 Hk2]; [by left|].
      assert ((list_to_set (tasks self).*1 : gset string) ∖ completed_tasks st1
              ⊂ (list_to_set (tasks self).*1 : gset string) ∖ completed_tasks st) as Hsub.
      { rewrite Hc. apply strict_spec_alt. split; [set_solver|].
        intros Heq. assert (k ∈ (list_to_set (tasks self).*1 : gset string)
                                ∖ completed_tasks st) as Hin by set_solver.
        rewrite <-Heq in Hin. set_solver. }
      apply subset_size in Hsub. lia.
    + exists st', sig. split_and!; [done|by etrans|done].
  - by exists st1, Return.
  - by exists st1, (Raised e).
Qed.

Lemma initial_state_inv (self : Workflow) : inv self (initial_state self).
Proof.
  constructor; try done; apply history_ok_nil.
Qed.

Lemma initial_state_head (self : Workflow) : head_inv self (initial_state self).
Proof.
  constructor.
  - intros t. apply not_elem_of_nil.
  - intros t g grp Ht. by apply elem_of_empty in Ht.
  - intros t Ht. by apply elem_of_empty in Ht.
Qed.

(** [run] always ends: the fuel is never used up *)
Lemma run_terminates (self : Workflow) :
  ∃ st sig, run self = Some (st, sig) ∧ ended self st sig.
Proof using set_iter_perm.
  destruct (run_loop_ended self (S (length (tasks self))) (initial_state self))
    as (st & sig & Hrun & _ & Hend).
  - apply initial_state_inv.
  - apply initial_state_head.
  - cbn [completed_tasks initial_state].
    assert (size ((list_to_set (tasks self).*1 : gset string) ∖ ∅)
            ≤ size (list_to_set (tasks self).*1 : gset string))%nat as H1
      by (apply subseteq_size; set_solver).
    pose proof (size_list_to_set_le (tasks self).*1) as H2.
    rewrite length_fmap in H2. lia.
  - by exists st, sig.
Qed.

Lemma run_ended (self : Workflow) (st : run_state) (sig : signal) :
  run self = Some (st, sig) → ended self st sig.
Proof using set_iter_perm.
  intros Hrun. destruct (run_terminates self) as (st' & sig' & Hrun' & Hend).
  rewrite Hrun in Hrun'. by injection Hrun' as <- <-.
Qed.

(** ** What a trace tells *)

Lemma completed_of_mono (tr evs : list event) (t : string) :
  t ∈ completed_of tr → t ∈ completed_of (tr ++ evs).
Proof. rewrite !elem_of_completed_of, elem_of_app. auto. Qed.

Lemma results_of_mono (tr evs : list event) (k : string) :
  is_Some (results_of tr !! k) → is_Some (results_of (tr ++ evs) !! k).
Proof.
  induction evs as [|e evs IH] using rev_ind; [by rewrite app_nil_r|].
  intros Hk. rewrite app_assoc, results_of_snoc.
  destruct e; cbn [results_step]; auto; rewrite lookup_insert; case_decide; eauto.
Qed.

Lemma scheduled_ready (self : Workflow) (tr : list event) (k : string) :
  history_ok self tr → scheduled k tr →
  k ∈ (tasks self).*1 ∧ ∀ d, d ∈ graph_deps self k → d ∈ completed_of tr.
Proof.
  intros Htr (names & Hin & Hk).
  destruct (history_ok_elem self _ _ Htr Hin) as (pre & post & -> & _ & Hok).
  destruct (Hok k Hk) as (? & _ & Hd). split; [done|].
  intros d Hd'. by apply completed_of_mono, Hd.
Qed.

Lemma event_scheduled (self : Workflow) (tr : list event) (k : string) :
  history_ok self tr →
  (∃ task, EvDispatch k task ∈ tr) ∨ (∃ r, EvResult k r ∈ tr) ∨ k ∈ completed_of tr →
  scheduled k tr.
Proof.
  intros Htr [[task Hin]|[[r Hin]|Hin%elem_of_completed_of]];
    destruct (history_ok_elem self _ _ Htr Hin) as (pre & post & -> & _ & Hok);
    apply scheduled_app; first [exact Hok | by destruct Hok].
Qed.

Lemma triggers_iff (path t : string) :
  triggers path t = true ↔ t ∈ split "." path.
Proof.
  unfold triggers. generalize (split "." path). intros l.
  induction l as [|x l IH]; cbn [existsb].
  - split; [done|by intros ?%elem_of_nil].
  - rewrite orb_true_iff, IH, String.eqb_eq, elem_of_cons. intuition congruence.
Qed.

(** A task one of whose declared dependencies never completes is never
    part of a round, never attempted, never completed, and no result of its
    own is ever in [results]. *)
Lemma blocked_task (self : Workflow) (st : run_state) (sig : signal)
    (k d : string) (task : Task) :
  NoDup (tasks self).*1 → ended self st sig →
  (k, task) ∈ tasks self → d ∈ task_dependencies task → d ∉ completed_tasks st →
  ¬ scheduled k (trace st)
  ∧ (∀ task', EvDispatch k task' ∉ trace st)
  ∧ (k ∉ completed_tasks st)
  ∧ ∀ r, results st !! k = Some r → EvGroupResult k r ∈ trace st.
Proof.
  intros Hnd (Hinv & _) Hk Hd Hnc.
  pose proof (inv_history _ _ Hinv) as Htr.
  assert (¬ scheduled k (trace st)) as Hns.
  { intros Hs. destruct (scheduled_ready self _ _ Htr Hs) as [_ Hdeps].
    apply Hnc. rewrite (inv_completed _ _ Hinv). apply Hdeps.
    rewrite (graph_deps_lookup self k task) by done. by apply elem_of_set_of. }
  split_and!; [done| | |].
  - intros task' Hin. apply Hns, (event_scheduled self); eauto.
  - rewrite (inv_completed _ _ Hinv). intros Hin.
    apply Hns, (event_scheduled self); eauto.
  - intros r Hr. rewrite (inv_results _ _ Hinv) in Hr.
    apply results_of_recorded in Hr as [Hin|Hin]; [|done].
    destruct Hns. apply (event_scheduled self); eauto.
Qed.

(** Only tasks are ever marked completed *)
Lemma completed_are_tasks (self : Workflow) (st : run_state) (t : string) :
  inv self st → t ∈ completed_tasks st → t ∈ (tasks self).*1.
Proof.
  intros Hinv Ht. rewrite (inv_completed _ _ Hinv) in Ht.
  pose proof (inv_history _ _ Hinv) as Htr.
  eapply scheduled_ready; [done|]. apply (event_scheduled self); eauto.
Qed.


Lemma last_split {A : Type} (l : list A) (x : A) : last l = Some x → ∃ l', l = l' ++ [x].
Proof.
  destruct l as [|y l _] using rev_ind; [done|].
  rewrite last_snoc. intros [= ->]. by exists l.
Qed.

(** ** The ledger of a run *)

Lemma same_task_refl (l : list (string * Task)) : Forall2 same_task l l.
Proof. induction l; constructor; [by repeat split|done]. Qed.

Lemma same_task_trans (l1 l2 l3 : list (string * Task)) :
  Forall2 same_task l1 l2 → Forall2 same_task l2 l3 → Forall2 same_task l1 l3.
Proof.
  intros H12. revert l3. induction H12 as [|x y l1 l2 Hxy _ IH]; intros l3 H23.
  - by apply Forall2_nil_inv_l in H23 as ->.
  - apply Forall2_cons_inv_l in H23 as (z & l3' & Hyz & H23 & ->).
    constructor; [|by apply IH].
    destruct Hxy as (? & ? & ? & ?), Hyz as (? & ? & ? & ?).
    repeat split; congruence.
Qed.

Lemma same_task_alter (f : Task → Task) (k : string) (d : list (string * Task)) :
  (∀ t, name (f t) = name t ∧ task_dependencies (f t) = task_dependencies t
        ∧ task_config (f t) = task_config t) →
  Forall2 same_task d (dict_alter f k d).
Proof.
  intros Hf. induction d as [|[k0 t0] d IH]; cbn [dict_alter]; [constructor|].
  destruct (String.eqb k0 k).
  - constructor; [|apply same_task_refl]. destruct (Hf t0) as (? & ? & ?). by repeat split.
  - constructor; [by repeat split|done].
Qed.

Lemma extends_refl (st : run_state) : extends st st [].
Proof. constructor; try done; [by rewrite app_nil_r|apply same_task_refl]. Qed.

Lemma extends_trans (st st1 st2 : run_state) (evs1 evs2 : list event) :
  extends st st1 evs1 → extends st1 st2 evs2 → extends st st2 (evs1 ++ evs2).
Proof.
  intros [] []. constructor; rewrite ?fold_left_app; try congruence.
  - rewrite app_assoc. congruence.
  - by eapply same_task_trans.
Qed.

Lemma extends_emit (e : event) (st : run_state) : log_only e → extends st (emit e st) [e].
Proof.
  intros He. constructor; try done; [by destruct e..|apply same_task_refl].
Qed.

Lemma extends_result (k : string) (r : TaskResult) (st : run_state) :
  extends st (emit (EvResult k r) (set_result k r st)) [EvResult k r].
Proof. constructor; try done. apply same_task_refl. Qed.

Lemma extends_group_result (g : string) (r : TaskResult) (st : run_state) :
  extends st (emit (EvGroupResult g r) (set_result g r st)) [EvGroupResult g r].
Proof. constructor; try done. apply same_task_refl. Qed.

Lemma extends_completed (k : string) (st : run_state) :
  extends st (emit (EvCompleted k) (mark_completed k st)) [EvCompleted k].
Proof. constructor; try done. apply same_task_refl. Qed.

Lemma extends_alter (f : Task → Task) (k : string) (st : run_state) :
  (∀ t, name (f t) = name t ∧ task_dependencies (f t) = task_dependencies t
        ∧ task_config (f t) = task_config t) →
  extends st (alter_task f k st) [].
Proof.
  intros Hf. constructor; try done; [by rewrite app_nil_r|]. by apply same_task_alter.
Qed.

Lemma dispatched_app (tr evs : list event) :
  dispatched (tr ++ evs) = dispatched tr ++ dispatched evs.
Proof. unfold dispatched, attempts. by rewrite omap_app, fmap_app. Qed.

Lemma elem_of_dispatched (k : string) (tr : list event) :
  k ∈ dispatched tr ↔ ∃ task, EvDispatch k task ∈ tr.
Proof.
  unfold dispatched, attempts. rewrite list_elem_of_fmap. split.
  - intros ([k' o] & -> & (e & He & Hf)%list_elem_of_omap).
    destruct e; try done. injection Hf as <- <-. by eexists.
  - intros (task & Hin). exists (k, dependency_order task). split; [done|].
    apply list_elem_of_omap. by exists (EvDispatch k task).
Qed.

(** The results and the completed set that events without a write leave alone *)
Lemma quiet_results (evs : list event) (m : gmap string TaskResult) (k : string) :
  is_Some (m !! k) → is_Some (fold_left results_step evs m !! k).
Proof.
  revert m. induction evs as [|e evs IH]; intros m Hk; [done|].
  cbn [fold_left]. apply IH.
  destruct e; cbn [results_step]; auto; rewrite lookup_insert; case_decide; eauto.
Qed.

Lemma quiet_completed (evs : list event) (c : gset string) :
  Forall (λ e, ∀ k, e ≠ EvCompleted k) evs → fold_left completed_step evs c = c.
Proof.
  revert c. induction evs as [|e evs IH]; intros c Hevs; [done|].
  apply Forall_cons in Hevs as [He Hevs]. cbn [fold_left]. rewrite IH by done.
  destruct e; try done. by destruct (He task_name).
Qed.

(** ** The shape of a trace *)

Lemma event_shape_weaken (self : Workflow) (sig : signal) (pre : list event)
    (e : event) (post : list event) :
  event_shape self Continue pre e post → event_shape self sig pre e post.
Proof.
  destruct e; cbn [event_shape]; try done.
  - intros [H1 H2]. split; [done|].
    destruct (results_of pre !! task_name) as [r|].
    + destruct (success r); [done|]. by destruct H2.
    + by destruct H2 as (_ & ? & _).
  - by intros (? & _).
  - intros [H1 (grp & r & ? & ? & ? & H)]. split; [done|]. exists grp, r.
    split_and!; [done..|]. destruct (expansion_outcome grp r); [done|by destruct H].
Qed.

Lemma event_shape_stable (self : Workflow) (sig : signal) (pre : list event)
    (e : event) (post evs : list event) :
  event_shape self Continue pre e post → event_shape self sig pre e (post ++ evs).
Proof.
  destruct e; cbn [event_shape]; try done.
  - intros [? [post' ->]]. split; [done|]. by exists (post' ++ evs).
  - intros [H1 H2]. split; [done|].
    destruct (results_of pre !! task_name) as [r|].
    + destruct (success r); [done|]. by destruct H2.
    + by destruct H2 as (_ & ? & _).
  - by intros (? & _).
  - intros [H1 (grp & r & ? & ? & ? & H)]. split; [done|]. exists grp, r.
    split_and!; [done..|]. destruct (expansion_outcome grp r); [|by destruct H].
    destruct H as [post' ->]. by exists (post' ++ evs).
Qed.

Lemma block_nil (self : Workflow) (sig : signal) (tr : list event) : block self sig tr [].
Proof. intros pre e post Heq. by destruct pre. Qed.

Lemma block_cons (self : Workflow) (sig : signal) (tr : list event) (x : event)
    (l : list event) :
  event_shape self sig tr x l → block self sig (tr ++ [x]) l → block self sig tr (x :: l).
Proof.
  intros Hx Hl pre e post Heq. destruct pre as [|y pre]; cbn in Heq; injection Heq as -> ->.
  - by rewrite app_nil_r.
  - specialize (Hl pre e post eq_refl). by rewrite <-app_assoc in Hl.
Qed.

Lemma block_cons_inv (self : Workflow) (sig : signal) (tr : list event) (x : event)
    (l : list event) :
  block self sig tr (x :: l) → event_shape self sig tr x l ∧ block self sig (tr ++ [x]) l.
Proof.
  intros H. split.
  - specialize (H [] x l eq_refl). by rewrite app_nil_r in H.
  - intros pre e post ->. rewrite <-app_assoc. by apply (H (x :: pre)).
Qed.

Lemma block_app (self : Workflow) (sig : signal) (tr evs1 evs2 : list event) :
  block self Continue tr evs1 → block self sig (tr ++ evs1) evs2 →
  block self sig tr (evs1 ++ evs2).
Proof.
  revert tr. induction evs1 as [|x evs1 IH]; intros tr H1 H2.
  - by rewrite app_nil_r in H2.
  - apply block_cons_inv in H1 as [Hx H1]. cbn [app]. apply block_cons.
    + by apply event_shape_stable.
    + apply IH; [done|]. by rewrite <-app_assoc.
Qed.

Lemma shaped_app (self : Workflow) (sig : signal) (tr evs : list event) :
  shaped self Continue tr → block self sig tr evs → shaped self sig (tr ++ evs).
Proof. intros Htr Hevs. by apply (block_app self sig [] tr evs). Qed.

Lemma completions_app (tr evs : list event) :
  completions (tr ++ evs) = completions tr ++ completions evs.
Proof. unfold completions. by rewrite omap_app. Qed.

Lemma elem_of_completions (k : string) (tr : list event) :
  k ∈ completions tr ↔ EvCompleted k ∈ tr.
Proof.
  unfold completions. rewrite list_elem_of_omap. split.
  - intros (e & He & Hf). destruct e; try done. by injection Hf as <-.
  - intros Hin. by exists (EvCompleted k).
Qed.

Lemma quiet_completions (evs : list event) :
  Forall (λ e, ∀ k, e ≠ EvCompleted k) evs → completions evs = [].
Proof.
  induction 1 as [|e evs He _ IH]; [done|].
  change (e :: evs) with ([e] ++ evs). rewrite completions_app, IH, app_nil_r.
  destruct e; try done. by destruct (He task_name).
Qed.

(** The events of a round's executions have the shape of a run when the
    tasks of the round are not completed *)
Lemma gather_block (self : Workflow) (sig : signal)
    (pairs : list (string * res TaskResult)) (tr evs : list event) :
  Forall (gather_event pairs) evs → (∀ k, k ∈ pairs.*1 → k ∉ completed_of tr) →
  block self sig tr evs.
Proof.
  intros Hevs Hfresh pre e post ->.
  apply Forall_app in Hevs as [Hpre Hevs]. apply Forall_cons in Hevs as [He _].
  destruct e; try done. cbn in *.
  rewrite completed_of_app.
  - apply Hfresh, list_elem_of_fmap. by eexists (_, _).
  - eapply Forall_impl; [exact Hpre|]. by intros e He' k ->.
Qed.

(** ** One execution attempt, on its own *)

Lemma collect_outputs_KeyError (m : gmap string TaskResult) (l : list string) (e : exn) :
  collect_outputs m l = Raise e → ∃ d, e = KeyError d.
Proof.
  induction l as [|prev l IH]; cbn [collect_outputs]; [done|].
  destruct (m !! prev); [|intros [= <-]; by eexists].
  destruct (collect_outputs m l); [done|]. intros [= <-]. by apply IH.
Qed.

Lemma execute_task_extends (k : string) (st : run_state) :
  ∃ evs, extends st (_execute_task k st).1 evs
    ∧ Forall (exec_event k (_execute_task k st).2) evs
    ∧ (dispatched evs = [] ∨ dispatched evs = [k])
    ∧ (∀ task r, EvDispatch k task ∈ evs → execute_with_timeout task = Ok r →
         EvResult k r ∈ evs)
    ∧ (∀ r, (_execute_task k st).2 = Ok r →
         results (_execute_task k st).1 !! k = Some r)
    ∧ ((∃ task, EvDispatch k task ∈ evs
                ∧ (_execute_task k st).2 = execute_with_timeout task)
       ∨ ∃ key, (_execute_task k st).2 = Raise (KeyError key)).
Proof.
  unfold _execute_task.
  assert (∀ key, ∃ evs, extends st (st, Raise (KeyError key) : res TaskResult).1 evs
    ∧ Forall (exec_event k (st, Raise (KeyError key) : res TaskResult).2) evs
    ∧ (dispatched evs = [] ∨ dispatched evs = [k])
    ∧ (∀ task r, EvDispatch k task ∈ evs → execute_with_timeout task = Ok r →
         EvResult k r ∈ evs)
    ∧ (∀ r, (st, Raise (KeyError key) : res TaskResult).2 = Ok r →
         results (st, Raise (KeyError key) : res TaskResult).1 !! k = Some r)
    ∧ ((∃ task, EvDispatch k task ∈ evs
                ∧ (st, Raise (KeyError key) : res TaskResult).2
                  = execute_with_timeout task)
       ∨ ∃ key', (st, Raise (KeyError key) : res TaskResult).2 = Raise (KeyError key')))
    as Hnothing.
  { intros key. exists []. split_and!; [apply extends_refl|done|by left| |done|].
    - by intros task r ?%elem_of_nil.
    - right. by exists key. }
  unfold subscript. destruct (dict_get k (tasks (workflow st))) as [task|]; [|apply Hnothing].
  destruct (wf_task_dependencies (workflow st) !! k) as [deps|]; [|apply Hnothing].
  destruct (collect_outputs (results st) (set_iter deps)) as [outs|e] eqn:Hco.
  2:{ apply collect_outputs_KeyError in Hco as [d ->]. apply Hnothing. }
  clear Hnothing.
  set (task' := inject outs (set_iter deps) task).
  set (st1 := alter_task (inject outs (set_iter deps)) k st).
  set (st2 := emit (EvDispatch k task') st1).
  assert (extends st st2 [EvDispatch k task']) as H2.
  { apply (extends_trans _ st1 _ []); [by apply extends_alter|by apply extends_emit]. }
  destruct (execute_with_timeout task') as [result|e] eqn:Hexec.
  2:{ exists [EvDispatch k task'].
      split_and!; [done|by repeat constructor|by right| |done|].
      - intros task0 r [= ->]%list_elem_of_singleton. congruence.
      - left. exists task'. split; [by left|done]. }
  set (st3 := emit (EvResult k result) (set_result k result st2)).
  assert (extends st st3 [EvDispatch k task'; EvResult k result]) as H3.
  { apply (extends_trans _ st2 _ [_] [_]); [done|apply extends_result]. }
  assert (∀ evs, ∀ task0 r, EvDispatch k task0 ∈ EvDispatch k task' :: EvResult k result :: evs →
    (∀ task1, EvDispatch k task1 ∉ evs) →
    execute_with_timeout task0 = Ok r →
    EvResult k r ∈ EvDispatch k task' :: EvResult k result :: evs) as Hans.
  { intros evs task0 r [[= ->]|[[=]|Hin]%elem_of_cons]%elem_of_cons Hno Hr.
    - assert (r = result) as -> by congruence. right. by left.
    - by destruct (Hno task0). }
  destruct (success result).
  - exists [EvDispatch k task'; EvResult k result].
    split_and!; [done|by repeat constructor|by right| | |].
    + intros task0 r Hin. apply (Hans []); [done|]. intros ?. apply not_elem_of_nil.
    + intros r [= <-]. cbn. by rewrite lookup_insert_eq.
    + left. exists task'. split; [by left|done].
  - exists [EvDispatch k task'; EvResult k result; EvTaskFailed k (error_type result)].
    split_and!; [|by repeat constructor|by right| | |].
    + apply (extends_trans _ st3 _ [_; _] [_]); [done|by apply extends_emit].
    + intros task0 r Hin. apply (Hans [_]); [done|].
      by intros task1 [=]%list_elem_of_singleton.
    + intros r [= <-]. cbn. by rewrite lookup_insert_eq.
    + left. exists task'. split; [by left|done].
Qed.

(** ** A round's executions, on their own *)

Lemma gather_extends (names : list string) (st : run_state) :
  ∃ evs, extends st (gather names st).1 evs
    ∧ Forall (gather_event (zip names (gather names st).2)) evs
    ∧ dispatched evs `sublist_of` names
    ∧ (∀ k task r, EvDispatch k task ∈ evs → execute_with_timeout task = Ok r →
         EvResult k r ∈ evs)
    ∧ length (gather names st).2 = length names
    ∧ (∀ k r, (k, Ok r) ∈ zip names (gather names st).2 →
         is_Some (results (gather names st).1 !! k))
    ∧ (∀ k o, (k, o) ∈ zip names (gather names st).2 →
         (∃ task, EvDispatch k task ∈ evs ∧ o = execute_with_timeout task)
         ∨ ∃ key, o = Raise (KeyError key)).
Proof.
  revert st. induction names as [|k names IH]; intros st.
  - exists []. cbn. split_and!; [apply extends_refl|done|done| |done| |].
    + by intros k task r ?%elem_of_nil.
    + by intros k r ?%elem_of_nil.
    + by intros k o ?%elem_of_nil.
  - cbn [gather fst snd].
    destruct (execute_task_extends k st) as (evs1 & Hx1 & Hev1 & Hd1 & Ha1 & Hr1 & Ho1).
    destruct (IH (_execute_task k st).1)
      as (evs2 & Hx2 & Hev2 & Hd2 & Ha2 & Hlen & Hr2 & Ho2).
    exists (evs1 ++ evs2). split_and!.
    + by eapply extends_trans.
    + cbn [zip zip_with]. apply Forall_app. split.
      * eapply Forall_impl; [done|]. intros e He.
        destruct e; cbn in *; try done; destruct He as [-> ->]; by left.
      * eapply Forall_impl; [done|]. intros e. apply gather_event_mono.
        intros x Hx. by right.
    + rewrite dispatched_app. destruct Hd1 as [->| ->].
      * cbn. by apply sublist_cons.
      * cbn. by apply sublist_skip.
    + intros k' task r [Hin|Hin]%elem_of_app Hr; apply elem_of_app.
      * left. rewrite Forall_forall in Hev1. destruct (Hev1 _ Hin) as [-> _]. by eapply Ha1.
      * right. by eapply Ha2.
    + cbn. by rewrite Hlen.
    + cbn [zip zip_with]. intros k' r [[= -> Heq]|Hin]%elem_of_cons.
      * rewrite (ext_results _ _ _ Hx2). apply quiet_results.
        rewrite (Hr1 r) by done. by eexists.
      * by eapply Hr2.
    + cbn [zip zip_with]. intros k' o [[= -> ->]|Hin]%elem_of_cons.
      * destruct Ho1 as [(task & Hin & Heq)|[key Heq]]; [left|right; by exists key].
        exists task. split; [|done]. apply elem_of_app. by left.
      * destruct (Ho2 k' o Hin) as [(task & Hin' & Heq)|[key Heq]]; [left|right; by exists key].
        exists task. split; [|done]. apply elem_of_app. by right.
Qed.

(** ** Group expansion, on its own *)

Lemma publish_extends (g : string) (r : TaskResult) (st : run_state) :
  extends st (publish g r st) [].
Proof.
  unfold publish.
  generalize (set_iter (default [] (wf_task_dependents (workflow st) !! g))).
  intros l. revert st. induction l as [|k l IH]; intros st; [apply extends_refl|].
  cbn [fold_left]. destruct (dict_mem k (tasks (workflow st))); [|apply IH].
  apply (extends_trans _ (alter_task (push_output g (output r)) k st) _ [] []); [|apply IH].
  by apply extends_alter.
Qed.

Lemma extends_results_of (st st' : run_state) (evs : list event) :
  extends st st' evs → results st = results_of (trace st) →
  results st' = results_of (trace st').
Proof.
  intros Hx Hres. rewrite (ext_results _ _ _ Hx), (ext_trace _ _ _ Hx), Hres.
  unfold results_of. by rewrite fold_left_app.
Qed.

Lemma extends_completed_of (st st' : run_state) (evs : list event) :
  extends st st' evs → completed_tasks st = completed_of (trace st) →
  completed_tasks st' = completed_of (trace st').
Proof.
  intros Hx Hc. rewrite (ext_completed _ _ _ Hx), (ext_trace _ _ _ Hx), Hc.
  unfold completed_of. by rewrite fold_left_app.
Qed.

Lemma expand_group_extends (self : Workflow) (t : string) (g : string * TaskGroup)
    (st : run_state) :
  results st = results_of (trace st) → g ∈ task_groups self →
  is_Some (results st !! t) →
  (∃ before after, trace st = before ++ EvCompleted t :: after
                   ∧ Forall (expand_event t) after) →
  ∃ evs, extends st (expand_group t g st).1 evs ∧ Forall (expand_event t) evs
    ∧ block self (expansion_signal (expand_group t g st).2) (trace st) evs.
Proof.
  intros Hres Hg [r Hr] Hbefore. destruct g as [g grp].
  unfold expand_group. cbn [fst snd].
  destruct (triggers _ _) eqn:Htrig;
    [|exists []; split_and!; [apply extends_refl|done|apply block_nil]].
  set (st1 := emit (EvGroup g t) st).
  assert (extends st st1 [EvGroup g t]) as H1 by (by apply extends_emit).
  change (results st1 !! t) with (results st !! t). rewrite Hr.
  assert (∀ sig post,
    match expansion_outcome grp r with
    | Ok group_result => ∃ post', post = EvGroupResult g group_result :: post'
    | Raise err => post = [] ∧ sig = Raised err
    end → event_shape self sig (trace st) (EvGroup g t) post) as Hshape.
  { intros sig post Hout. split; [done|]. exists grp, r. by rewrite <-Hres. }
  assert (∀ err, expansion_outcome grp r = Raise err →
    ∃ evs, extends st st1 evs ∧ Forall (expand_event t) evs
      ∧ block self (Raised err) (trace st) evs) as Hfail.
  { intros err Hout. exists [EvGroup g t]. split_and!; [done|by repeat constructor|].
    apply block_cons; [|apply block_nil]. apply Hshape. by rewrite Hout. }
  unfold expansion_outcome in Hshape, Hfail. cbn zeta in Hshape, Hfail.
  destruct (walk _ _) as [current|]; [|by apply Hfail].
  destruct current as [| | | |items|]; try by apply Hfail.
  destruct (group_execute grp items) as [group_result|e]; [|by apply Hfail].
  exists [EvGroup g t; EvGroupResult g group_result]. split_and!; [|by repeat constructor|].
  - apply (extends_trans _ st1 _ [_] [_]); [done|].
    eapply (extends_trans _ _ _ [_] []); [apply extends_group_result|apply publish_extends].
  - cbn [expansion_signal]. apply block_cons; [apply Hshape; by eexists|].
    apply block_cons; [|apply block_nil]. by exists (trace st), t.
Qed.

Lemma expand_groups_extends (self : Workflow) (t : string)
    (gs : list (string * TaskGroup)) (st : run_state) :
  results st = results_of (trace st) → gs ⊆ task_groups self →
  is_Some (results st !! t) →
  (∃ before after, trace st = before ++ EvCompleted t :: after
                   ∧ Forall (expand_event t) after) →
  ∃ evs, extends st (expand_groups t gs st).1 evs ∧ Forall (expand_event t) evs
    ∧ block self (expansion_signal (expand_groups t gs st).2) (trace st) evs.
Proof.
  revert st. induction gs as [|g gs IH]; intros st Hres Hsub Hr Hbefore.
  - exists []. split_and!; [apply extends_refl|done|apply block_nil].
  - cbn [expand_groups].
    destruct (expand_group_extends self t g st) as (evs1 & Hx1 & Hev1 & Hb1);
      [done|apply Hsub; by left|done|done|].
    destruct (expand_group t g st) as [st1 [e|]]; cbn [fst snd] in *; [by exists evs1|].
    destruct (IH st1) as (evs2 & Hx2 & Hev2 & Hb2).
    { by eapply extends_results_of. }
    { intros x Hx. apply Hsub. by right. }
    { rewrite (ext_results _ _ _ Hx1). by apply quiet_results. }
    { destruct Hbefore as (before & after & Heq & Hafter).
      exists before, (after ++ evs1). split; [|by apply Forall_app].
      by rewrite (ext_trace _ _ _ Hx1), Heq, <-app_assoc. }
    exists (evs1 ++ evs2).
    split_and!; [by eapply extends_trans|by apply Forall_app|].
    apply block_app; [done|]. by rewrite <-(ext_trace _ _ _ Hx1).
Qed.

(** ** The success checks *)

Lemma answered_app (tr evs : list event) :
  answered tr → (∀ k task, EvDispatch k task ∉ evs) → answered (tr ++ evs).
Proof.
  intros Htr Hevs k task r [Hin|Hin]%elem_of_app Hr; [|by destruct (Hevs k task)].
  apply elem_of_app. left. by eapply Htr.
Qed.

(** The events of the conversion of an outcome, of the completion and of
    what follows make a block when the completion and what follows do *)
Lemma conversion_block (self : Workflow) (sig : signal) (tr : list event) (k : string)
    (result : res TaskResult) (rest : list event) :
  let evs1 := match result with
              | Raise e =>
                  if is_Exception e
                  then [EvTaskError k e; EvResult k (failed_result e)]
                  else []
              | Ok _ => []
              end in
  event_shape self sig (tr ++ evs1) (EvCompleted k) rest →
  block self sig ((tr ++ evs1) ++ [EvCompleted k]) rest →
  block self sig tr (evs1 ++ EvCompleted k :: rest).
Proof.
  intros evs1 Hc Hrest.
  assert (block self sig (tr ++ evs1) (EvCompleted k :: rest)) as Hb
    by (by apply block_cons).
  subst evs1. destruct result as [r|e]; [by rewrite app_nil_r in Hb|].
  destruct (is_Exception e) eqn:Hexc; [|by rewrite app_nil_r in Hb].
  cbn [app]. apply block_cons; [split; [done|by eexists]|].
  apply block_cons; [done|]. by rewrite <-app_assoc.
Qed.

Lemma lookup_unique {A : Type} (l : list (string * A)) (k : string) (x y : A) :
  NoDup l.*1 → (k, x) ∈ l → (k, y) ∈ l → x = y.
Proof.
  intros Hnd Hx Hy.
  pose proof (elem_of_list_to_map_1 (M := gmap string) l k x Hnd Hx) as H1.
  pose proof (elem_of_list_to_map_1 (M := gmap string) l k y Hnd Hy) as H2.
  congruence.
Qed.

Lemma process_results_extends (self : Workflow) (pairs : list (string * res TaskResult))
    (st : run_state) :
  results st = results_of (trace st) →
  task_groups (workflow st) = task_groups self →
  NoDup pairs.*1 →
  (∀ k r, (k, Ok r) ∈ pairs → is_Some (results st !! k)) →
  (∀ k o task, (k, o) ∈ pairs → EvDispatch k task ∈ trace st →
     o = execute_with_timeout task) →
  (∀ k err, (k, Raise err) ∈ pairs → is_Exception err = false →
     ∃ task, EvDispatch k task ∈ trace st ∧ execute_with_timeout task = Raise err) →
  ∃ evs, extends st (process_results pairs st).1 evs
    ∧ Forall process_event evs
    ∧ block self (process_results pairs st).2 (trace st) evs
    ∧ completions evs `sublist_of` pairs.*1
    ∧ ((process_results pairs st).2 = Continue →
       completed_tasks (process_results pairs st).1
       = list_to_set pairs.*1 ∪ completed_tasks st).
Proof.
  revert st. induction pairs as [|[k result] pairs IH];
    intros st Hres Hgroups Hnd Hok Hfrom Hbase.
  { exists []. cbn. split_and!; [apply extends_refl|done|apply block_nil|done|set_solver]. }
  cbn [fmap list_fmap fst] in Hnd. apply NoDup_cons in Hnd as [Hk Hnd].
  cbn [process_results].
  set (st1 := match result with
              | Raise e =>
                  if is_Exception e then
                    emit (EvResult k (failed_result e))
                      (set_result k (failed_result e) (emit (EvTaskError k e) st))
                  else st
              | Ok _ => st
              end).
  pose (evs1 := match result with
                | Raise e =>
                    if is_Exception e
                    then [EvTaskError k e; EvResult k (failed_result e)]
                    else []
                | Ok _ => []
                end).
  assert (extends st st1 evs1) as Hx1.
  { subst st1 evs1. destruct result as [r|e]; [apply extends_refl|].
    destruct (is_Exception e); [|apply extends_refl].
    eapply (extends_trans _ _ _ [_] [_]); [by apply extends_emit|apply extends_result]. }
  assert (Forall process_event evs1) as Hpe1
    by (subst evs1; destruct result as [|e]; [|destruct (is_Exception e)];
        by repeat constructor).
  assert (Forall (λ e, ∀ k, e ≠ EvCompleted k) evs1) as Hq1
    by (subst evs1; destruct result as [|e]; [|destruct (is_Exception e)];
        by repeat constructor).
  assert (∀ k' task, EvDispatch k' task ∉ evs1) as Hnd1.
  { intros k' task Hin. rewrite Forall_forall in Hpe1. by apply Hpe1 in Hin. }
  assert (results st1 = results_of (trace st1)) as Hres1
    by (by eapply extends_results_of).
  pose proof (ext_trace _ _ _ Hx1) as Htr1.
  set (st2 := emit (EvCompleted k) (mark_completed k st1)).
  assert (extends st st2 (evs1 ++ [EvCompleted k])) as Hx2.
  { eapply extends_trans; [done|apply extends_completed]. }
  assert (trace st2 = (trace st ++ evs1) ++ [EvCompleted k]) as Htr2
    by (cbn; by rewrite Htr1).
  (* the exception that the execution raised has just been recorded *)
  assert (∀ task err,
    EvDispatch k task ∈ trace st ++ evs1 → execute_with_timeout task = Raise err →
    is_Exception err = true →
    ∃ pre', trace st ++ evs1
            = pre' ++ [EvTaskError k err; EvResult k (failed_result err)]) as Hconv.
  { intros task err [Hin|Hin]%elem_of_app Hexec Hexc; [|by destruct (Hnd1 k task)].
    assert (result = Raise err) as Heq
      by (rewrite (Hfrom k result task), Hexec; [done|by left|done]).
    subst evs1. rewrite Heq, Hexc. by exists (trace st). }
  change (results st2 !! k) with (results st1 !! k).
  destruct (results st1 !! k) as [r|] eqn:Hr.
  2:{ (* no result under the task's name: the lookup raises *)
      exists (evs1 ++ [EvCompleted k]). cbn [fst snd].
      split_and!; [done|by apply Forall_app; split; [|repeat constructor]| | |done].
      - apply conversion_block; [|apply block_nil]. fold evs1.
        split; [done|]. rewrite <-Htr1, <-Hres1, Hr. split_and!; [done..|].
        destruct result as [r'|err].
        + destruct (Hok k r') as [r'' Hr'']; [by left|]. subst st1. congruence.
        + destruct (is_Exception err) eqn:Hexc.
          * subst st1. cbn in Hr. by rewrite lookup_insert_eq in Hr.
          * destruct (Hbase k err) as (task & Hin & Hexec); [by left|done|].
            exists task, err. split_and!; [|done..]. rewrite Htr1. apply elem_of_app. by left.
      - rewrite completions_app, (quiet_completions evs1) by done.
        cbn. apply sublist_skip, sublist_nil_l. }
  destruct (success r) eqn:Hsucc; cbn [negb fst snd].
  - (* a successful task: its groups are expanded, the loop goes on *)
    destruct (expand_groups_extends self k (task_groups (workflow st2)) st2)
      as (evs3 & Hx3 & Hev3 & Hb3).
    { by eapply extends_results_of. }
    { rewrite (ext_groups _ _ _ Hx2), Hgroups. done. }
    { change (results st2) with (results st1). by rewrite Hr. }
    { exists (trace st ++ evs1), []. by split. }
    assert (Forall (λ e, ∀ k, e ≠ EvCompleted k) evs3) as Hq3.
    { eapply Forall_impl; [exact Hev3|]. by intros e He k' ->. }
    assert (Forall process_event (evs1 ++ [EvCompleted k] ++ evs3)) as Hpe3.
    { repeat (apply Forall_app; split); [done|by repeat constructor|].
      eapply Forall_impl; [exact Hev3|]. apply process_event_expand. }
    assert (event_shape self Continue (trace st ++ evs1) (EvCompleted k) evs3) as Hc.
    { split; [done|]. by rewrite <-Htr1, <-Hres1, Hr, Hsucc. }
    assert (completions (evs1 ++ [EvCompleted k] ++ evs3) = [k]) as Hcs.
    { by rewrite !completions_app, (quiet_completions evs1), (quiet_completions evs3). }
    destruct (expand_groups k (task_groups (workflow st2)) st2) as [st3 [e|]] eqn:Heq3;
      cbn [fst snd expansion_signal] in *.
    + exists (evs1 ++ [EvCompleted k] ++ evs3). split_and!; [|done| | |done].
      * rewrite app_assoc. by eapply extends_trans.
      * rewrite Htr2 in Hb3. apply conversion_block; [by apply event_shape_weaken|done].
      * rewrite Hcs. apply sublist_skip, sublist_nil_l.
    + assert (extends st st3 (evs1 ++ [EvCompleted k] ++ evs3)) as Hx03.
      { rewrite app_assoc. by eapply extends_trans. }
      destruct (IH st3) as (evs4 & Hx4 & Hpe4 & Hb4 & Hcs4 & Hc4).
      { by eapply extends_results_of. }
      { by rewrite (ext_groups _ _ _ Hx03). }
      { done. }
      { intros k' r' Hin. rewrite (ext_results _ _ _ Hx03).
        apply quiet_results. apply (Hok k' r'). by right. }
      { intros k' o task Hin. rewrite (ext_trace _ _ _ Hx03), elem_of_app.
        intros [Hd|Hd]; [apply (Hfrom k' o task); [by right|done]|].
        rewrite Forall_forall in Hpe3. by apply Hpe3 in Hd. }
      { intros k' err Hin Hexc. destruct (Hbase k' err) as (task & Hd & Hexec);
          [by right|done|].
        exists task. split; [|done]. rewrite (ext_trace _ _ _ Hx03). apply elem_of_app.
        by left. }
      exists ((evs1 ++ [EvCompleted k] ++ evs3) ++ evs4). split_and!.
      * by eapply extends_trans.
      * by apply Forall_app.
      * apply block_app; [|by rewrite <-(ext_trace _ _ _ Hx03)].
        rewrite Htr2 in Hb3. by apply conversion_block.
      * rewrite completions_app, Hcs. cbn. by apply sublist_skip.
      * intros Hsig. rewrite (Hc4 Hsig).
        rewrite (ext_completed _ _ _ Hx3), (quiet_completed evs3) by done.
        cbn [completed_tasks emit mark_completed st2].
        rewrite (ext_completed _ _ _ Hx1), (quiet_completed evs1) by done.
        cbn [fmap list_fmap fst]. set_solver.
  - (* a failed task: the workflow stops *)
    exists (evs1 ++ [EvCompleted k; EvStopped k]). split_and!; [| | | |done].
    + change [EvCompleted k; EvStopped k] with ([EvCompleted k] ++ [EvStopped k]).
      rewrite app_assoc. eapply extends_trans; [done|by apply extends_emit].
    + apply Forall_app. split; [done|by repeat constructor].
    + apply conversion_block; fold evs1.
      * split; [done|]. by rewrite <-Htr1, <-Hres1, Hr, Hsucc.
      * apply block_cons; [|apply block_nil]. split_and!; [done..|].
        exists (trace st ++ evs1), r. by rewrite <-Htr1, <-Hres1.
    + rewrite completions_app, (quiet_completions evs1) by done.
      cbn. apply sublist_skip, sublist_nil_l.
Qed.

(** ** The ledger between iterations and at the end *)

Lemma process_event_quiet (evs : list event) :
  Forall process_event evs →
  dispatched evs = [] ∧ ∀ k task, EvDispatch k task ∉ evs.
Proof.
  intros Hevs. split.
  - induction Hevs as [|e evs He _ IH]; [done|]. by destruct e.
  - intros k task Hin. rewrite Forall_forall in Hevs. by apply Hevs in Hin.
Qed.

Lemma answered_extend (tr evs : list event) :
  answered tr →
  (∀ k task r, EvDispatch k task ∈ evs → execute_with_timeout task = Ok r →
     EvResult k r ∈ evs) →
  answered (tr ++ evs).
Proof.
  intros Htr Hevs k task r [Hin|Hin]%elem_of_app Hr; apply elem_of_app.
  - left. by eapply Htr.
  - right. by eapply Hevs.
Qed.

Lemma head_final (self : Workflow) (st : run_state) (sig : signal) :
  head_ledger self st → final_ledger self st sig.
Proof.
  intros [Hres Hc Hg Hsh Honce Hcs Hdone Hans]. split; [done| |done..].
  intros pre e post Heq. by apply event_shape_weaken, Hsh.
Qed.

Lemma round_ledger (self : Workflow) (st : run_state) :
  head_ledger self st →
  ∃ evs, extends st (round st).1 evs
    ∧ match (round st).2 with
      | Continue => head_ledger self (round st).1
      | sig => final_ledger self (round st).1 sig
      end.
Proof using set_iter_perm.
  intros Hhead. pose proof Hhead as [Hres Hcompl Hgroups Hshaped Honce Hcs Hdone Hans].
  unfold round.
  set (ready := _get_ready_tasks (workflow st) (completed_tasks st)).
  set (names := filter (λ task_name, dict_mem task_name (tasks (workflow st)) = true)
                       (set_iter ready)).
  rewrite (match_nil ready).
  case_decide; [exists []; split; [apply extends_refl|by apply head_final]|].
  cbn zeta. fold names. rewrite (match_nil names).
  case_decide; [exists []; split; [apply extends_refl|by apply head_final]|].
  assert (NoDup names) as Hnd.
  { subst names. apply NoDup_filter. rewrite set_iter_perm. apply NoDup_get_ready_tasks. }
  assert (∀ k, k ∈ names → k ∉ completed_tasks st) as Hfresh.
  { intros k [_ Hk]%list_elem_of_filter. rewrite elem_of_set_iter in Hk.
    by apply elem_of_get_ready_tasks in Hk as (_ & ? & _). }
  set (st1 := emit (EvExecuting names) st).
  assert (extends st st1 [EvExecuting names]) as Hx1 by (by apply extends_emit).
  destruct (gather_extends names st1)
    as (evs2 & Hx2 & Hev2 & Hd2 & Ha2 & Hlen & Hr2 & Ho2).
  set (stg := (gather names st1).1) in *.
  set (outs := (gather names st1).2) in *.
  assert (extends st stg ([EvExecuting names] ++ evs2)) as Hxg by (by eapply extends_trans).
  assert (Forall (λ e, ∀ k, e ≠ EvCompleted k) ([EvExecuting names] ++ evs2)) as Hqg.
  { apply Forall_app. split; [by repeat constructor|].
    eapply Forall_impl; [exact Hev2|]. by intros e He k ->. }
  assert ((zip names outs).*1 = names) as Hfst by (apply fst_zip; lia).
  assert (∀ k task, EvDispatch k task ∈ trace stg → k ∈ names →
            (k, execute_with_timeout task) ∈ zip names outs) as Hdisp.
  { intros k task. rewrite (ext_trace _ _ _ Hxg), !elem_of_app.
    intros [Hin|[Hin%list_elem_of_singleton|Hin]] Hk; [|done|].
    - destruct (Hfresh k Hk). apply Hdone, elem_of_dispatched. by exists task.
    - rewrite Forall_forall in Hev2. by apply Hev2 in Hin. }
  destruct (process_results_extends self (zip names outs) stg)
    as (evs3 & Hx3 & Hpe3 & Hb3 & Hcs3 & Hc3).
  { by eapply extends_results_of. }
  { by rewrite (ext_groups _ _ _ Hxg). }
  { by rewrite Hfst. }
  { done. }
  { intros k o task Hin Hd. apply (lookup_unique (zip names outs) k); [by rewrite Hfst|done|].
    apply Hdisp; [done|]. rewrite <-Hfst. apply list_elem_of_fmap. by exists (k, o). }
  { intros k err Hin Hexc. destruct (Ho2 k _ Hin) as [(task & Hd & Heq)|[key [=]]].
    - exists task. split; [|done]. rewrite (ext_trace _ _ _ Hx2). apply elem_of_app. by right.
    - by subst err. }
  destruct (process_event_quiet evs3 Hpe3) as [Hd3 Hno3].
  set (st3 := (process_results (zip names outs) stg).1) in *.
  assert (extends st st3 (([EvExecuting names] ++ evs2) ++ evs3)) as Hx
    by (by eapply extends_trans).
  exists (([EvExecuting names] ++ evs2) ++ evs3). split; [done|].
  assert (results st3 = results_of (trace st3)) as Hres3 by (by eapply extends_results_of).
  assert (completed_tasks st3 = completed_of (trace st3)) as Hcompl3
    by (by eapply extends_completed_of).
  assert (dispatched (trace st3) = dispatched (trace st) ++ dispatched evs2) as Hd.
  { rewrite (ext_trace _ _ _ Hx), !dispatched_app, Hd3. cbn. by rewrite app_nil_r. }
  assert (NoDup (dispatched (trace st3))) as Honce3.
  { rewrite Hd. apply NoDup_app. split_and!; [done| |by eapply sublist_NoDup].
    intros k Hk Hk2. apply (Hfresh k); [|by apply Hdone].
    by apply (sublist_subseteq _ _ Hd2). }
  assert (NoDup (completions (trace st3))) as Hcs'.
  { rewrite (ext_trace _ _ _ Hx), completions_app, completions_app.
    rewrite (quiet_completions _ Hqg), app_nil_l.
    rewrite Hfst in Hcs3.
    apply NoDup_app. split_and!; [done| |eapply sublist_NoDup; [exact Hnd|exact Hcs3]].
    intros k Hk Hk2. apply (Hfresh k); [by apply (sublist_subseteq _ _ Hcs3)|].
    rewrite Hcompl. by apply elem_of_completed_of, elem_of_completions. }
  assert (answered (trace st3)) as Hans3.
  { rewrite (ext_trace _ _ _ Hx), app_assoc. apply answered_app; [|done].
    apply answered_extend; [done|]. intros k task r [Hin|Hin]%elem_of_cons Hr; [done|].
    right. by eapply Ha2. }
  assert (shaped self (process_results (zip names outs) stg).2 (trace st3)) as Hsh3.
  { rewrite (ext_trace _ _ _ Hx). apply shaped_app; [done|].
    apply block_app; [|by rewrite <-(ext_trace _ _ _ Hxg)].
    apply block_cons; [done|].
    apply (gather_block self Continue (zip names outs)); [done|].
    rewrite Hfst. intros k Hk. rewrite completed_of_snoc. cbn. rewrite <-Hcompl.
    by apply Hfresh. }
  destruct (process_results (zip names outs) stg).2 eqn:Hsig; [|by split..].
  split; [done|done| |done|done|done| |done].
  - by rewrite (ext_groups _ _ _ Hx).
  - intros k. rewrite Hd, (Hc3 eq_refl), Hfst, elem_of_app.
    rewrite (ext_completed _ _ _ Hxg), (quiet_completed _ _ Hqg).
    intros [Hk|Hk]; [set_solver|]. apply (sublist_subseteq _ _ Hd2) in Hk. set_solver.
Qed.

Lemma run_loop_ledger (self : Workflow) (fuel : nat) (st st' : run_state) (sig : signal) :
  head_ledger self st → run_loop fuel st = Some (st', sig) →
  final_ledger self st' sig ∧ ∃ evs, extends st st' evs.
Proof using set_iter_perm.
  revert st. induction fuel as [|fuel IH]; intros st Hhead; [done|].
  cbn [run_loop]. destruct (round_ledger self st Hhead) as (evs & Hx & Hpost).
  destruct (round st) as [st1 [| |e]]; cbn [fst snd] in *.
  - intros Hrun. destruct (IH st1 Hpost Hrun) as [Hfinal [evs' Hx']].
    split; [done|]. exists (evs ++ evs'). by eapply extends_trans.
  - intros [= <- <-]. split; [done|by exists evs].
  - intros [= <- <-]. split; [done|by exists evs].
Qed.

Lemma initial_state_ledger (self : Workflow) : head_ledger self (initial_state self).
Proof.
  constructor; cbn; try done.
  - intros pre e post Heq. by destruct pre.
  - apply NoDup_nil_2.
  - apply NoDup_nil_2.
  - by intros k ?%elem_of_nil.
  - by intros k task r ?%elem_of_nil.
Qed.

Lemma run_ledger (self : Workflow) (st : run_state) (sig : signal) :
  run self = Some (st, sig) →
  final_ledger self st sig ∧ ∃ evs, extends (initial_state self) st evs.
Proof using set_iter_perm. apply run_loop_ledger, initial_state_ledger. Qed.

Lemma dispatched_once (tr : list event) (k : string) (task task' : Task) :
  NoDup (dispatched tr) → EvDispatch k task ∈ tr → EvDispatch k task' ∈ tr → task' = task.
Proof.
  induction tr as [|e tr IH]; [by intros _ ?%elem_of_nil|].
  change (e :: tr) with ([e] ++ tr). rewrite dispatched_app.
  intros Hnd [He%list_elem_of_singleton|Hin]%elem_of_app
             [He'%list_elem_of_singleton|Hin']%elem_of_app.
  - congruence.
  - subst e. cbn in Hnd. apply NoDup_cons in Hnd as [Hk _]. destruct Hk.
    apply elem_of_dispatched. by exists task'.
  - subst e. cbn in Hnd. apply NoDup_cons in Hnd as [Hk _]. destruct Hk.
    apply elem_of_dispatched. by exists task.
  - apply IH; [|done..]. by apply NoDup_app in Hnd as (_ & _ & ?).
Qed.

Lemma kept_result (self : Workflow) (st : run_state) (sig : signal) (k : string)
    (task : Task) (r : TaskResult) :
  inv self st → final_ledger self st sig →
  EvDispatch k task ∈ trace st → execute_with_timeout task = Ok r →
  k ∉ (task_groups self).*1 →
  results st !! k = Some r.
Proof.
  intros Hinv [Hres _ Honce _ Hans] Hin Hexec Hng.
  pose proof (inv_history _ _ Hinv) as Htr.
  destruct (results_of_is_Some k r (trace st)) as [r' Hr']; [by eapply Hans|].
  rewrite Hres, Hr'. f_equal.
  assert (∀ task', EvDispatch k task' ∈ trace st → task' = task) as Hsame.
  { intros task' Hin'. by eapply dispatched_once. }
  apply results_of_recorded in Hr' as [Hev|Hev];
    destruct (history_ok_elem self _ _ Htr Hev) as (pre & post & Heq & _ & Hok).
  - destruct Hok as [_ [(task' & Hd & Hx)|(e & He & ->)]].
    + rewrite (Hsame task') in Hx; [congruence|].
      rewrite Heq. apply elem_of_app. by left.
    + assert (EvTaskError k e ∈ trace st) as He'
        by (rewrite Heq; apply elem_of_app; by left).
      destruct (history_ok_elem self _ _ Htr He') as (pre' & post' & Heq' & _ & task' & Hd & Hx).
      rewrite (Hsame task') in Hx; [congruence|].
      rewrite Heq'. apply elem_of_app. by left.
  - destruct Hok as [t Hg].
    assert (EvGroup k t ∈ trace st) as Hg' by (rewrite Heq; apply elem_of_app; by left).
    destruct (history_ok_elem self _ _ Htr Hg') as (? & ? & _ & _ & _ & grp & Hgrp & _).
    destruct Hng. apply list_elem_of_fmap. by exists (k, grp).
Qed.

(** ** The claims about [run] *)

Lemma results_of_completed (tr : list event) (k : string) :
  results_of (tr ++ [EvCompleted k]) = results_of tr.
Proof. by rewrite results_of_snoc. Qed.

(** A name is marked completed once *)
Lemma completed_once (tr pre post pre' post' : list event) (t : string) :
  NoDup (completions tr) →
  tr = pre ++ EvCompleted t :: post → tr = pre' ++ EvCompleted t :: post' →
  pre = pre' ∧ post = post'.
Proof.
  intros Hnd -> Heq. revert pre' Hnd Heq.
  induction pre as [|e pre IH]; intros pre' Hnd Heq.
  - destruct pre' as [|e' pre']; cbn in Heq; [by injection Heq as ->|].
    injection Heq as <- ->. cbn in Hnd. apply NoDup_cons in Hnd as [Hnin _].
    destruct Hnin. apply elem_of_completions, elem_of_app. right. by left.
  - destruct pre' as [|e' pre']; cbn in Heq.
    + injection Heq as -> <-. cbn in Hnd. apply NoDup_cons in Hnd as [Hnin _].
      destruct Hnin. apply elem_of_completions, elem_of_app. right. by left.
    + injection Heq as <- Heq. destruct (IH pre') as [-> ->]; [|done|done].
      change ((e :: pre) ++ EvCompleted t :: post)
        with ([e] ++ (pre ++ EvCompleted t :: post)) in Hnd.
      rewrite (completions_app [e]) in Hnd. by apply NoDup_app in Hnd as (_ & _ & ?).
Qed.

(** A task that was marked completed has an entry in [results], unless the
    lookup of that entry is what [run] raised from *)
Lemma completed_recorded (self : Workflow) (st : run_state) (sig : signal) (k : string) :
  final_ledger self st sig → EvCompleted k ∈ trace st →
  is_Some (results st !! k)
  ∨ (sig = Raised (KeyError k) ∧ last (trace st) = Some (EvCompleted k)
     ∧ results st !! k = None).
Proof.
  intros [Hres Hsh _ _ _] (pre & post & Heq)%list_elem_of_split.
  destruct (Hsh pre _ post Heq) as [_ Hc].
  destruct (results_of pre !! k) as [r|] eqn:Hr.
  - left. rewrite Hres, Heq. apply results_of_mono. by rewrite Hr.
  - right. destruct Hc as (-> & -> & _). rewrite Hres, Heq.
    split_and!; [done|apply last_snoc|by rewrite results_of_completed].
Qed.

(** A group is expanded for a task after the task was marked completed
    with a successful result, and nothing but expansions for that task lie
    in between *)
Lemma expansion_after_completion (self : Workflow) (st : run_state) (sig : signal)
    (pre post : list event) (g t : string) :
  final_ledger self st sig → trace st = pre ++ EvGroup g t :: post →
  ∃ before after r, pre = before ++ EvCompleted t :: after
    ∧ Forall (expand_event t) after
    ∧ results_of before !! t = Some r ∧ success r = true.
Proof.
  intros [_ Hsh _ _ _] Heq.
  destruct (Hsh pre _ post Heq) as [(before & after & -> & Hafter) _].
  exists before, after.
  destruct (Hsh before (EvCompleted t) (after ++ EvGroup g t :: post)) as [_ Hc].
  { by rewrite Heq, <-app_assoc. }
  destruct (results_of before !! t) as [r|].
  - exists r. destruct (success r); [done|]. destruct Hc as [Hc _].
    by destruct after as [|? [|]].
  - destruct Hc as (Hc & _). by destruct after.
Qed.

Lemma expansion_follows_completion (self : Workflow) (st : run_state) (sig : signal)
    (before after : list event) (g t : string) :
  final_ledger self st sig → trace st = before ++ EvCompleted t :: after →
  EvGroup g t ∈ trace st → EvGroup g t ∈ after.
Proof.
  intros Hfinal Heq (pre & post & Heq')%list_elem_of_split.
  destruct (expansion_after_completion self st sig pre post g t)
    as (b & a & r & -> & _); [done..|].
  destruct (completed_once (trace st) before after b (a ++ EvGroup g t :: post) t)
    as [_ ->]; [apply (final_completions _ _ _ Hfinal)|done|by rewrite Heq', <-app_assoc|].
  apply elem_of_app. right. by left.
Qed.

(** The task at which the workflow stopped had a failed result when it was
    marked completed *)
Lemma stopped_failed (self : Workflow) (st : run_state) (sig : signal)
    (before after : list event) (t : string) :
  final_ledger self st sig → trace st = before ++ EvCompleted t :: after →
  EvStopped t ∈ trace st →
  after = [EvStopped t] ∧ ∃ r, results_of before !! t = Some r ∧ success r = false.
Proof.
  intros Hfinal Heq (pre & post & Heq')%list_elem_of_split.
  destruct (final_shaped _ _ _ Hfinal pre _ post Heq')
    as (_ & -> & pre' & r & -> & Hr & Hs).
  destruct (completed_once (trace st) before after pre' [EvStopped t] t) as [-> ->];
    [apply (final_completions _ _ _ Hfinal)|done|by rewrite Heq', <-app_assoc|].
  eauto.
Qed.

(** In a run that returns, every group that the completion of a task with
    a successful result triggers is expanded after that completion *)
Lemma expansions_follow (self : Workflow) (st : run_state)
    (before after : list event) (t g : string) (grp : TaskGroup) (r : TaskResult) :
  ended self st Return → final_ledger self st Return →
  trace st = before ++ EvCompleted t :: after →
  results_of before !! t = Some r → success r = true →
  (g, grp) ∈ task_groups self → triggers (for_each (config grp)) t = true →
  EvGroup g t ∈ after.
Proof.
  intros (Hinv & Hexp & _) Hfinal Heq Hr Hs Hg Htrig.
  apply (expansion_follows_completion self st Return before after); [done..|].
  apply (Hexp t g grp); [|  |done..].
  - rewrite (inv_completed _ _ Hinv), Heq.
    apply elem_of_completed_of, elem_of_app. right. by left.
  - intros Hst.
    destruct (stopped_failed self st Return before after t) as (_ & r' & Hr' & Hs');
      [done..|].
    congruence.
Qed.

Lemma head_triggers (path t : string) :
  head (split "." path) = Some t → triggers path t = true.
Proof.
  intros Hhead. apply triggers_iff. destruct (split "." path) as [|x l]; [done|].
  injection Hhead as ->. by left.
Qed.

(** Only a registered group has a result recorded under its name *)
Lemma group_result_is_group (self : Workflow) (tr : list event) (g : string)
    (r : TaskResult) :
  history_ok self tr → EvGroupResult g r ∈ tr → g ∈ (task_groups self).*1.
Proof.
  intros Htr Hev.
  destruct (history_ok_elem self _ _ Htr Hev) as (pre & post & Heq & _ & t & Hg).
  assert (EvGroup g t ∈ tr) as Hg' by (rewrite Heq; apply elem_of_app; by left).
  destruct (history_ok_elem self _ _ Htr Hg') as (? & ? & _ & _ & _ & grp & Hgrp & _).
  apply list_elem_of_fmap. by exists (g, grp).
Qed.


Lemma raised_origin (self : Workflow) (st : run_state) (e : exn) :
  ended self st (Raised e) → final_ledger self st (Raised e) → raise_origin self st e.
Proof.
  intros [Hinv [(g & t & Hlast)|(t & Hlast & Hnone & ->)]] Hfinal;
    apply last_split in Hlast as [pre Heq]; [left|right].
  - destruct (final_shaped _ _ _ Hfinal pre _ [] Heq)
      as [(before & after & -> & _) (grp & r & Hg & Htrig & Hr & Hout)].
    exists (before ++ EvCompleted t :: after), g, t, grp, r.
    split_and!; [done..|apply elem_of_app; right; by left|done|].
    destruct (expansion_outcome grp r) as [gr|err]; [by destruct Hout|].
    destruct Hout as [_ [= ->]]. done.
  - destruct (final_shaped _ _ _ Hfinal pre _ [] Heq) as [_ Hc].
    rewrite (final_results _ _ _ Hfinal), Heq, results_of_completed in Hnone.
    rewrite Hnone in Hc. destruct Hc as (_ & _ & task & err & ? & ? & ?).
    exists pre, t, task, err.
    rewrite (final_results _ _ _ Hfinal), Heq, results_of_completed. by split_and!.
Qed.



(** C7, amended: a task that declares a dependency name which is the name
    of no task is excluded from every round, is never executed or marked
    completed and has no result of its own in the result map, and this
    raises nothing: the run ends; when it raises, it does so out of the
    expansion of a group for another task, or at the lookup of the result of
    another task whose execution raised something that is no [Exception];
    without task groups and without such executions it returns normally. *)
Theorem unsatisfiable_dependency_is_silent (self : Workflow) (k d : string) (task : Task) :
  NoDup (tasks self).*1 →
  (k, task) ∈ tasks self → d ∈ task_dependencies task → d ∉ (tasks self).*1 →
  ∃ st sig,
    run self = Some (st, sig)
    ∧ match sig with
      | Continue => False
      | Return => drained st ∨ halted st
      | Raised e =>
          (∃ g t grp, last (trace st) = Some (EvGroup g t)
                      ∧ (g, grp) ∈ task_groups self ∧ t ≠ k)
          ∨ (∃ t task' err, last (trace st) = Some (EvCompleted t)
               ∧ e = KeyError t ∧ t ≠ k
               ∧ EvDispatch t task' ∈ trace st
               ∧ execute_with_timeout task' = Raise err
               ∧ is_Exception err = false)
      end
    ∧ (task_groups self = [] →
       (∀ task' err, execute_with_timeout task' = Raise err → is_Exception err = true) →
       sig = Return)
    ∧ (∀ names, EvExecuting names ∈ trace st → k ∉ names)
    ∧ (∀ task', EvDispatch k task' ∉ trace st)
    ∧ (k ∉ completed_tasks st)
    ∧ (∀ r, results st !! k = Some r →
         k ∈ (task_groups self).*1 ∧ EvGroupResult k r ∈ trace st)
    ∧ (k ∉ (task_groups self).*1 → results st !! k = None).
Proof using set_iter_perm.
  intros Hnd Hk Hd Hdk.
  destruct (run_terminates self) as (st & sig & Hrun & Hend).
  destruct (run_ledger self st sig Hrun) as [Hfinal _].
  exists st, sig.
  pose proof Hend as (Hinv & Hsig). pose proof (inv_history _ _ Hinv) as Htr.
  destruct (blocked_task self st sig k d task) as (Hns & Hnd' & Hnc' & Hres); [done..| |].
  { intros Hc. apply Hdk. by eapply completed_are_tasks. }
  assert (∀ r, results st !! k = Some r →
            k ∈ (task_groups self).*1 ∧ EvGroupResult k r ∈ trace st) as Hown.
  { intros r Hr. apply Hres in Hr. split; [|done]. by eapply group_result_is_group. }
  assert (match sig with
          | Continue => False
          | Return => drained st ∨ halted st
          | Raised e =>
              (∃ g t grp, last (trace st) = Some (EvGroup g t)
                          ∧ (g, grp) ∈ task_groups self ∧ t ≠ k)
              ∨ (∃ t task' err, last (trace st) = Some (EvCompleted t)
                   ∧ e = KeyError t ∧ t ≠ k
                   ∧ EvDispatch t task' ∈ trace st
                   ∧ execute_with_timeout task' = Raise err
                   ∧ is_Exception err = false)
          end) as Hclass.
  { destruct sig as [| |e]; [done|by destruct Hsig|].
    destruct (raised_origin self st e Hend Hfinal)
      as [(pre & g & t & grp & r & Heq & Hg & _ & Hc & _)
         |(pre & t & task' & err & Heq & -> & _ & Hin & Hexec & Hexc)]; [left|right].
    - exists g, t, grp. split_and!; [rewrite Heq; apply last_snoc|done|].
      intros ->. apply Hnc'. rewrite (inv_completed _ _ Hinv), Heq.
      apply elem_of_completed_of, elem_of_app. by left.
    - exists t, task', err. split_and!; [rewrite Heq; apply last_snoc|done| | |done..].
      + intros ->. apply (Hnd' task'). rewrite Heq. apply elem_of_app. by left.
      + rewrite Heq. apply elem_of_app. by left. }
  split_and!; [done|done| | |done..|].
  - intros Hnil Hall. destruct sig as [| |e]; [done..|].
    destruct Hclass as [(g & t & grp & _ & Hg & _)|(t & task' & err & _ & _ & _ & _ & Hx & Hexc)].
    + rewrite Hnil in Hg. by apply elem_of_nil in Hg.
    + rewrite (Hall _ _ Hx) in Hexc. done.
  - intros names Hin Hkn. apply Hns. by exists names.
  - intros Hng. destruct (results st !! k) as [r|] eqn:Hr; [|done].
    by destruct (Hown r eq_refl).
Qed.


(** C1, amended: a group is expanded for a task only after the task was
    marked completed with a successful result, and only if some segment of
    the group's path equals the task's name; in a run that returns, every
    group whose path has the task's name as first segment is expanded after
    the completion of a task with a successful result. A task whose result
    is a failure when it is marked completed stops the workflow on the spot:
    [run] returns, and no group is ever expanded for that task. *)
Theorem expansion_trigger (self : Workflow) (st : run_state) (sig : signal) :
  run self = Some (st, sig) →
  (∀ pre g t post, trace st = pre ++ EvGroup g t :: post →
     (∃ grp, (g, grp) ∈ task_groups self ∧ t ∈ split "." (for_each (config grp)))
     ∧ ∃ before after r, pre = before ++ EvCompleted t :: after
         ∧ results_of before !! t = Some r ∧ success r = true)
  ∧ (sig = Return → ∀ before t after r g grp,
       trace st = before ++ EvCompleted t :: after →
       results_of before !! t = Some r → success r = true →
       (g, grp) ∈ task_groups self →
       head (split "." (for_each (config grp))) = Some t →
       EvGroup g t ∈ after)
  ∧ (∀ before t after r,
       trace st = before ++ EvCompleted t :: after →
       results_of before !! t = Some r → success r = false →
       after = [EvStopped t] ∧ sig = Return ∧ ∀ g, EvGroup g t ∉ trace st).
Proof using set_iter_perm.
  intros Hrun. pose proof (run_ended self st sig Hrun) as Hend.
  destruct (run_ledger self st sig Hrun) as [Hfinal _].
  split_and!.
  - intros pre g t post Heq. split.
    + destruct (final_shaped _ _ _ Hfinal pre _ post Heq)
        as [_ (grp & r & Hg & Htrig & _)].
      exists grp. split; [done|]. by apply triggers_iff.
    + destruct (expansion_after_completion self st sig pre post g t)
        as (before & after & r & ? & _ & ? & ?); [done..|].
      by exists before, after, r.
  - intros -> before t after r g grp Heq Hr Hs Hg Hhead.
    apply (expansions_follow self st before after t g grp r); [done..|].
    by apply head_triggers.
  - intros before t after r Heq Hr Hs.
    destruct (final_shaped _ _ _ Hfinal before _ after Heq) as [_ Hc].
    rewrite Hr, Hs in Hc. destruct Hc as [-> ->]. split_and!; [done..|].
    intros g Hin.
    apply (expansion_follows_completion self st Return before [EvStopped t]) in Hin;
      [|done..].
    by apply list_elem_of_singleton in Hin.
Qed.

(** C3, amended: after a round, each task is first marked completed; then
    the success flag of its result is checked. If the flag is false the
    workflow stops on the spot: [run] returns the results accumulated so
    far, the failed result of the task among them, and no group was or is
    expanded for the task. Only when the flag is true are the task's group
    expansions evaluated, all of them after the task was marked completed
    and with nothing but these expansions in between. (If there is no
    result to check, [run] raises the [KeyError] of the lookup.) *)
Theorem completed_checked_expanded (self : Workflow) (st : run_state) (sig : signal) :
  run self = Some (st, sig) →
  (∀ before t after, trace st = before ++ EvCompleted t :: after →
     match results_of before !! t with
     | Some r =>
         if success r
         then ∀ g, EvGroup g t ∉ before
         else after = [EvStopped t] ∧ sig = Return
              ∧ results st = results_of before
              ∧ results st !! t = Some r
              ∧ ∀ g, EvGroup g t ∉ trace st
     | None => after = [] ∧ sig = Raised (KeyError t)
     end)
  ∧ (∀ pre g t post, trace st = pre ++ EvGroup g t :: post →
       ∃ before after r, pre = before ++ EvCompleted t :: after
         ∧ Forall (expand_event t) after
         ∧ results_of before !! t = Some r ∧ success r = true).
Proof using set_iter_perm.
  intros Hrun. destruct (run_ledger self st sig Hrun) as [Hfinal _].
  split.
  - intros before t after Heq.
    destruct (final_shaped _ _ _ Hfinal before _ after Heq) as [_ Hc].
    destruct (results_of before !! t) as [r|] eqn:Hr; [|by destruct Hc as (? & ? & _)].
    destruct (success r) eqn:Hs.
    + intros g Hin. apply list_elem_of_split in Hin as (p & q & ->).
      destruct (expansion_after_completion self st sig p
                  (q ++ EvCompleted t :: after) g t)
        as (b & a & _ & -> & _); [done|by rewrite Heq, <-app_assoc|].
      destruct (completed_once (trace st)
                  ((b ++ EvCompleted t :: a) ++ EvGroup g t :: q) after
                  b (a ++ EvGroup g t :: q ++ EvCompleted t :: after) t) as [Hb _];
        [apply (final_completions _ _ _ Hfinal)|done
        |by rewrite Heq, <-!app_assoc|].
      apply (f_equal length) in Hb. rewrite !length_app in Hb. cbn in Hb. lia.
    + destruct Hc as [-> ->].
      assert (results st = results_of before) as Hres.
      { rewrite (final_results _ _ _ Hfinal), Heq. unfold results_of.
        by rewrite fold_left_app. }
      split_and!; [done..|by rewrite Hres|].
      intros g Hin.
      apply (expansion_follows_completion self st Return before [EvStopped t]) in Hin;
        [|done..].
      by apply list_elem_of_singleton in Hin.
  - intros pre g t post Heq. by eapply expansion_after_completion.
Qed.

(** Every execution attempt comes after the completion, and the recording
    of a result, of each dependency the graph holds for the task. *)
Lemma dispatch_after_dependencies (self : Workflow) (tr pre post : list event)
    (k d : string) (task' : Task) :
  history_ok self tr → tr = pre ++ EvDispatch k task' :: post →
  d ∈ graph_deps self k →
  EvCompleted d ∈ pre ∧ is_Some (results_of pre !! d).
Proof.
  intros Htr Heq Hd. destruct (Htr pre _ post Heq) as (_ & (names & Hin & Hk) & _).
  apply list_elem_of_split in Hin as (pre1 & post1 & ->).
  destruct (Htr pre1 (EvExecuting names) (post1 ++ EvDispatch k task' :: post))
    as (_ & Hnames).
  { by rewrite Heq, <-app_assoc. }
  destruct (Hnames k Hk) as (_ & _ & Hdeps).
  destruct (Hdeps d Hd) as [Hc%elem_of_completed_of Hr].
  split; [apply elem_of_app; by left|by apply results_of_mono].
Qed.

(** C4, amended: immediately before each execution attempt the task's
    [dependency_order] is a list, without repetition, of exactly the names
    the task declares as dependencies, and its [dependency_outputs] maps each
    declared dependency name to the output recorded for that dependency at
    that moment, and nothing else. *)
Theorem dependencies_injected (self : Workflow) (st : run_state) (sig : signal)
    (pre post : list event) (k : string) (task' : Task) :
  NoDup (tasks self).*1 →
  run self = Some (st, sig) →
  trace st = pre ++ EvDispatch k task' :: post →
  ∃ task, (k, task) ∈ tasks self
    ∧ NoDup (dependency_order task')
    ∧ (∀ d, d ∈ dependency_order task' ↔ d ∈ task_dependencies task)
    ∧ (∀ d, d ∈ task_dependencies task →
         ∃ r, results_of pre !! d = Some r
              ∧ dependency_outputs task' !! d = Some (output r))
    ∧ (∀ d, d ∉ task_dependencies task → dependency_outputs task' !! d = None).
Proof using set_iter_perm.
  intros Hnd (Hinv & _)%run_ended Heq.
  pose proof (inv_history _ _ Hinv) as Htr.
  destruct (Htr pre _ post Heq) as (_ & Hs & Hord & Hout).
  destruct (scheduled_ready self pre k) as [Hk _]; [|done|].
  { intros p e q ->. apply (Htr p e (q ++ EvDispatch k task' :: post)).
    by rewrite Heq, <-app_assoc. }
  apply list_elem_of_fmap in Hk as ([k' task] & -> & Hk). cbn [fst] in *.
  exists task. rewrite (graph_deps_lookup self k' task) in * by done.
  split_and!; [done| | | |].
  - rewrite Hord. apply NoDup_set_of.
  - intros d. by rewrite Hord, elem_of_set_of.
  - intros d Hd.
    destruct (dispatch_after_dependencies self _ pre post k' d task' Htr Heq)
      as [_ [r Hr]].
    { rewrite (graph_deps_lookup self k' task) by done. by apply elem_of_set_of. }
    exists r. split; [done|]. rewrite Hout, decide_True by (by apply elem_of_set_of).
    by rewrite Hr.
  - intros d Hd. rewrite Hout, decide_False; [done|]. by rewrite elem_of_set_of.
Qed.


(** Without task groups, and when every execution returns a successful
    result, every result in the map is successful. *)
Lemma results_successful (self : Workflow) (st : run_state) (k : string) (r : TaskResult) :
  task_groups self = [] →
  (∀ task, ∃ r, execute_with_timeout task = Ok r ∧ success r = true) →
  inv self st → results st !! k = Some r → success r = true.
Proof.
  intros Hnil Hall Hinv Hr. pose proof (inv_history _ _ Hinv) as Htr.
  assert (∀ g t, EvGroup g t ∉ trace st) as Hnogroup.
  { intros g t Hin.
    destruct (history_ok_elem self _ _ Htr Hin) as (pre & post & _ & _ & _ & grp & Hg & _).
    rewrite Hnil in Hg. by apply elem_of_nil in Hg. }
  rewrite (inv_results _ _ Hinv) in Hr.
  apply results_of_recorded in Hr as [Hin|Hin];
    destruct (history_ok_elem self _ _ Htr Hin) as (pre & post & Heq & _ & Hok).
  - destruct Hok as [_ [(task & _ & Hexec)|(e & Herr & _)]].
    + destruct (Hall task) as (r' & Hr' & Hs). congruence.
    + assert (EvTaskError k e ∈ trace st) as Hin'
        by (rewrite Heq; apply elem_of_app; by left).
      destruct (history_ok_elem self _ _ Htr Hin') as (? & ? & _ & _ & task & _ & Hexec).
      destruct (Hall task) as (r' & Hr' & _). congruence.
  - destruct Hok as [t Hg]. destruct (Hnogroup k t). rewrite Heq. apply elem_of_app. by left.
Qed.

(** When no task is ready in an acyclic graph whose dependencies are all
    tasks, every task is completed. *)
Lemma drained_all_completed (self : Workflow) (st : run_state) (k : string) :
  acyclic self → satisfiable self → inv self st →
  _get_ready_tasks (workflow st) (completed_tasks st) = [] →
  k ∈ (tasks self).*1 → k ∈ completed_tasks st.
Proof.
  intros [rank Hrank] Hsat Hinv Hready.
  remember (S (rank k)) as n eqn:Hn. assert (rank k < n)%nat as Hlt by lia. clear Hn.
  revert k Hlt. induction n as [|n IH]; intros k Hlt Hk; [lia|].
  destruct (decide (k ∈ completed_tasks st)) as [|Hnc]; [done|].
  exfalso. apply (not_elem_of_nil k). rewrite <-Hready.
  apply elem_of_get_ready_tasks. rewrite (inv_keys _ _ Hinv), (inv_graph _ _ Hinv).
  split_and!; [done..|].
  intros d (t & Hin & Hd)%graph_deps_declared.
  apply IH; [|by eapply Hsat]. specialize (Hrank k t d Hin Hd). lia.
Qed.

(** C5, amended: in a workflow without task groups whose dependency graph
    is acyclic and names only tasks, and in which every execution returns a
    successful result, [run] terminates with every task present in the
    returned result map. And in every run, whatever the workflow, every
    execution attempt comes after each declared dependency of the task was
    marked completed and had its result recorded. *)
Theorem acyclic_workflow_completes (self : Workflow) :
  NoDup (tasks self).*1 →
  (task_groups self = [] → acyclic self → satisfiable self →
   (∀ task, ∃ r, execute_with_timeout task = Ok r ∧ success r = true) →
   ∃ st, run self = Some (st, Return)
     ∧ ∀ k, k ∈ (tasks self).*1 → is_Some (results st !! k))
  ∧ (∀ st sig pre post k task' task d,
       run self = Some (st, sig) →
       trace st = pre ++ EvDispatch k task' :: post →
       (k, task) ∈ tasks self → d ∈ task_dependencies task →
       d ∈ completed_of pre ∧ is_Some (results_of pre !! d)).
Proof using set_iter_perm.
  intros Hnd. split.
  - intros Hnil Hacyc Hsat Hall.
    destruct (run_terminates self) as (st & sig & Hrun & Hend).
    destruct (run_ledger self st sig Hrun) as [Hfinal _].
    pose proof Hend as (Hinv & Hsig).
    destruct sig as [| |e]; [done| |].
    2:{ destruct (raised_origin self st e Hend Hfinal)
          as [(pre & g & t & grp & r & _ & Hg & _)
             |(pre & t & task' & err & _ & _ & _ & _ & Hexec & _)].
        - rewrite Hnil in Hg. by apply elem_of_nil in Hg.
        - destruct (Hall task') as (r & Hr & _). congruence. }
    exists st. split; [done|]. intros k Hk.
    assert (k ∈ completed_tasks st) as Hc.
    { destruct Hsig as [_ [[_ Hready]|(t & r & _ & Hr & Hs)]].
      - by apply (drained_all_completed self).
      - rewrite (results_successful self st t r) in Hs; done. }
    rewrite (inv_completed _ _ Hinv), elem_of_completed_of in Hc.
    by destruct (completed_recorded self st Return k Hfinal Hc) as [?|[? _]].
  - intros st sig pre post k task' task d Hrun Heq Hk Hd.
    destruct (run_ended self st sig Hrun) as (Hinv & _).
    destruct (dispatch_after_dependencies self _ pre post k d task'
                (inv_history _ _ Hinv) Heq) as [Hc Hr].
    { rewrite (graph_deps_lookup self k task) by done. by apply elem_of_set_of. }
    split; [by apply elem_of_completed_of|done].
Qed.

(** * Further properties of the workflow's operations *)

(** ** Registration and lookup *)

Lemma dict_get_set {V} (k k' : string) (v : V) (d : list (string * V)) :
  dict_get k' (dict_set k v d) = if decide (k = k') then Some v else dict_get k' d.
Proof.
  induction d as [|[k0 v0] d IH]; cbn [dict_set dict_get].
  - case_decide as Hk; subst; [by rewrite String.eqb_refl|].
    by destruct (String.eqb_spec k k').
  - destruct (String.eqb_spec k0 k) as [->|Hne]; cbn [dict_get].
    + case_decide as Hk; subst; [by rewrite String.eqb_refl|].
      by destruct (String.eqb_spec k k').
    + destruct (String.eqb_spec k0 k') as [->|Hne']; [|done].
      by rewrite decide_False by done.
Qed.

Lemma dict_mem_get {V} (k : string) (d : list (string * V)) :
  dict_mem k d = true ↔ is_Some (dict_get k d).
Proof. by rewrite dict_mem_iff, dict_get_is_Some. Qed.

Lemma dict_mem_set {V} (k k' : string) (v : V) (d : list (string * V)) :
  dict_mem k' (dict_set k v d) = if decide (k = k') then true else dict_mem k' d.
Proof.
  apply eq_true_iff_eq. rewrite dict_mem_get, dict_get_set.
  case_decide; [split; eauto|]. by rewrite dict_mem_get.
Qed.

Lemma dict_get_elem {V} (k : string) (v : V) (d : list (string * V)) :
  dict_get k d = Some v → (k, v) ∈ d.
Proof.
  induction d as [|[k0 v0] d IH]; cbn [dict_get]; [done|].
  destruct (String.eqb_spec k0 k) as [->|Hne].
  - intros [= ->]. by left.
  - intros ?%IH. by right.
Qed.

Lemma dict_get_NoDup {V} (k : string) (v : V) (d : list (string * V)) :
  NoDup d.*1 → (k, v) ∈ d → dict_get k d = Some v.
Proof.
  induction d as [|[k0 v0] d IH]; cbn [dict_get fmap list_fmap fst].
  - by intros _ ?%elem_of_nil.
  - intros [Hk0 Hnd]%NoDup_cons [[= -> ->]|Hin]%elem_of_cons.
    + by rewrite String.eqb_refl.
    + destruct (String.eqb_spec k0 k) as [->|Hne]; [|by apply IH].
      destruct Hk0. apply list_elem_of_fmap. by exists (k, v).
Qed.

(** What a lookup answers depends on the task map only *)
Lemma get_task_result (k : string) (self : Workflow) :
  (get_task k self).2 =
  match dict_get k (tasks self) with
  | Some task => Ok task
  | None => Raise (ValueError ("Task " +:+ k +:+ " not found"))
  end.
Proof.
  unfold get_task, subscript.
  destruct (dict_get k (tasks self)) as [task|] eqn:Hget.
  - rewrite (proj2 (dict_mem_get k _)) by (by rewrite Hget). cbn. by rewrite ?Hget.
  - destruct (dict_mem k (tasks self)) eqn:Hmem; [|done].
    apply dict_mem_get in Hmem as [? ?]. congruence.
Qed.

Lemma get_task_group_result (k : string) (self : Workflow) :
  (get_task_group k self).2 =
  match dict_get k (task_groups self) with
  | Some grp => Ok grp
  | None => Raise (ValueError ("Task group " +:+ k +:+ " not found"))
  end.
Proof.
  unfold get_task_group, subscript.
  destruct (dict_get k (task_groups self)) as [grp|] eqn:Hget.
  - rewrite (proj2 (dict_mem_get k _)) by (by rewrite Hget). cbn. by rewrite ?Hget.
  - destruct (dict_mem k (task_groups self)) eqn:Hmem; [|done].
    apply dict_mem_get in Hmem as [? ?]. congruence.
Qed.

Lemma get_task_self (k : string) (self : Workflow) : (get_task k self).1 = self.
Proof. unfold get_task. by destruct (negb _). Qed.

Lemma get_task_group_self (k : string) (self : Workflow) : (get_task_group k self).1 = self.
Proof. unfold get_task_group. by destruct (negb _). Qed.

(** X1: a task added under a name that is free is the task [get_task]
    returns for that name afterwards; the lookup of every other name answers
    as before, and the groups are untouched. *)
Theorem add_task_then_get_task (task : Task) (self : Workflow) :
  name task ∉ (tasks self).*1 →
  ∃ self', add_task task self = (self', Ok ())
    ∧ get_task (name task) self' = (self', Ok task)
    ∧ (∀ k, k ≠ name task → (get_task k self').2 = (get_task k self).2)
    ∧ task_groups self' = task_groups self.
Proof.
  intros Hfresh. unfold add_task. rewrite (proj2 (dict_mem_false _ _) Hfresh).
  eexists. split; [done|]. split_and!.
  - apply injective_projections; [apply get_task_self|].
    rewrite get_task_result. cbn. by rewrite dict_get_set, decide_True.
  - intros k Hk. rewrite !get_task_result. cbn. by rewrite dict_get_set, decide_False.
  - done.
Qed.

(** X2: a group added under a name that is free is built from that name and
    the given configuration, is the group [get_task_group] returns for the
    name afterwards, and comes last in [get_all_task_groups]; the lookup of
    every other group name answers as before, and the tasks are untouched. *)
Theorem add_task_group_then_get_task_group (gname : string) (cfg : TaskGroupConfig)
    (self : Workflow) :
  gname ∉ (task_groups self).*1 →
  ∃ self', add_task_group gname cfg self = (self', Ok ())
    ∧ get_task_group gname self' = (self', Ok (mkTaskGroup gname cfg))
    ∧ (∀ k, k ≠ gname → (get_task_group k self').2 = (get_task_group k self).2)
    ∧ get_all_task_groups self' = get_all_task_groups self ++ [mkTaskGroup gname cfg]
    ∧ tasks self' = tasks self.
Proof.
  intros Hfresh. unfold add_task_group. rewrite (proj2 (dict_mem_false _ _) Hfresh).
  eexists. split; [done|]. split_and!.
  - apply injective_projections; [apply get_task_group_self|].
    rewrite get_task_group_result. cbn. by rewrite dict_get_set, decide_True.
  - intros k Hk. rewrite !get_task_group_result. cbn.
    by rewrite dict_get_set, decide_False.
  - unfold get_all_task_groups. cbn. by rewrite dict_set_fresh, fmap_app.
  - done.
Qed.

Lemma add_task_fresh (task : Task) (self : Workflow) :
  name task ∉ (tasks self).*1 →
  add_task task self = (set_tasks self (tasks self ++ [(name task, task)]), Ok ()).
Proof.
  intros Hfresh. unfold add_task. rewrite (proj2 (dict_mem_false _ _) Hfresh).
  by rewrite dict_set_fresh.
Qed.

Lemma add_tasks_fold (l : list Task) (self : Workflow) :
  NoDup (name <$> l) → (∀ task, task ∈ l → name task ∉ (tasks self).*1) →
  fold_left (λ w task, (add_task task w).1) l self
  = set_tasks self (tasks self ++ ((λ task, (name task, task)) <$> l)).
Proof.
  revert self. induction l as [|t l IH]; intros self Hnd Hfresh.
  - cbn. rewrite app_nil_r. by destruct self.
  - cbn [fmap list_fmap] in Hnd. apply NoDup_cons in Hnd as [Ht Hnd].
    cbn [fold_left]. rewrite add_task_fresh by (apply Hfresh; by left).
    cbn [fst]. rewrite IH; [|done|].
    + cbn. by rewrite <-app_assoc.
    + intros task Hin. cbn. rewrite fmap_app, elem_of_app. cbn.
      rewrite list_elem_of_singleton. intros [Hk|Heq].
      * apply (Hfresh task); [by right|done].
      * apply Ht. rewrite <-Heq. apply list_elem_of_fmap. by exists task.
Qed.

(** X3: tasks with pairwise distinct names, none of them registered yet,
    that are added one after the other are all accepted, and
    [get_all_tasks] then enumerates them after the tasks that were there
    before, in the order in which they were added. *)
Theorem get_all_tasks_in_registration_order (l : list Task) (self : Workflow) :
  NoDup (name <$> l) → (∀ task, task ∈ l → name task ∉ (tasks self).*1) →
  (∀ pre task post, l = pre ++ task :: post →
     (add_task task (fold_left (λ w t, (add_task t w).1) pre self)).2 = Ok ())
  ∧ get_all_tasks (fold_left (λ w t, (add_task t w).1) l self)
    = get_all_tasks self ++ l.
Proof.
  intros Hnd Hfresh. split.
  - intros pre task post ->. rewrite fmap_app in Hnd. cbn in Hnd.
    apply NoDup_app in Hnd as (Hpre & Hdisj & Hpost).
    rewrite add_tasks_fold; [|done|].
    + rewrite add_task_fresh; [done|]. cbn. rewrite fmap_app, elem_of_app.
      intros [Hk|Hk].
      * apply (Hfresh task); [|done]. apply elem_of_app. right. by left.
      * rewrite <-list_fmap_compose in Hk. apply (Hdisj (name task)); [done|by left].
    + intros t Ht. apply Hfresh. apply elem_of_app. by left.
  - rewrite add_tasks_fold by done. unfold get_all_tasks. cbn.
    rewrite fmap_app, <-list_fmap_compose. f_equal. apply list_fmap_id.
Qed.

(** X4: [create_task] asks the registry only for a name that is free. The
    task the registry builds is filed under the requested name, whatever
    name the task itself carries, after the tasks that were there; an error
    of the registry is passed on and leaves the workflow as it was. *)
Theorem create_task_outcomes (task_type tname : string) (cfg : list (string * value))
    (self : Workflow) :
  tname ∉ (tasks self).*1 →
  match registry_create_task task_type tname cfg with
  | Ok task =>
      ∃ self', create_task task_type tname cfg self = (self', Ok task)
        ∧ get_task tname self' = (self', Ok task)
        ∧ tasks self' = tasks self ++ [(tname, task)]
        ∧ get_all_tasks self' = get_all_tasks self ++ [task]
  | Raise e => create_task task_type tname cfg self = (self, Raise e)
  end.
Proof.
  intros Hfresh. unfold create_task. rewrite (proj2 (dict_mem_false _ _) Hfresh).
  destruct (registry_create_task task_type tname cfg) as [task|e]; [|done].
  eexists. split; [done|]. rewrite dict_set_fresh by done. split_and!.
  - apply injective_projections; [apply get_task_self|].
    rewrite get_task_result. cbn. rewrite <-(dict_set_fresh tname task) by done.
    by rewrite dict_get_set, decide_True.
  - done.
  - unfold get_all_tasks. cbn. by rewrite fmap_app.
Qed.

(** X5: [create_function_task] lets the registry build the task first and
    only then checks for a duplicate, against the name the task carries: a
    task whose name is taken is refused with the [ValueError] of [add_task]
    and the workflow stays as it was; otherwise the task is filed under its
    own name. An error of the registry is passed on. *)
Theorem create_function_task_outcomes (func_name tname : string)
    (cfg : option (list (string * value))) (self : Workflow) :
  match registry_create_function_task func_name tname cfg with
  | Raise e => create_function_task func_name tname cfg self = (self, Raise e)
  | Ok task =>
      if decide (name task ∈ (tasks self).*1) then
        create_function_task func_name tname cfg self
        = (self, Raise (ValueError ("Task with name " +:+ name task
                                    +:+ " already exists in workflow")))
      else
        ∃ self', create_function_task func_name tname cfg self = (self', Ok task)
          ∧ get_task (name task) self' = (self', Ok task)
          ∧ tasks self' = tasks self ++ [(name task, task)]
  end.
Proof.
  unfold create_function_task.
  destruct (registry_create_function_task func_name tname cfg) as [task|e]; [|done].
  case_decide as Hin.
  - unfold add_task. by rewrite (proj2 (dict_mem_iff _ _) Hin).
  - rewrite add_task_fresh by done. eexists. split; [done|]. split; [|done].
    apply injective_projections; [apply get_task_self|].
    rewrite get_task_result. cbn. rewrite <-(dict_set_fresh (name task) task) by done.
    by rewrite dict_get_set, decide_True.
Qed.

(** X6: a name that is both a task and a group stands for the task:
    [get_task_output] answers with the output of the task registered under
    the name whenever there is one, and with the output of the group of that
    name only when no task has it. Neither changes the workflow. *)
Theorem get_task_output_prefers_task (tname : string) (self : Workflow) :
  (∀ task, dict_get tname (tasks self) = Some task →
     get_task_output tname self = (self, get_output task))
  ∧ (∀ grp, tname ∉ (tasks self).*1 → dict_get tname (task_groups self) = Some grp →
       get_task_output tname self = (self, group_get_output grp)).
Proof.
  split.
  - intros task Hget. unfold get_task_output, subscript.
    rewrite (proj2 (dict_mem_get tname _)) by (by rewrite Hget). by rewrite Hget.
  - intros grp Hfresh Hget. unfold get_task_output, subscript.
    rewrite (proj2 (dict_mem_false _ _) Hfresh).
    rewrite (proj2 (dict_mem_get tname _)) by (by rewrite Hget). by rewrite Hget.
Qed.

(** X7: names stay unique. A new workflow has no task and no group, and
    whatever it answers, each registration operation, and the rebuilding of
    the dependency graph, leaves a workflow in which no two tasks and no two
    groups share a name. *)
Theorem registration_keeps_names_unique :
  unique_names __init__
  ∧ get_all_tasks __init__ = [] ∧ get_all_task_groups __init__ = []
  ∧ ∀ self, unique_names self →
      (∀ task, unique_names (add_task task self).1)
      ∧ (∀ gname cfg, unique_names (add_task_group gname cfg self).1)
      ∧ (∀ task_type tname cfg, unique_names (create_task task_type tname cfg self).1)
      ∧ (∀ func_name tname cfg,
           unique_names (create_function_task func_name tname cfg self).1)
      ∧ unique_names (_build_dependency_graph self).
Proof.
  split_and!; [split; apply NoDup_nil_2|done|done|].
  intros self [Ht Hg].
  assert (∀ k, k ∉ (tasks self).*1 → NoDup ((tasks self).*1 ++ [k])) as Hsnoc_t.
  { intros k Hk. apply NoDup_app. split_and!; [done| |apply NoDup_singleton].
    by intros x Hx ->%list_elem_of_singleton. }
  assert (∀ task, unique_names (add_task task self).1) as Hadd.
  { intros task. unfold add_task. destruct (dict_mem _ _) eqn:Hmem; [done|].
    apply dict_mem_false in Hmem. split; [|done]. cbn.
    rewrite dict_set_fresh, fmap_app by done. by apply Hsnoc_t. }
  split_and!.
  - done.
  - intros gname cfg. unfold add_task_group. destruct (dict_mem _ _) eqn:Hmem; [done|].
    apply dict_mem_false in Hmem. split; [done|]. cbn.
    rewrite dict_set_fresh, fmap_app by done.
    apply NoDup_app. split_and!; [done| |apply NoDup_singleton].
    by intros x Hx ->%list_elem_of_singleton.
  - intros task_type tname cfg. unfold create_task.
    destruct (dict_mem _ _) eqn:Hmem; [done|]. apply dict_mem_false in Hmem.
    destruct (registry_create_task _ _ _) as [task|e]; [|done].
    split; [|done]. cbn. rewrite dict_set_fresh, fmap_app by done. by apply Hsnoc_t.
  - intros func_name tname cfg. unfold create_function_task.
    destruct (registry_create_function_task _ _ _) as [task|e]; [|done].
    specialize (Hadd task). by destruct (add_task task self) as [self' [[]|e]].
  - done.
Qed.
(** ** The dependency graph *)

Lemma add_dependent_fold (k : string) (deps : list string)
    (m : gmap string (list string)) (d : string) :
  (∀ t, t ∈ default [] (fold_left (add_dependent k) deps m !! d)
        ↔ t ∈ default [] (m !! d) ∨ (t = k ∧ d ∈ deps))
  ∧ (NoDup (default [] (m !! d)) →
     NoDup (default [] (fold_left (add_dependent k) deps m !! d)))
  ∧ (is_Some (fold_left (add_dependent k) deps m !! d) ↔ is_Some (m !! d) ∨ d ∈ deps).
Proof.
  revert m. induction deps as [|dep deps IH]; intros m.
  - cbn. split_and!; [|done|].
    + intros t. split; [auto|]. by intros [?|[_ ?%elem_of_nil]].
    + split; [auto|]. by intros [?|?%elem_of_nil].
  - cbn [fold_left]. destruct (IH (add_dependent k m dep)) as (IH1 & IH2 & IH3).
    unfold add_dependent in *. split_and!.
    + intros t. rewrite IH1, lookup_insert. case_decide as Hd.
      * subst. cbn. rewrite elem_of_set_add, elem_of_cons. naive_solver.
      * rewrite elem_of_cons. naive_solver.
    + intros Hnd. apply IH2. rewrite lookup_insert. case_decide; [|done].
      subst. cbn. by apply NoDup_set_add.
    + rewrite IH3, lookup_insert, elem_of_cons. case_decide; [|naive_solver].
      subst. split; [auto|]. intros _. left. by eexists.
Qed.

Lemma dependents_fold (l : list (string * Task)) g (d : string) :
  (∀ t, t ∈ default [] ((fold_left graph_step l g).2 !! d)
        ↔ t ∈ default [] (g.2 !! d)
          ∨ ∃ task, (t, task) ∈ l ∧ d ∈ task_dependencies task)
  ∧ (NoDup (default [] (g.2 !! d)) →
     NoDup (default [] ((fold_left graph_step l g).2 !! d)))
  ∧ (is_Some ((fold_left graph_step l g).2 !! d)
     ↔ is_Some (g.2 !! d) ∨ ∃ t task, (t, task) ∈ l ∧ d ∈ task_dependencies task).
Proof.
  revert g. induction l as [|[k task] l IH]; intros g.
  - cbn. split_and!; [|done|].
    + intros t. split; [auto|]. by intros [?|(? & ?%elem_of_nil & _)].
    + split; [auto|]. by intros [?|(? & ? & ?%elem_of_nil & _)].
  - cbn [fold_left]. destruct (IH (graph_step g (k, task))) as (IH1 & IH2 & IH3).
    destruct (add_dependent_fold k (task_dependencies task) g.2 d) as (A1 & A2 & A3).
    cbn [graph_step fst snd] in *. split_and!.
    + intros t. rewrite IH1, A1. setoid_rewrite elem_of_cons. naive_solver.
    + auto.
    + rewrite IH3, A3. setoid_rewrite elem_of_cons. naive_solver.
Qed.

(** X8: in the graph that [_build_dependency_graph] builds, the dependents
    map is the inverse of the dependencies map: [t] is among the dependents
    of [d] exactly when [d] is among the dependencies of [t], whether or not
    [d] is the name of a task. *)
Theorem dependents_inverse_of_dependencies (self : Workflow) (t d : string) :
  NoDup (tasks self).*1 →
  t ∈ default [] (wf_task_dependents (_build_dependency_graph self) !! d)
  ↔ d ∈ default [] (wf_task_dependencies (_build_dependency_graph self) !! t).
Proof.
  intros Hnd. fold (graph_deps self t).
  unfold _build_dependency_graph at 1. cbn [wf_task_dependents].
  destruct (dependents_fold (tasks self) (∅, ∅) d) as (-> & _ & _).
  cbn [snd]. rewrite lookup_empty. cbn. split.
  - intros [?%elem_of_nil|(task & Hin & Hd)]; [done|].
    rewrite (graph_deps_lookup self t task) by done. by apply elem_of_set_of.
  - intros Hd. right. by apply graph_deps_declared.
Qed.

(** X9: whatever the two maps held before, the rebuilt graph has a
    dependencies entry for every task and for no other name, holding the
    names the task declares, each once; it has a dependents entry exactly
    for the names that some task declares, each entry non-empty and without
    repetition. Tasks and groups are left as they were. *)
Theorem dependency_graph_entries (self : Workflow) :
  NoDup (tasks self).*1 →
  (∀ k task, (k, task) ∈ tasks self →
     ∃ ds, wf_task_dependencies (_build_dependency_graph self) !! k = Some ds
           ∧ NoDup ds ∧ ∀ d, d ∈ ds ↔ d ∈ task_dependencies task)
  ∧ (∀ k, k ∉ (tasks self).*1 →
       wf_task_dependencies (_build_dependency_graph self) !! k = None)
  ∧ (∀ d, is_Some (wf_task_dependents (_build_dependency_graph self) !! d)
          ↔ ∃ k task, (k, task) ∈ tasks self ∧ d ∈ task_dependencies task)
  ∧ (∀ d ts, wf_task_dependents (_build_dependency_graph self) !! d = Some ts →
       NoDup ts ∧ ts ≠ [])
  ∧ tasks (_build_dependency_graph self) = tasks self
  ∧ task_groups (_build_dependency_graph self) = task_groups self.
Proof.
  intros Hnd. unfold _build_dependency_graph.
  cbn [wf_task_dependencies wf_task_dependents tasks task_groups]. split_and!.
  - intros k task Hin. exists (set_of (task_dependencies task)).
    split_and!; [by apply graph_fold_lookup|apply NoDup_set_of|].
    intros d. apply elem_of_set_of.
  - intros k Hk. by rewrite graph_fold_other.
  - intros d. destruct (dependents_fold (tasks self) (∅, ∅) d) as (_ & _ & ->).
    cbn [snd]. rewrite lookup_empty. split; [|auto].
    by intros [[? ?]|?].
  - intros d ts Hts.
    destruct (dependents_fold (tasks self) (∅, ∅) d) as (Hmem & Hndd & Hsome).
    rewrite Hts in Hmem, Hndd, Hsome. cbn in *. rewrite lookup_empty in *. cbn in *.
    split; [apply Hndd, NoDup_nil_2|].
    destruct (proj1 Hsome) as [[? ?]|(t & task & Hin & Hd)]; [by eexists|done|].
    intros ->. apply (not_elem_of_nil t), Hmem. right. by exists task.
  - done.
  - done.
Qed.

(** ** The readiness selector *)

(** X10: on a freshly built graph, the ready tasks are the registered tasks
    that are not completed and whose declared dependencies are all
    completed; a task without dependencies is ready until it is completed. *)
Theorem ready_tasks_of_fresh_graph (self : Workflow) (completed : gset string)
    (k : string) :
  NoDup (tasks self).*1 →
  k ∈ _get_ready_tasks (_build_dependency_graph self) completed
  ↔ ∃ task, (k, task) ∈ tasks self ∧ (k ∉ completed)
            ∧ ∀ d, d ∈ task_dependencies task → d ∈ completed.
Proof.
  intros Hnd. rewrite elem_of_get_ready_tasks. fold (graph_deps self k).
  change (tasks (_build_dependency_graph self)) with (tasks self). split.
  - intros (([k' task] & -> & Hin)%list_elem_of_fmap & Hc & Hdeps).
    exists task. split_and!; [done|done|]. intros d Hd. apply Hdeps.
    rewrite (graph_deps_lookup self _ task) by done. by apply elem_of_set_of.
  - intros (task & Hin & Hc & Hdeps). split_and!; [|done|].
    + apply list_elem_of_fmap. by exists (k, task).
    + intros d Hd. apply Hdeps.
      rewrite (graph_deps_lookup self _ task) in Hd by done. by apply elem_of_set_of.
Qed.

(** X11: a registered task for which the dependencies map has no entry,
    such as a task added after the graph was built, counts as a task without
    dependencies: it is ready exactly as long as it is not completed. *)
Theorem task_unknown_to_graph_is_ready (self : Workflow) (completed : gset string)
    (k : string) :
  k ∈ (tasks self).*1 → wf_task_dependencies self !! k = None →
  k ∈ _get_ready_tasks self completed ↔ k ∉ completed.
Proof.
  intros Hk Hnone. rewrite elem_of_get_ready_tasks, Hnone. cbn.
  split; [by intros (_ & ? & _)|]. intros Hc. split_and!; [done|done|].
  by intros d ?%elem_of_nil.
Qed.

(** X12: the ready set holds no name twice, only registered tasks and no
    completed one; and a task that is ready stays ready, as more tasks
    complete, until it is completed itself. *)
Theorem ready_until_completed (self : Workflow) (completed completed' : gset string)
    (k : string) :
  k ∈ _get_ready_tasks self completed →
  NoDup (_get_ready_tasks self completed)
  ∧ k ∈ (tasks self).*1 ∧ (k ∉ completed)
  ∧ (completed ⊆ completed' → k ∉ completed' →
     k ∈ _get_ready_tasks self completed').
Proof.
  intros (Hk & Hc & Hdeps)%elem_of_get_ready_tasks.
  split_and!; [apply NoDup_get_ready_tasks|done|done|].
  intros Hsub Hc'. apply elem_of_get_ready_tasks. split_and!; [done|done|].
  intros d Hd. apply Hsub. by apply Hdeps.
Qed.
(** ** What a run does and does not do *)

(** X13: [run] executes only registered tasks, and none of them twice:
    the names of the execution attempts of a run are pairwise distinct names
    of tasks, so there are at most as many attempts as there are tasks. *)
Theorem no_task_runs_twice (self : Workflow) (st : run_state) (sig : signal) :
  run self = Some (st, sig) →
  NoDup (dispatched (trace st))
  ∧ (∀ k, k ∈ dispatched (trace st) → k ∈ (tasks self).*1)
  ∧ (length (dispatched (trace st)) ≤ length (tasks self))%nat
  ∧ (∀ k task task',
       EvDispatch k task ∈ trace st → EvDispatch k task' ∈ trace st → task' = task).
Proof using set_iter_perm.
  intros Hrun. destruct (run_ledger self st sig Hrun) as [[_ _ Honce _] _].
  destruct (run_ended self st sig Hrun) as (Hinv & _).
  assert (∀ k, k ∈ dispatched (trace st) → k ∈ (tasks self).*1) as Hsub.
  { intros k (task & Hin)%elem_of_dispatched.
    eapply scheduled_ready; [apply (inv_history _ _ Hinv)|].
    apply (event_scheduled self); [apply (inv_history _ _ Hinv)|]. eauto. }
  split_and!; [done|done| |].
  - rewrite <-(length_fmap fst (tasks self)). apply submseteq_length.
    by apply NoDup_submseteq.
  - intros k task task'. by apply dispatched_once.
Qed.

(** X14: a task is executed only after each of its declared dependencies
    was marked completed with a result that was successful at that moment. *)
Theorem dependencies_succeeded_before_dispatch (self : Workflow) (st : run_state)
    (sig : signal) (pre post : list event) (k d : string) (task task' : Task) :
  NoDup (tasks self).*1 →
  run self = Some (st, sig) →
  trace st = pre ++ EvDispatch k task' :: post →
  (k, task) ∈ tasks self → d ∈ task_dependencies task →
  ∃ before after r,
    pre = before ++ EvCompleted d :: after
    ∧ results_of before !! d = Some r ∧ success r = true.
Proof using set_iter_perm.
  intros Hnd Hrun Heq Hk Hd.
  destruct (run_ledger self st sig Hrun) as [Hfinal _].
  destruct (run_ended self st sig Hrun) as (Hinv & _).
  destruct (dispatch_after_dependencies self _ pre post k d task'
              (inv_history _ _ Hinv) Heq) as [Hc _].
  { rewrite (graph_deps_lookup self k task) by done. by apply elem_of_set_of. }
  apply list_elem_of_split in Hc as (before & after & ->).
  destruct (final_shaped _ _ _ Hfinal before (EvCompleted d)
              (after ++ EvDispatch k task' :: post)) as [_ Hs].
  { by rewrite Heq, <-app_assoc. }
  exists before, after. destruct (results_of before !! d) as [r|].
  - exists r. split_and!; [done..|]. destruct (success r); [done|].
    destruct Hs as [Hs _]. by destruct after as [|? [|]].
  - destruct Hs as (Hs & _). by destruct after.
Qed.

(** X15: the result that an execution attempt returned is in the map
    that [run] hands back, also when the run stopped at another task of the
    round or raised, unless a group of the same name has written over it. *)
Theorem returned_results_are_kept (self : Workflow) (st : run_state) (sig : signal)
    (k : string) (task : Task) (r : TaskResult) :
  run self = Some (st, sig) →
  EvDispatch k task ∈ trace st → execute_with_timeout task = Ok r →
  k ∉ (task_groups self).*1 →
  results st !! k = Some r.
Proof using set_iter_perm.
  intros Hrun. destruct (run_ledger self st sig Hrun) as [Hfinal _].
  destruct (run_ended self st sig Hrun) as (Hinv & _). by eapply kept_result.
Qed.

(** X16: the tasks that a round executes together do not depend on one
    another: a round holds registered tasks that are not completed yet,
    while every declared dependency of each of them is completed. *)
Theorem round_members_are_independent (self : Workflow) (st : run_state) (sig : signal)
    (names : list string) (k d : string) (task : Task) :
  NoDup (tasks self).*1 →
  run self = Some (st, sig) →
  EvExecuting names ∈ trace st → k ∈ names → (k, task) ∈ tasks self →
  d ∈ task_dependencies task → d ∉ names.
Proof using set_iter_perm.
  intros Hnd Hrun Hin Hk Htask Hd Hdn.
  destruct (run_ended self st sig Hrun) as (Hinv & _).
  destruct (history_ok_elem self _ _ (inv_history _ _ Hinv) Hin)
    as (pre & post & _ & _ & Hok).
  destruct (Hok k Hk) as (_ & _ & Hdeps). destruct (Hok d Hdn) as (_ & Hnc & _).
  apply Hnc, Hdeps. rewrite (graph_deps_lookup self k task) by done.
  by apply elem_of_set_of.
Qed.

(** X17: the map that [run] hands back has entries only under names of
    tasks and names of groups, and it has an entry for every task that was
    marked completed. (When [run] hands back no map because the lookup of a
    task's result raised, that task is marked completed without an entry.) *)
Theorem results_belong_to_tasks_and_groups (self : Workflow) (st : run_state)
    (sig : signal) :
  run self = Some (st, sig) →
  (∀ k r, results st !! k = Some r →
     (k ∈ (tasks self).*1 ∧ EvResult k r ∈ trace st)
     ∨ (k ∈ (task_groups self).*1 ∧ EvGroupResult k r ∈ trace st))
  ∧ (∀ k, k ∈ completed_tasks st →
       k ∈ (tasks self).*1
       ∧ (is_Some (results st !! k)
          ∨ (sig = Raised (KeyError k) ∧ last (trace st) = Some (EvCompleted k)
             ∧ results st !! k = None)))
  ∧ (sig = Return → ∀ k, k ∈ completed_tasks st → is_Some (results st !! k)).
Proof using set_iter_perm.
  intros Hrun. destruct (run_ended self st sig Hrun) as (Hinv & _).
  destruct (run_ledger self st sig Hrun) as [Hfinal _].
  pose proof (inv_history _ _ Hinv) as Htr. split_and!.
  - intros k r Hr. rewrite (inv_results _ _ Hinv) in Hr.
    apply results_of_recorded in Hr as [Hev|Hev]; [left|right]; (split; [|done]).
    + eapply scheduled_ready; [done|]. apply (event_scheduled self); eauto.
    + by eapply group_result_is_group.
  - intros k Hk. split; [by eapply completed_are_tasks|].
    apply (completed_recorded self st sig k Hfinal).
    by rewrite <-elem_of_completed_of, <-(inv_completed _ _ Hinv).
  - intros -> k Hk.
    destruct (completed_recorded self st Return k Hfinal) as [?|[? _]]; [|done..].
    by rewrite <-elem_of_completed_of, <-(inv_completed _ _ Hinv).
Qed.

(** X18: [run] registers and removes nothing. When it ends the workflow
    holds the same tasks under the same names in the same order, each with
    its name, its declared dependencies and its configuration unchanged (only
    the injected dependency outputs and order differ), the same groups, and
    the dependency graph built at the start. *)
Theorem run_only_injects (self : Workflow) (st : run_state) (sig : signal) :
  run self = Some (st, sig) →
  Forall2 same_task (tasks self) (tasks (workflow st))
  ∧ task_groups (workflow st) = task_groups self
  ∧ wf_task_dependencies (workflow st)
    = wf_task_dependencies (_build_dependency_graph self)
  ∧ wf_task_dependents (workflow st)
    = wf_task_dependents (_build_dependency_graph self).
Proof using set_iter_perm.
  intros Hrun. destruct (run_ledger self st sig Hrun) as [_ [evs Hx]].
  split_and!.
  - apply (ext_tasks _ _ _ Hx).
  - apply (ext_groups _ _ _ Hx).
  - apply (ext_dependencies _ _ _ Hx).
  - apply (ext_dependents _ _ _ Hx).
Qed.

(** X19: when [run] returns without any task having stopped it, every
    task it has not completed waits for a declared dependency that is not
    completed either: a name of no task, the name of a group, or a task
    that is itself left out. *)
Theorem drained_run_leaves_blocked_tasks (self : Workflow) (st : run_state)
    (k : string) (task : Task) :
  NoDup (tasks self).*1 →
  run self = Some (st, Return) → (∀ t, EvStopped t ∉ trace st) →
  (k, task) ∈ tasks self → k ∉ completed_tasks st →
  ∃ d, d ∈ task_dependencies task ∧ d ∉ completed_tasks st.
Proof using set_iter_perm.
  intros Hnd Hrun Hns Hk Hnc.
  destruct (run_ended self st Return Hrun) as (Hinv & _ & [[_ Hready]|Hhalt]).
  2:{ destruct Hhalt as (t & r & Hlast & _). destruct (Hns t).
      destruct (trace st) as [|e tr _] using rev_ind; [done|].
      rewrite last_snoc in Hlast. injection Hlast as ->. apply elem_of_app. right. by left. }
  destruct (decide (Forall (λ d, d ∈ completed_tasks st) (task_dependencies task)))
    as [Hall|Hsome].
  - exfalso. apply (not_elem_of_nil k). rewrite <-Hready.
    apply elem_of_get_ready_tasks.
    rewrite (inv_keys _ _ Hinv), (inv_graph _ _ Hinv). fold (graph_deps self k).
    split_and!; [apply list_elem_of_fmap; by exists (k, task)|done|].
    intros d Hd. rewrite (graph_deps_lookup self k task) in Hd by done.
    rewrite elem_of_set_of in Hd. rewrite Forall_forall in Hall. by apply Hall.
  - apply not_Forall_Exists in Hsome; [|apply _].
    apply Exists_exists in Hsome as (d & Hd & Hdc). by exists d.
Qed.

(** X20: in the map that [run] hands back, every task that was marked
    completed, other than the task that stopped the run, has a successful
    result, unless a group of the same name has written over it. (When [run]
    hands back no map because the lookup of a task's result raised, that
    task alone is marked completed without a result.) *)
Theorem completed_tasks_succeeded (self : Workflow) (st : run_state) (sig : signal)
    (k : string) :
  run self = Some (st, sig) →
  k ∈ completed_tasks st → EvStopped k ∉ trace st → k ∉ (task_groups self).*1 →
  (∃ r, results st !! k = Some r ∧ success r = true)
  ∨ (sig = Raised (KeyError k) ∧ last (trace st) = Some (EvCompleted k)
     ∧ results st !! k = None).
Proof using set_iter_perm.
  intros Hrun Hk Hns Hng. destruct (run_ledger self st sig Hrun) as [Hfinal _].
  destruct (run_ended self st sig Hrun) as (Hinv & _).
  pose proof (inv_history _ _ Hinv) as Htr.
  rewrite (inv_completed _ _ Hinv) in Hk.
  apply elem_of_completed_of, list_elem_of_split in Hk as (pre & post & Heq).
  destruct (final_shaped _ _ _ Hfinal pre _ post Heq) as [_ Hc].
  destruct (results_of pre !! k) as [r|] eqn:Hr.
  2:{ right. destruct Hc as (-> & -> & _).
      split_and!; [done|rewrite Heq; apply last_snoc|].
      by rewrite (inv_results _ _ Hinv), Heq, results_of_completed. }
  destruct (success r) eqn:Hs.
  2:{ destruct Hc as [-> _]. destruct Hns. rewrite Heq. apply elem_of_app.
      right. right. by left. }
  left. exists r. split; [|done].
  assert (∀ e, e ∈ pre → e ∈ trace st) as Hpre.
  { intros e He. rewrite Heq. apply elem_of_app. by left. }
  apply results_of_recorded in Hr as [Hev%Hpre|Hev%Hpre].
  - destruct (history_ok_elem self _ _ Htr Hev) as (pre' & post' & Heq' & _ & Hok).
    destruct Hok as [_ [(task & Hd & Hx)|(e & _ & ->)]]; [|done].
    apply (kept_result self st sig k task); [done..| |done|done].
    rewrite Heq'. apply elem_of_app. by left.
  - destruct Hng. by eapply group_result_is_group.
Qed.

(** ** One execution attempt: errors and frame *)

Lemma collect_outputs_missing (m : gmap string TaskResult) (l : list string) (d : string) :
  d ∈ l → m !! d = None →
  ∃ d', d' ∈ l ∧ m !! d' = None ∧ collect_outputs m l = Raise (KeyError d').
Proof.
  induction l as [|prev l IH]; [by intros ?%elem_of_nil|].
  intros Hd Hnone. cbn [collect_outputs].
  destruct (m !! prev) as [r|] eqn:Hprev.
  - apply elem_of_cons in Hd as [->|Hd]; [congruence|].
    destruct (IH Hd Hnone) as (d' & Hd' & Hn' & ->). exists d'. split; [by right|done].
  - exists prev. split; [by left|done].
Qed.

(** X21: [_execute_task] raises a [KeyError] for a name that is no task,
    for a task that the dependencies map does not know, and for a task one of
    whose dependencies has no entry in [results]. In each case nothing has
    happened yet: the task is as it was, nothing was executed, nothing
    recorded. *)
Theorem execute_task_key_errors (k : string) (st : run_state) :
  (dict_get k (tasks (workflow st)) = None →
     _execute_task k st = (st, Raise (KeyError k)))
  ∧ (∀ task, dict_get k (tasks (workflow st)) = Some task →
       wf_task_dependencies (workflow st) !! k = None →
       _execute_task k st = (st, Raise (KeyError k)))
  ∧ (∀ task deps d, dict_get k (tasks (workflow st)) = Some task →
       wf_task_dependencies (workflow st) !! k = Some deps →
       d ∈ deps → results st !! d = None →
       ∃ d', d' ∈ deps ∧ results st !! d' = None
             ∧ _execute_task k st = (st, Raise (KeyError d'))).
Proof using set_iter_perm.
  unfold _execute_task, subscript. split_and!.
  - by intros ->.
  - by intros task -> ->.
  - intros task deps d -> -> Hd Hnone.
    destruct (collect_outputs_missing (results st) (set_iter deps) d)
      as (d' & Hd' & Hn' & ->); [by apply elem_of_set_iter|done|].
    rewrite elem_of_set_iter in Hd'. by exists d'.
Qed.

(** X22: [_execute_task] touches the task it runs and that task's entry
    in [results], and nothing else: no other task, no other entry, no
    group, and it marks nothing completed. The entry is written exactly when
    the execution returned a result, successful or not, and that result is
    what the call returns; when the execution raised, [results] is as
    before. *)
Theorem execute_task_frame (k : string) (st : run_state) :
  completed_tasks (_execute_task k st).1 = completed_tasks st
  ∧ Forall2 same_task (tasks (workflow st)) (tasks (workflow (_execute_task k st).1))
  ∧ task_groups (workflow (_execute_task k st).1) = task_groups (workflow st)
  ∧ (∀ k', k' ≠ k →
       results (_execute_task k st).1 !! k' = results st !! k'
       ∧ dict_get k' (tasks (workflow (_execute_task k st).1))
         = dict_get k' (tasks (workflow st)))
  ∧ match (_execute_task k st).2 with
    | Ok r => results (_execute_task k st).1 !! k = Some r
    | Raise _ => results (_execute_task k st).1 = results st
    end.
Proof.
  destruct (execute_task_extends k st) as (evs & Hx & Hev & _ & _ & Hr & _).
  split_and!.
  - rewrite (ext_completed _ _ _ Hx). apply quiet_completed.
    eapply Forall_impl; [exact Hev|]. by intros e He k' ->.
  - apply (ext_tasks _ _ _ Hx).
  - apply (ext_groups _ _ _ Hx).
  - intros k' Hk'. clear Hx Hev Hr. unfold _execute_task.
    destruct (subscript k (tasks (workflow st))) as [task|e]; [|done].
    destruct (wf_task_dependencies (workflow st) !! k) as [deps|]; [|done].
    destruct (collect_outputs (results st) (set_iter deps)) as [outs|e]; [|done].
    assert (dict_get k' (dict_alter (inject outs (set_iter deps)) k (tasks (workflow st)))
            = dict_get k' (tasks (workflow st))) as Hget.
    { rewrite dict_get_alter. by rewrite decide_False by done. }
    destruct (execute_with_timeout _) as [result|e]; [|done].
    destruct (success result); cbn; by rewrite lookup_insert_ne.
  - destruct (_execute_task k st).2 as [r|e] eqn:Hout; [by apply Hr|].
    clear Hx Hev Hr. revert Hout. unfold _execute_task.
    destruct (subscript k (tasks (workflow st))) as [task|e']; [|done].
    destruct (wf_task_dependencies (workflow st) !! k) as [deps|]; [|done].
    destruct (collect_outputs (results st) (set_iter deps)) as [outs|e']; [|done].
    destruct (execute_with_timeout _) as [result|e']; [|done].
    by destruct (success result).
Qed.
(** ** Path extraction *)

Lemma split_nonempty (sep : Ascii.ascii) (s : string) : ∃ p ps, split sep s = p :: ps.
Proof.
  induction s as [|c s (p & ps & IH)]; cbn [split]; [by eexists _, _|].
  destruct (Ascii.eqb c sep); [by eexists _, _|]. rewrite IH. by eexists _, _.
Qed.

Lemma split_app (sep : Ascii.ascii) (a b : string) :
  split sep (a +:+ String sep b) = split sep a ++ split sep b.
Proof.
  induction a as [|c a IH].
  - change ("" +:+ String sep b) with (String sep b). cbn [split].
    by rewrite Ascii.eqb_refl.
  - rewrite append_cons. cbn [split]. rewrite IH.
    destruct (Ascii.eqb c sep); [done|].
    by destruct (split_nonempty sep a) as (p & ps & ->).
Qed.

Lemma walk_app (l1 l2 : list string) (v : value) :
  walk (l1 ++ l2) v = walk l1 v ≫= walk l2.
Proof.
  revert v. induction l1 as [|part l1 IH]; intros v; [done|].
  cbn [app walk]. destruct v as [| | | | |d]; try done.
  destruct (dict_get part d); [apply IH|done].
Qed.

(** One pass of the loop of [_extract_from_path] goes on exactly when the
    value is a mapping that has the segment as a key *)
Lemma extract_part_found (part : string) (current v : value) :
  extract_part part current = Found v
  ↔ ∃ d, current = VDict d ∧ dict_get part d = Some v.
Proof.
  unfold extract_part, value_contains, value_subscript. split.
  - destruct current as [| | |s|l|d].
    1-5: rewrite andb_false_r; by repeat case_match.
    destruct (String.eqb_spec part "output") as [->|Hne]; cbn [andb].
    + destruct (dict_mem "output" d) eqn:Hmem.
      * destruct (dict_get "output" d) eqn:Hget; [|done]. intros [= <-]. eauto.
      * done.
    + destruct (dict_mem part d) eqn:Hmem; [|done].
      destruct (dict_get part d) eqn:Hget; [|done]. intros [= <-]. eauto.
  - intros (d & -> & Hget).
    assert (dict_mem part d = true) as Hmem by (apply dict_mem_get; by rewrite Hget).
    destruct (String.eqb_spec part "output") as [->|Hne]; cbn [andb].
    + by rewrite Hmem, Hget.
    + by rewrite Hmem, Hget.
Qed.

Lemma extract_parts_app (l1 l2 : list string) (v : value) :
  extract_parts (l1 ++ l2) v =
  match extract_parts l1 v with
  | Found w => extract_parts l2 w
  | err => err
  end.
Proof.
  revert v. induction l1 as [|part l1 IH]; intros v; [done|].
  cbn [app extract_parts]. destruct (extract_part part v); [apply IH|done..].
Qed.

Lemma extract_parts_walk (parts : list string) (data v : value) :
  extract_parts parts data = Found v ↔ walk parts data = Some v.
Proof.
  revert data. induction parts as [|part parts IH]; intros data; cbn [extract_parts walk].
  - split; by intros [= ->].
  - destruct (extract_part part data) as [w| |] eqn:Hpart.
    + apply extract_part_found in Hpart as (d & -> & ->). apply IH.
    + split; [done|]. destruct data as [| | | | |d]; try done.
      destruct (dict_get part d) as [w|] eqn:Hget; [|done].
      assert (extract_part part (VDict d) = Found w) as Hw
        by (apply extract_part_found; eauto).
      congruence.
    + split; [done|]. destruct data as [| | | | |d]; try done.
      destruct (dict_get part d) as [w|] eqn:Hget; [|done].
      assert (extract_part part (VDict d) = Found w) as Hw
        by (apply extract_part_found; eauto).
      congruence.
Qed.

(** X23: [_extract_items_from_output] raises nothing but [ValueError]: it
    refuses a failed result whatever the path and the output are, and for a
    successful result it returns the items exactly when every segment of the
    path, the first one included, leads through nested mappings to a list.
    A path has at least one segment, so the output itself must be a mapping
    that has the first segment as a key. *)
Theorem extract_items_outcomes (result : TaskResult) (path : string) :
  (success result = false →
     _extract_items_from_output result path
     = Raise (ValueError ("Cannot extract items from failed task result: "
                          +:+ str_error (error result))))
  ∧ (∀ items, _extract_items_from_output result path = Ok items ↔
       success result = true
       ∧ walk (split "." path) (output result) = Some (VList items))
  ∧ (∀ items, _extract_items_from_output result path = Ok items →
       ∃ d seg rest v, output result = VDict d ∧ split "." path = seg :: rest
                       ∧ dict_get seg d = Some v)
  ∧ (∀ e, _extract_items_from_output result path = Raise e → ∃ msg, e = ValueError msg).
Proof.
  unfold _extract_items_from_output.
  destruct (split_nonempty "." path) as (seg & rest & Hsplit). rewrite Hsplit.
  destruct (success result); cbn [negb].
  2:{ split_and!; [done| |done|].
      - intros items. split; [done|by intros [? _]].
      - intros e [= <-]. by eexists. }
  split_and!.
  - done.
  - intros items. split.
    + destruct (walk _ _) as [[| | | |l|]|]; try done. by intros [= ->].
    + by intros [_ ->].
  - intros items. cbn [walk]. destruct (output result) as [| | | | |d]; try done.
    destruct (dict_get seg d) as [v|] eqn:Hget; [|done]. intros _. by exists d, seg, rest, v.
  - intros e. destruct (walk _ _) as [[]|]; try done; intros [= <-]; by eexists.
Qed.

(** X24: the loop that [run] has inline is [_extract_items_from_output]
    one segment further in: what [run] extracts from a task's output along
    the segments after the first is what [_extract_items_from_output] extracts
    along the whole path from a successful result that holds that output
    under the first segment, errors included. Applied to the task's own
    result, the helper looks for the first segment inside the output. *)
Theorem extract_items_agrees_with_run (t : string) (g : string * TaskGroup)
    (st : run_state) (r : TaskResult) (seg : string) (rest : list string) :
  triggers (for_each (config g.2)) t = true → results st !! t = Some r →
  split "." (for_each (config g.2)) = seg :: rest →
  match _extract_items_from_output
          (mkTaskResult true (VDict [(seg, output r)]) None) (for_each (config g.2)) with
  | Raise e => (expand_group t g st).2 = Some e
  | Ok items =>
      (expand_group t g st).2 =
      match group_execute g.2 items with
      | Raise e => Some e
      | Ok _ => None
      end
  end.
Proof.
  intros Htrig Hr Hsplit. unfold _extract_items_from_output, expand_group.
  rewrite Htrig, Hsplit. cbn [success output negb walk dict_get tail results emit].
  rewrite String.eqb_refl, Hr.
  destruct (walk rest (output r)) as [[| | | |items|]|]; try done.
  by destruct (group_execute g.2 items).
Qed.

(** X25: [_extract_from_path] returns a value exactly when every segment
    of the path leads through nested mappings to it. It never descends into
    a list or a string, the branch for the segment [output] changes nothing,
    and since a path has at least one segment, nothing is ever extracted
    from data that is not a mapping. *)
Theorem extract_from_path_found (data v : value) (path : string) :
  _extract_from_path data path = Found v ↔ walk (split "." path) data = Some v.
Proof. apply extract_parts_walk. Qed.

(** X26: extraction along a path put together with a dot is extraction
    along the first part followed by extraction along the second, with the
    same error when the first fails. *)
Theorem extract_from_path_composes (data : value) (p q : string) :
  _extract_from_path data (p +:+ "." +:+ q) =
  match _extract_from_path data p with
  | Found v => _extract_from_path v q
  | err => err
  end.
Proof.
  unfold _extract_from_path.
  change ("." +:+ q) with (String "."%char q). by rewrite split_app, extract_parts_app.
Qed.
(** ** A group's batch *)

Lemma create_task_Ok (task_type tname : string) (cfg : list (string * value))
    (self self' : Workflow) (task : Task) :
  create_task task_type tname cfg self = (self', Ok task) →
  (tname ∉ (tasks self).*1)
  ∧ registry_create_task task_type tname cfg = Ok task
  ∧ tasks self' = tasks self ++ [(tname, task)]
  ∧ task_groups self' = task_groups self.
Proof.
  unfold create_task. destruct (dict_mem tname (tasks self)) eqn:Hmem; [done|].
  apply dict_mem_false in Hmem.
  destruct (registry_create_task task_type tname cfg) as [task'|e]; [|done].
  intros [= <- <-]. cbn. by rewrite dict_set_fresh.
Qed.

Lemma create_task_Raise (task_type tname : string) (cfg : list (string * value))
    (self self' : Workflow) (e : exn) :
  create_task task_type tname cfg self = (self', Raise e) → self' = self.
Proof.
  unfold create_task. destruct (dict_mem tname (tasks self)); [by intros [= <-]|].
  destruct (registry_create_task task_type tname cfg); [done|by intros [= <-]].
Qed.

(** X27: the loop that creates a batch registers one task per item, in
    the order of the items and after the tasks that were there, each under
    the group's name joined by an underscore to the item's string form and
    built by the registry from the group's type and the template rendered
    for the item; it gets to the end only if these names differ from one
    another and from every name registered before. When it raises, for a
    name that is taken or out of the registry, the tasks it has created so
    far stay registered. *)
Theorem batch_creation_outcome (grp : TaskGroup) (g : string) (items : list value)
    (self : Workflow) :
  match create_group_tasks grp g items self with
  | (self', Ok created) =>
      tasks self' = tasks self ++ zip ((λ item, g +:+ "_" +:+ str item) <$> items) created
      ∧ Forall2 (λ item task,
           ∃ template task_type,
             attr_config_template grp = Ok template ∧ attr_type grp = Ok task_type
             ∧ registry_create_task task_type (g +:+ "_" +:+ str item)
                 (_prepare_task_config template item) = Ok task)
         items created
      ∧ NoDup ((λ item, g +:+ "_" +:+ str item) <$> items)
      ∧ (∀ item, item ∈ items → g +:+ "_" +:+ str item ∉ (tasks self).*1)
      ∧ task_groups self' = task_groups self
  | (self', Raise e) =>
      ∃ n created,
        (n < length items)%nat ∧ length created = n
        ∧ tasks self' = tasks self
                        ++ zip ((λ item, g +:+ "_" +:+ str item) <$> take n items) created
        ∧ task_groups self' = task_groups self
  end.
Proof.
  revert self. induction items as [|item items IH]; intros self.
  { cbn. rewrite app_nil_r.
    split_and!; [done|constructor|constructor|by intros ? ?%elem_of_nil|done]. }
  cbn [create_group_tasks].
  assert (∃ n created,
    (n < length (item :: items))%nat ∧ length created = n
    ∧ tasks self = tasks self
                   ++ zip ((λ item, g +:+ "_" +:+ str item) <$> take n (item :: items)) created
    ∧ task_groups self = task_groups self) as Hfirst.
  { exists 0%nat, []. cbn. rewrite app_nil_r. split_and!; [lia|done..]. }
  destruct (attr_config_template grp) as [template|e] eqn:Htemplate; [|by apply Hfirst].
  destruct (attr_type grp) as [task_type|e] eqn:Htype; [|by apply Hfirst].
  destruct (create_task task_type (g +:+ "_" +:+ str item)
              (_prepare_task_config template item) self) as [self1 [task|e]] eqn:Hcreate.
  2:{ apply create_task_Raise in Hcreate as ->. by apply Hfirst. }
  clear Hfirst. apply create_task_Ok in Hcreate as (Hfresh & Hreg & Htasks & Hgroups).
  specialize (IH self1).
  destruct (create_group_tasks grp g items self1) as [self2 [created|e]].
  - destruct IH as (Ht2 & Hall & Hnd & Hnew & Hg2). split_and!.
    + rewrite Ht2, Htasks, <-app_assoc. done.
    + constructor; [by exists template, task_type|done].
    + cbn [fmap list_fmap]. apply NoDup_cons. split; [|done].
      intros (item' & Heq & Hin)%list_elem_of_fmap.
      apply (Hnew item' Hin). rewrite Htasks, fmap_app, elem_of_app. right.
      rewrite <-Heq. by left.
    + intros item' [->|Hin]%elem_of_cons; [done|].
      intros Hold. apply (Hnew item' Hin). rewrite Htasks, fmap_app, elem_of_app. by left.
    + congruence.
  - destruct IH as (n & created & Hn & Hlen & Ht2 & Hg2).
    exists (S n), (task :: created). split_and!; [cbn; lia|cbn; lia| |congruence].
    rewrite Ht2, Htasks, <-app_assoc. done.
Qed.

Hypothesis finish_order_perm : ∀ l, finish_order l ≡ₚ l.

Lemma record_outcome_lookup (batch : gmap string TaskResult) (t : Task) (k : string) :
  record_outcome batch t !! k
  = if decide (name t = k) then
      match execute_with_timeout t with
      | Ok r => Some r
      | Raise e => if is_Exception e then Some (failed_result e) else batch !! k
      end
    else batch !! k.
Proof.
  unfold record_outcome.
  destruct (execute_with_timeout t) as [r|e]; [|destruct (is_Exception e)];
    rewrite ?lookup_insert; by repeat case_decide.
Qed.

Lemma record_outcome_fold (l : list Task) (batch : gmap string TaskResult) (k : string) :
  is_Some (fold_left record_outcome l batch !! k)
  ↔ is_Some (batch !! k)
    ∨ ∃ task, task ∈ l ∧ name task = k
        ∧ ∀ e, execute_with_timeout task = Raise e → is_Exception e = true.
Proof.
  revert batch. induction l as [|t l IH]; intros batch; cbn [fold_left].
  - split; [auto|]. by intros [?|(? & ?%elem_of_nil & _)].
  - rewrite IH, record_outcome_lookup. setoid_rewrite elem_of_cons.
    case_decide as Hk; [|naive_solver].
    destruct (execute_with_timeout t) as [r|e] eqn:Hexec.
    + split; [intros _; right; exists t|intros _; left; by eexists].
      split_and!; [by left|done|]. intros e He. congruence.
    + destruct (is_Exception e) eqn:Hexc.
      * split; [intros _; right; exists t|intros _; left; by eexists].
        split_and!; [by left|done|]. intros e' He'. congruence.
      * split.
        -- intros [?|(task & ? & ? & ?)]; [by left|right]. exists task. auto.
        -- intros [?|(task & [->|?] & ? & Hw)]; [by left| |right; by exists task].
           rewrite (Hw e Hexec) in Hexc. done.
Qed.

Lemma record_outcome_own (l : list Task) (batch : gmap string TaskResult) (task : Task) :
  NoDup (name <$> l) → task ∈ l →
  fold_left record_outcome l batch !! name task
  = match execute_with_timeout task with
    | Ok r => Some r
    | Raise e => if is_Exception e then Some (failed_result e) else batch !! name task
    end.
Proof.
  revert batch. induction l as [|t l IH]; intros batch Hnd Hin;
    [by apply elem_of_nil in Hin|].
  cbn [fmap list_fmap] in Hnd. apply NoDup_cons in Hnd as [Ht Hnd].
  cbn [fold_left]. apply elem_of_cons in Hin as [->|Hin].
  - assert (∀ batch', fold_left record_outcome l batch' !! name t = batch' !! name t)
      as Hkeep.
    { clear IH Hnd. induction l as [|t' l IHl]; intros batch'; [done|].
      cbn [fmap list_fmap] in Ht. apply not_elem_of_cons in Ht as [Hne Ht].
      cbn [fold_left]. rewrite IHl by done. rewrite record_outcome_lookup.
      by rewrite decide_False. }
    rewrite Hkeep, record_outcome_lookup. by rewrite decide_True.
  - rewrite IH by done. rewrite record_outcome_lookup.
    rewrite decide_False; [done|]. intros Heq. apply Ht.
    rewrite Heq. apply list_elem_of_fmap. by exists task.
Qed.

(** X28: once the tasks of a batch are created and the concurrency cap is
    positive, [_execute_task_group] returns, whatever the executions do: an
    [Exception] raised by one of them is recorded as a failed result and
    stops neither the others nor the call, and an exception that is no
    [Exception] leaves no entry. The map it returns has an entry under the
    name of every created task whose execution returned or raised an
    [Exception], and under no other name; when the created tasks carry
    pairwise distinct names each entry is the outcome of its own task. *)
Theorem batch_records_every_outcome (g : string) (parent_result : TaskResult)
    (self self' : Workflow) (grp : TaskGroup) (path : string) (items : list value)
    (created : list Task) (n : Z) :
  dict_get g (task_groups self) = Some grp → attr_for_each grp = Ok path →
  _extract_items_from_output parent_result path = Ok items →
  create_group_tasks grp g items self = (self', Ok created) →
  attr_max_concurrent grp = Ok n → (0 < n)%Z →
  ∃ batch,
    _execute_task_group g parent_result self = (self', BatchReturns batch)
    ∧ (∀ k, is_Some (batch !! k) ↔
            ∃ task, task ∈ created ∧ name task = k
              ∧ ∀ e, execute_with_timeout task = Raise e → is_Exception e = true)
    ∧ (NoDup (name <$> created) → ∀ task, task ∈ created →
         batch !! name task
         = match execute_with_timeout task with
           | Ok r => Some r
           | Raise e => if is_Exception e then Some (failed_result e) else None
           end).
Proof using finish_order_perm.
  intros Hgrp Hpath Hitems Hcreate Hcap Hpos.
  unfold _execute_task_group, subscript. rewrite Hgrp, Hpath, Hitems, Hcreate, Hcap.
  destruct (Z.ltb_spec n 0) as [?|_]; [lia|].
  destruct (Z.eqb_spec n 0) as [?|_]; [lia|].
  exists (fold_left record_outcome (finish_order created) ∅). split_and!.
  - by destruct created.
  - intros k. rewrite record_outcome_fold, lookup_empty.
    setoid_rewrite finish_order_perm. split; [by intros [[? ?]|?]|auto].
  - intros Hnd task Hin. rewrite record_outcome_own, lookup_empty.
    + done.
    + by rewrite finish_order_perm.
    + by rewrite finish_order_perm.
Qed.

(** X29: what [_execute_task_group] refuses. A name of no group raises a
    [KeyError] and a failed parent result a [ValueError], both before any
    task is created, so that the workflow is as it was. After the tasks of
    a non-empty batch have been registered, a negative concurrency cap raises
    the semaphore's [ValueError], and with a cap of zero no task ever gets
    a slot: the call does not return. *)
Theorem execute_task_group_refusals (g : string) (parent_result : TaskResult)
    (self : Workflow) :
  (dict_get g (task_groups self) = None →
     _execute_task_group g parent_result self = (self, BatchRaises (KeyError g)))
  ∧ (∀ grp path, dict_get g (task_groups self) = Some grp → attr_for_each grp = Ok path →
       success parent_result = false →
       _execute_task_group g parent_result self
       = (self, BatchRaises
                  (ValueError ("Cannot extract items from failed task result: "
                               +:+ str_error (error parent_result)))))
  ∧ (∀ grp path items self' task created n,
       dict_get g (task_groups self) = Some grp → attr_for_each grp = Ok path →
       _extract_items_from_output parent_result path = Ok items →
       create_group_tasks grp g items self = (self', Ok (task :: created)) →
       attr_max_concurrent grp = Ok n →
       ((n < 0)%Z →
          _execute_task_group g parent_result self
          = (self', BatchRaises (ValueError "Semaphore initial value must be >= 0")))
       ∧ (n = 0%Z → _execute_task_group g parent_result self = (self', BatchBlocks))).
Proof.
  unfold _execute_task_group, subscript. split_and!.
  - by intros ->.
  - intros grp path -> -> Hfail. unfold _extract_items_from_output. by rewrite Hfail.
  - intros grp path items self' task created n -> -> -> -> ->. split.
    + intros Hn. by destruct (Z.ltb_spec n 0) as [_|?]; [|lia].
    + by intros ->.
Qed.
(** ** Publishing a group's output *)

Lemma push_output_idem (g : string) (out : value) (task : Task) :
  push_output g out (push_output g out task) = push_output g out task.
Proof.
  unfold push_output. cbn. rewrite insert_insert_eq. f_equal.
  destruct (bool_decide (g ∈ dependency_order task)) eqn:Hin.
  - by rewrite Hin.
  - rewrite bool_decide_eq_true_2; [done|]. apply elem_of_app. right. by left.
Qed.

Lemma publish_fold (g : string) (out : value) (l : list string) (st : run_state)
    (k : string) :
  dict_get k (tasks (workflow
    (fold_left
       (λ st' next_task_name,
          if dict_mem next_task_name (tasks (workflow st'))
          then alter_task (push_output g out) next_task_name st'
          else st') l st)))
  = (if decide (k ∈ l) then push_output g out else id) <$> dict_get k (tasks (workflow st)).
Proof.
  revert st. induction l as [|x l IH]; intros st.
  - cbn [fold_left]. rewrite decide_False by apply not_elem_of_nil.
    by destruct (dict_get k _).
  - cbn [fold_left]. rewrite IH. clear IH.
    assert (dict_get k (tasks (workflow
              (if dict_mem x (tasks (workflow st))
               then alter_task (push_output g out) x st else st)))
            = if decide (x = k) then push_output g out <$> dict_get k (tasks (workflow st))
              else dict_get k (tasks (workflow st))) as ->.
    { destruct (dict_mem x (tasks (workflow st))) eqn:Hmem.
      - cbn. apply dict_get_alter.
      - destruct (decide (x = k)) as [->|Hx]; [|done].
        destruct (dict_get k (tasks (workflow st))) eqn:Hget; [|done].
        assert (dict_mem k (tasks (workflow st)) = true)
          by (apply dict_mem_get; by rewrite Hget).
        congruence. }
    destruct (dict_get k (tasks (workflow st))) as [task|].
    2:{ by destruct (decide (x = k)), (decide (k ∈ l)), (decide (k ∈ x :: l)). }
    destruct (decide (x = k)) as [->|Hx], (decide (k ∈ l)) as [Hl|Hl],
             (decide (k ∈ _ :: l)) as [Hxl|Hxl]; cbn; try done.
    + by rewrite push_output_idem.
    + destruct Hxl. by left.
    + destruct Hxl. by left.
    + destruct Hxl. by right.
    + apply elem_of_cons in Hxl as [?|?]; by subst.
Qed.

(** X30: publishing the result of a group reaches exactly the registered
    tasks that the dependents map lists for the group's name: each of them
    gets the group's output under the group's name in its
    [dependency_outputs], and the group's name at the end of its
    [dependency_order] unless it is already there. Every other task, and the
    results, the completed set and the groups are left as they were: a
    dependent is given the output, but it is not made ready by it. *)
Theorem publish_reaches_dependents (g : string) (group_result : TaskResult)
    (st : run_state) (k : string) :
  dict_get k (tasks (workflow (publish g group_result st)))
  = (if decide (k ∈ default [] (wf_task_dependents (workflow st) !! g))
     then (λ task,
             mkTask (name task) (task_dependencies task) (task_config task)
               (<[g := output group_result]> (dependency_outputs task))
               (if decide (g ∈ dependency_order task)
                then dependency_order task
                else dependency_order task ++ [g]))
     else id) <$> dict_get k (tasks (workflow st))
  ∧ results (publish g group_result st) = results st
  ∧ completed_tasks (publish g group_result st) = completed_tasks st
  ∧ trace (publish g group_result st) = trace st
  ∧ task_groups (workflow (publish g group_result st)) = task_groups (workflow st).
Proof using set_iter_perm.
  destruct (publish_extends g group_result st) as [Htr Hres Hc _ Hg _ _].
  rewrite app_nil_r in Htr. split_and!; [|done..].
  unfold publish. rewrite publish_fold.
  destruct (dict_get k (tasks (workflow st))) as [task|].
  2:{ by destruct (decide _), (decide _). }
  destruct (decide (k ∈ set_iter _)) as [Hk|Hk]; rewrite elem_of_set_iter in Hk;
    destruct (decide (k ∈ default [] _)) as [Hk'|Hk']; try done.
  cbn. unfold push_output. do 2 f_equal. by rewrite (decide_bool_decide (g ∈ _)).
Qed.

End Orchestrator.

(** * Concrete runs *)

(** Tactics for facts about concrete runs: a decidable fact by evaluation,
    membership and non-membership in an explicit list, and a name for the
    final state the goal speaks of. *)
Ltac decide_it := apply (bool_decide_unpack _); vm_compute; exact I.

Ltac in_list := solve [repeat first [by left | right]].

Ltac not_in :=
  let H := fresh in
  intros H; repeat (apply elem_of_cons in H as [H|H]; [discriminate H|]);
  by apply elem_of_nil in H.

Ltac name_run st :=
  match goal with |- context [trace ?s] => set (st := s) end.

Lemma insertion_order_perm (l : list string) : insertion_order l ≡ₚ l.
Proof. done. Defined.

Lemma reverse_order_perm (l : list string) : reverse_order l ≡ₚ l.
Proof. apply reverse_Permutation. Defined.

(** C1 fails as stated. A task that fails is marked completed, and its name
    is the first segment of the path of [g], yet no expansion is triggered;
    and a task whose name equals only the second segment of the path does
    trigger the expansion. *)
Lemma expansion_trigger_counterexample :
  (∃ st, run insertion_order fails echo_group single = Some (st, Return)
         ∧ (λ g, head (split "." (for_each (config g.2)))) <$> task_groups single
           = [Some "t"]
         ∧ elements (completed_tasks st) = ["t"]
         ∧ triggered_groups (trace st) = [])
  ∧ (∃ st, run insertion_order (returns items_output) echo_group second_segment
           = Some (st, Return)
           ∧ (λ g, head (split "." (for_each (config g.2)))) <$> task_groups second_segment
             = [Some "parent"]
           ∧ triggered_groups (trace st) = [("g", "items")]).
Proof.
  split; (eexists; split; [vm_compute; reflexivity|]); repeat split; vm_compute; reflexivity.
Qed.


(** C3 fails as stated: for a failed task whose name the path of [g]
    starts with, the run stops right after marking it completed; no group
    expansion is evaluated before it returns, and nothing is recorded for
    [g]. *)
Lemma failed_task_expansion_counterexample :
  ∃ st, run insertion_order fails echo_group single = Some (st, Return)
        ∧ (λ g, triggers (for_each (config g.2)) "t") <$> task_groups single = [true]
        ∧ success <$> results st !! "t" = Some false
        ∧ elements (completed_tasks st) = ["t"]
        ∧ stopped_at (trace st) = ["t"]
        ∧ triggered_groups (trace st) = []
        ∧ results st !! "g" = None.
Proof.
  eexists; split; [vm_compute; reflexivity|]. repeat split; vm_compute; reflexivity.
Qed.

(** C4 fails as stated: [B] declares [A] twice and is given a
    [dependency_order] that names [A] once. *)
Lemma dependency_order_counterexample :
  ∃ st, run insertion_order (returns items_output) echo_group repeated_dependency
        = Some (st, Return)
        ∧ task_dependencies <$> dict_get "B" (tasks repeated_dependency)
          = Some ["A"; "A"]
        ∧ attempts (trace st) = [("A", []); ("B", ["A"])].
Proof.
  eexists; split; [vm_compute; reflexivity|]. repeat split; vm_compute; reflexivity.
Qed.

Lemma chain_acyclic : acyclic chain.
Proof.
  exists chain_rank. intros k task d Hin Hd. unfold chain in Hin. cbn [tasks] in Hin.
  repeat (apply elem_of_cons in Hin as [Hin|Hin];
          [injection Hin as -> ->; cbn in Hd|]).
  - by apply elem_of_nil in Hd.
  - apply list_elem_of_singleton in Hd as ->. vm_compute. lia.
  - by apply elem_of_nil in Hin.
Defined.

Lemma chain_satisfiable : satisfiable chain.
Proof.
  intros k task d Hin Hd. unfold chain in Hin. cbn [tasks] in Hin.
  repeat (apply elem_of_cons in Hin as [Hin|Hin];
          [injection Hin as -> ->; cbn in Hd|]).
  - by apply elem_of_nil in Hd.
  - apply list_elem_of_singleton in Hd as ->. by left.
  - by apply elem_of_nil in Hin.
Defined.

(** C5 fails as stated: the graph is acyclic, every dependency is a task,
    there are no groups, and [B] is absent from the returned map because
    [A] failed. *)
Lemma failed_dependency_counterexample :
  task_groups chain = [] ∧ acyclic chain ∧ satisfiable chain
  ∧ ∃ st, run insertion_order (fails_at "A" items_output) echo_group chain
          = Some (st, Return)
          ∧ attempts (trace st) = [("A", [])]
          ∧ results st !! "B" = None.
Proof.
  split_and!; [done|apply chain_acyclic|apply chain_satisfiable|].
  eexists; split; [vm_compute; reflexivity|]. repeat split; vm_compute; reflexivity.
Qed.

(** C7 fails as stated: [B] waits for [missing], which is no task and is
    never completed, and [run] raises, out of the expansion of [G]. *)
Lemma unsatisfiable_dependency_counterexample :
  task_dependencies <$> dict_get "B" (tasks misspelled) = Some ["missing"]
  ∧ (tasks misspelled).*1 = ["A"; "B"]
  ∧ ∃ st, run insertion_order (returns (VDict [])) echo_group misspelled
          = Some (st, Raised (ValueError "Path A.items not found in task output"))
          ∧ elements (completed_tasks st) = ["A"].
Proof.
  split_and!; [done|done|].
  eexists; split; [vm_compute; reflexivity|]. vm_compute; reflexivity.
Qed.




(** C1 at the pipeline: [B] succeeds and the path of [G] starts with [B] *)
Lemma expansion_trigger_witness :
  ∃ st, run insertion_order (returns items_output) echo_group pipeline = Some (st, Return)
        ∧ EvGroup "G" "B" ∈ drop 8 (trace st).
Proof.
  eexists. split; [vm_compute; reflexivity|]. name_run st.
  destruct (expansion_trigger insertion_order (returns items_output) echo_group
              insertion_order_perm pipeline st Return) as (_ & H2 & _).
  - vm_compute. reflexivity.
  - apply (H2 eq_refl (take 7 (trace st)) "B" (drop 8 (trace st))
             (mkTaskResult true items_output None) "G" (group_over "G" "B.items").2).
    + vm_compute. reflexivity.
    + vm_compute. reflexivity.
    + reflexivity.
    + in_list.
    + reflexivity.
Defined.


(** C3 at the single failing task *)
Lemma completed_checked_expanded_witness :
  ∃ st, run insertion_order fails echo_group single = Some (st, Return)
        ∧ drop 5 (trace st) = [EvStopped "t"]
        ∧ results st = results_of (take 4 (trace st))
        ∧ (∀ g, EvGroup g "t" ∉ trace st).
Proof.
  eexists. split; [vm_compute; reflexivity|]. name_run st.
  destruct (completed_checked_expanded insertion_order fails echo_group
              insertion_order_perm single st Return) as [H1 _].
  - vm_compute. reflexivity.
  - specialize (H1 (take 4 (trace st)) "t" (drop 5 (trace st))).
    assert (results_of (take 4 (trace st)) !! "t"
            = Some (mkTaskResult false (VDict []) (Some (Exception "failed")))) as Hr
      by (vm_compute; reflexivity).
    rewrite Hr in H1. cbn [success] in H1.
    destruct H1 as (Ha & _ & Hres & _ & Hg); [vm_compute; reflexivity|].
    by split_and!.
Defined.

(** C4 at the task that declares [A] twice *)
Lemma dependencies_injected_witness :
  ∃ st task',
    run insertion_order (returns items_output) echo_group repeated_dependency
    = Some (st, Return)
    ∧ trace st !! 5 = Some (EvDispatch "B" task')
    ∧ NoDup (dependency_order task')
    ∧ (∀ d, d ∈ dependency_order task' ↔ d ∈ ["A"; "A"]).
Proof.
  eexists _, _. split; [vm_compute; reflexivity|]. name_run st.
  split; [vm_compute; reflexivity|].
  match goal with |- context [dependency_order ?t] => set (task' := t) end.
  destruct (dependencies_injected insertion_order (returns items_output) echo_group
              insertion_order_perm repeated_dependency st Return
              (take 5 (trace st)) (drop 6 (trace st)) "B" task')
    as (task & Hin & Hnd & Hiff & _).
  - decide_it.
  - vm_compute. reflexivity.
  - vm_compute. reflexivity.
  - split; [done|].
    unfold repeated_dependency in Hin. cbn [tasks] in Hin.
    apply elem_of_cons in Hin as [Hin|Hin]; [discriminate Hin|].
    apply list_elem_of_singleton in Hin. injection Hin as ->. exact Hiff.
Defined.

(** C5 at the chain of two tasks that both succeed *)
Lemma acyclic_workflow_completes_witness :
  ∃ st, run insertion_order (returns items_output) echo_group chain = Some (st, Return)
    ∧ ∀ k, k ∈ (tasks chain).*1 → is_Some (results st !! k).
Proof.
  destruct (acyclic_workflow_completes insertion_order (returns items_output) echo_group
              insertion_order_perm chain) as [H1 _].
  - decide_it.
  - apply H1.
    + reflexivity.
    + apply chain_acyclic.
    + apply chain_satisfiable.
    + intros task. eexists. split; reflexivity.
Defined.

(** C7 at a workflow whose group expands without raising *)
Lemma unsatisfiable_dependency_witness :
  ∃ st sig,
    run insertion_order (returns items_output) echo_group misspelled = Some (st, sig)
    ∧ (∀ names, EvExecuting names ∈ trace st → "B" ∉ names)
    ∧ (∀ task', EvDispatch "B" task' ∉ trace st)
    ∧ ("B" ∉ completed_tasks st)
    ∧ results st !! "B" = None.
Proof.
  destruct (unsatisfiable_dependency_is_silent insertion_order (returns items_output)
              echo_group insertion_order_perm misspelled "B" "missing"
              (plain_task "B" ["missing"]).2)
    as (st & sig & Hrun & _ & _ & Hr & Hd & Hc & _ & Hnone).
  - decide_it.
  - in_list.
  - in_list.
  - decide_it.
  - exists st, sig. split_and!; [done..|]. apply Hnone. decide_it.
Defined.


(** Section 8 of the specification: the greeting for item [x] *)
Example prepare_task_config_greeting :
  _prepare_task_config str_example greeting (VStr "x")
  = [("msg", VStr "hello x"); ("retries", VInt 3);
     ("nested", VDict [("inner", VStr "${item}")])].
Proof. reflexivity. Qed.

(** C9 at the greeting template *)
Lemma prepare_task_config_rendered_witness :
  Forall2 (λ kv kv', kv'.1 = kv.1 ∧ rendered str_example (VStr "x") kv.2 kv'.2)
    greeting (_prepare_task_config str_example greeting (VStr "x")).
Proof.
  apply (prepare_task_config_rendered str_example greeting (VStr "x")). decide_it.
Defined.

(** C10 at the pipeline *)
Lemma name_errors_witness :
  add_task (plain_task "A" []).2 pipeline
  = (pipeline, Raise (ValueError "Task with name A already exists in workflow"))
  ∧ create_task any_type "echo" "B" [] pipeline
    = (pipeline, Raise (ValueError "Task B already exists"))
  ∧ add_task_group "G" (config (group_over "G" "B.items").2) pipeline
    = (pipeline, Raise (ValueError "Task group G already exists"))
  ∧ get_task "D" pipeline = (pipeline, Raise (ValueError "Task D not found"))
  ∧ get_task_output no_output no_output "D" pipeline
    = (pipeline, Raise (ValueError "Task or group D not found")).
Proof.
  destruct (name_errors_leave_workflow_unchanged any_type no_output no_output pipeline)
    as (H1 & H2 & H3 & H4 & H5).
  split_and!.
  - apply (H1 (plain_task "A" []).2). decide_it.
  - apply (H2 "echo" "B" []). decide_it.
  - apply (H3 "G"). decide_it.
  - apply (H4 "D"). decide_it.
  - apply (H5 "D"); decide_it.
Defined.

(** * The further properties at concrete workflows *)

Lemma finish_in_order_perm (l : list Task) : finish_in_order l ≡ₚ l.
Proof. done. Defined.

(** X1 at the pipeline: a fourth task [D] *)
Lemma add_task_then_get_task_witness :
  ∃ self', add_task (plain_task "D" []).2 pipeline = (self', Ok ())
           ∧ get_task "D" self' = (self', Ok (plain_task "D" []).2).
Proof.
  destruct (add_task_then_get_task (plain_task "D" []).2 pipeline) as (self' & H1 & H2 & _).
  - decide_it.
  - exists self'. split; [exact H1|exact H2].
Defined.

(** X2 at the pipeline: a second group [H] *)
Lemma add_task_group_then_get_task_group_witness :
  ∃ self', add_task_group "H" (config (group_over "H" "A.items").2) pipeline = (self', Ok ())
           ∧ get_task_group "H" self' = (self', Ok (group_over "H" "A.items").2)
           ∧ get_all_task_groups self'
             = [(group_over "G" "B.items").2; (group_over "H" "A.items").2].
Proof.
  destruct (add_task_group_then_get_task_group "H" (config (group_over "H" "A.items").2)
              pipeline) as (self' & H1 & H2 & _ & H4 & _).
  - decide_it.
  - exists self'. split_and!; [exact H1|exact H2|exact H4].
Defined.

(** X3 for the two tasks of the chain, added to a new workflow *)
Lemma get_all_tasks_in_registration_order_witness :
  get_all_tasks
    (fold_left (λ w t, (add_task t w).1)
       [(plain_task "A" []).2; (plain_task "B" ["A"]).2] __init__)
  = [(plain_task "A" []).2; (plain_task "B" ["A"]).2].
Proof.
  refine (proj2 (get_all_tasks_in_registration_order
                   [(plain_task "A" []).2; (plain_task "B" ["A"]).2] __init__ _ _)).
  - decide_it.
  - intros task _. apply not_elem_of_nil.
Defined.

(** X4 at the pipeline, with a registry that knows every type *)
Lemma create_task_outcomes_witness :
  ∃ self', create_task any_type "echo" "D" [] pipeline = (self', Ok (mkTask "D" [] [] ∅ []))
    ∧ get_task "D" self' = (self', Ok (mkTask "D" [] [] ∅ []))
    ∧ tasks self' = tasks pipeline ++ [("D", mkTask "D" [] [] ∅ [])]
    ∧ get_all_tasks self' = get_all_tasks pipeline ++ [mkTask "D" [] [] ∅ []].
Proof.
  refine (create_task_outcomes any_type "echo" "D" [] pipeline _). decide_it.
Defined.

(** X8 at the pipeline: [B] depends on [A] *)
Lemma dependents_inverse_of_dependencies_witness :
  "B" ∈ default [] (wf_task_dependents (_build_dependency_graph pipeline) !! "A")
  ↔ "A" ∈ default [] (wf_task_dependencies (_build_dependency_graph pipeline) !! "B").
Proof. apply (dependents_inverse_of_dependencies pipeline "B" "A"). decide_it. Defined.

(** X9 at the pipeline: the entry of [B], and the dependents entry of the
    group name [G], which is no task *)
Lemma dependency_graph_entries_witness :
  (∃ ds, wf_task_dependencies (_build_dependency_graph pipeline) !! "B" = Some ds
         ∧ NoDup ds ∧ ∀ d, d ∈ ds ↔ d ∈ ["A"])
  ∧ is_Some (wf_task_dependents (_build_dependency_graph pipeline) !! "G").
Proof.
  destruct (dependency_graph_entries pipeline) as (H1 & _ & H3 & _).
  - decide_it.
  - split.
    + apply (H1 "B" (plain_task "B" ["A"]).2). in_list.
    + apply H3. exists "C", (plain_task "C" ["G"]).2. split; in_list.
Defined.

(** X10 at the chain: once [A] is completed, [B] is ready *)
Lemma ready_tasks_of_fresh_graph_witness :
  "B" ∈ _get_ready_tasks (_build_dependency_graph chain) {["A"]}
  ↔ ∃ task, ("B", task) ∈ tasks chain ∧ ("B" ∉ ({["A"]} : gset string))
            ∧ ∀ d, d ∈ task_dependencies task → d ∈ ({["A"]} : gset string).
Proof. apply (ready_tasks_of_fresh_graph chain {["A"]} "B"). decide_it. Defined.

(** X11 at the chain before its graph is built: [B] counts as ready
    although [A], its dependency, is not completed *)
Lemma task_unknown_to_graph_is_ready_witness :
  "B" ∈ _get_ready_tasks chain ∅ ↔ "B" ∉ (∅ : gset string).
Proof.
  apply (task_unknown_to_graph_is_ready chain ∅ "B").
  - in_list.
  - reflexivity.
Defined.

(** X12 at the pair: [A] is ready at the start and still ready after [B]
    has completed *)
Lemma ready_until_completed_witness :
  "A" ∈ _get_ready_tasks (_build_dependency_graph pair) {["B"]}.
Proof.
  destruct (ready_until_completed (_build_dependency_graph pair) ∅ {["B"]} "A")
    as (_ & _ & _ & H).
  - decide_it.
  - apply H; decide_it.
Defined.

(** X13 at the pipeline *)
Lemma no_task_runs_twice_witness :
  ∃ st, run insertion_order (returns items_output) echo_group pipeline = Some (st, Return)
        ∧ NoDup (dispatched (trace st))
        ∧ (length (dispatched (trace st)) ≤ length (tasks pipeline))%nat.
Proof.
  eexists. split; [vm_compute; reflexivity|]. name_run st.
  destruct (no_task_runs_twice insertion_order (returns items_output) echo_group
              insertion_order_perm pipeline st Return) as (H1 & _ & H3 & _).
  - vm_compute. reflexivity.
  - split; [exact H1|exact H3].
Defined.

(** X14 at the chain: [B] is executed after [A] completed with a
    successful result *)
Lemma dependencies_succeeded_before_dispatch_witness :
  ∃ st, run insertion_order (returns items_output) echo_group chain = Some (st, Return)
    ∧ ∃ before after r,
        take 5 (trace st) = before ++ EvCompleted "A" :: after
        ∧ results_of before !! "A" = Some r ∧ success r = true.
Proof.
  eexists. split; [vm_compute; reflexivity|]. name_run st.
  apply (dependencies_succeeded_before_dispatch insertion_order (returns items_output)
           echo_group insertion_order_perm chain st Return
           (take 5 (trace st)) (drop 6 (trace st)) "B" "A" (plain_task "B" ["A"]).2
           (mkTask "B" ["A"] [] {["A" := items_output]} ["A"])).
  - decide_it.
  - vm_compute. reflexivity.
  - vm_compute. reflexivity.
  - in_list.
  - in_list.
Defined.

(** X15 at the pair in which [A] fails: the run stops at [A], and the
    result that [B] returned in the same round is in the map *)
Lemma returned_results_are_kept_witness :
  ∃ st, run insertion_order (fails_at "A" items_output) echo_group pair = Some (st, Return)
        ∧ results st !! "B" = Some (mkTaskResult true items_output None).
Proof.
  eexists. split; [vm_compute; reflexivity|].
  match goal with |- context [results ?s] => set (st := s) end.
  apply (returned_results_are_kept insertion_order (fails_at "A" items_output) echo_group
           insertion_order_perm pair st Return "B" (plain_task "B" []).2).
  - vm_compute. reflexivity.
  - subst st. cbn [trace]. in_list.
  - reflexivity.
  - apply not_elem_of_nil.
Defined.

(** X16 at the chain: [A] is not in the round of [B] *)
Lemma round_members_are_independent_witness :
  ∃ st, run insertion_order (returns items_output) echo_group chain = Some (st, Return)
        ∧ EvExecuting ["B"] ∈ trace st ∧ "A" ∉ ["B"].
Proof.
  eexists. split; [vm_compute; reflexivity|]. name_run st.
  assert (EvExecuting ["B"] ∈ trace st) as Hin by (subst st; cbn [trace]; in_list).
  split; [exact Hin|].
  apply (round_members_are_independent insertion_order (returns items_output) echo_group
           insertion_order_perm chain st Return ["B"] "B" "A" (plain_task "B" ["A"]).2).
  - decide_it.
  - vm_compute. reflexivity.
  - exact Hin.
  - in_list.
  - in_list.
  - in_list.
Defined.

(** X17 at the pipeline *)
Lemma results_belong_to_tasks_and_groups_witness :
  ∃ st, run insertion_order (returns items_output) echo_group pipeline = Some (st, Return)
        ∧ ∀ k, k ∈ completed_tasks st →
               k ∈ (tasks pipeline).*1 ∧ is_Some (results st !! k).
Proof.
  eexists. split; [vm_compute; reflexivity|].
  match goal with |- context [results ?s] => set (st := s) end.
  destruct (results_belong_to_tasks_and_groups insertion_order (returns items_output)
              echo_group insertion_order_perm pipeline st Return) as (_ & H2 & H3).
  - vm_compute. reflexivity.
  - intros k Hk. split; [by apply H2|by apply H3].
Defined.

(** X18 at the pipeline *)
Lemma run_only_injects_witness :
  ∃ st, run insertion_order (returns items_output) echo_group pipeline = Some (st, Return)
        ∧ Forall2 same_task (tasks pipeline) (tasks (workflow st))
        ∧ task_groups (workflow st) = task_groups pipeline.
Proof.
  eexists. split; [vm_compute; reflexivity|].
  match goal with |- context [workflow ?s] => set (st := s) end.
  destruct (run_only_injects insertion_order (returns items_output) echo_group
              insertion_order_perm pipeline st Return) as (H1 & H2 & _).
  - vm_compute. reflexivity.
  - split; [exact H1|exact H2].
Defined.

(** X19 at the pipeline: [C] is left out, and waits for [G] *)
Lemma drained_run_leaves_blocked_tasks_witness :
  ∃ st, run insertion_order (returns items_output) echo_group pipeline = Some (st, Return)
        ∧ ∃ d, d ∈ ["G"] ∧ d ∉ completed_tasks st.
Proof.
  eexists. split; [vm_compute; reflexivity|].
  match goal with |- context [completed_tasks ?s] => set (st := s) end.
  apply (drained_run_leaves_blocked_tasks insertion_order (returns items_output) echo_group
           insertion_order_perm pipeline st "C" (plain_task "C" ["G"]).2).
  - decide_it.
  - vm_compute. reflexivity.
  - intros t. subst st. cbn [trace]. not_in.
  - in_list.
  - decide_it.
Defined.

(** X20 at the pipeline: [B] *)
Lemma completed_tasks_succeeded_witness :
  ∃ st, run insertion_order (returns items_output) echo_group pipeline = Some (st, Return)
        ∧ ∃ r, results st !! "B" = Some r ∧ success r = true.
Proof.
  eexists. split; [vm_compute; reflexivity|].
  match goal with |- context [results ?s] => set (st := s) end.
  destruct (completed_tasks_succeeded insertion_order (returns items_output) echo_group
              insertion_order_perm pipeline st Return "B") as [H|(Hsig & _)].
  - vm_compute. reflexivity.
  - decide_it.
  - subst st. cbn [trace]. not_in.
  - decide_it.
  - exact H.
  - discriminate Hsig.
Defined.

(** X21 at the chain, for [B] before [A] has a result *)
Lemma execute_task_key_errors_witness :
  ∃ d', d' ∈ ["A"] ∧ results (initial_state chain) !! d' = None
        ∧ _execute_task insertion_order (returns items_output) "B" (initial_state chain)
          = (initial_state chain, Raise (KeyError d')).
Proof.
  destruct (execute_task_key_errors insertion_order (returns items_output)
              insertion_order_perm "B" (initial_state chain)) as (_ & _ & H3).
  apply (H3 (plain_task "B" ["A"]).2 ["A"] "A").
  - reflexivity.
  - vm_compute. reflexivity.
  - in_list.
  - reflexivity.
Defined.

(** X24 at the group over [t.items], after [t] has completed with two
    items *)
Lemma extract_items_agrees_with_run_witness :
  (expand_group insertion_order echo_group "t" (group_over "g" "t.items") after_t).2 = None.
Proof.
  refine (extract_items_agrees_with_run insertion_order echo_group error_text "t"
            (group_over "g" "t.items") after_t (mkTaskResult true two_items None)
            "t" ["items"] _ _ _); vm_compute; reflexivity.
Defined.

(** X28 for the group over [t.items] and a parent result that holds two
    items under [t] *)
Lemma batch_records_every_outcome_witness :
  ∃ batch self',
    _execute_task_group str_example any_type (returns items_output) error_text
      for_each_of config_template_of type_of max_concurrent_of finish_in_order
      "g" nested_result single
    = (self', BatchReturns batch)
    ∧ batch !! "g_a" = Some (mkTaskResult true items_output None)
    ∧ (tasks self').*1 = ["t"; "g_a"; "g_b"].
Proof.
  destruct (batch_records_every_outcome str_example any_type (returns items_output)
              error_text for_each_of config_template_of type_of max_concurrent_of
              finish_in_order finish_in_order_perm "g" nested_result single
              (set_tasks single
                 (tasks single
                  ++ [("g_a", mkTask "g_a" [] [("msg", VStr "hello a")] ∅ []);
                      ("g_b", mkTask "g_b" [] [("msg", VStr "hello b")] ∅ [])]))
              (group_over "g" "t.items").2 "t.items" [VStr "a"; VStr "b"]
              [mkTask "g_a" [] [("msg", VStr "hello a")] ∅ [];
               mkTask "g_b" [] [("msg", VStr "hello b")] ∅ []] 2)
    as (batch & H1 & _ & H3).
  - reflexivity.
  - reflexivity.
  - vm_compute. reflexivity.
  - vm_compute. reflexivity.
  - reflexivity.
  - lia.
  - exists batch. eexists. split_and!; [exact H1| |reflexivity].
    apply (H3 ltac:(decide_it) (mkTask "g_a" [] [("msg", VStr "hello a")] ∅ [])). in_list.
Defined.

(** X30 at the pipeline: [C] declares the group [G] *)
Lemma publish_reaches_dependents_witness :
  dependency_order
  <$> dict_get "C" (tasks (workflow
        (publish insertion_order "G" (mkTaskResult true items_output None)
           (initial_state pipeline))))
  = Some ["G"].
Proof.
  destruct (publish_reaches_dependents insertion_order insertion_order_perm "G"
              (mkTaskResult true items_output None) (initial_state pipeline) "C")
    as (H & _).
  rewrite H. vm_compute. reflexivity.
Defined.

